(** * Belts and Factory cores: a shallow embedding and its properties

    The two solvers of the repository ([belts/main.py], [factory/main.py])
    are embedded as Rocq functions.

    Conventions of the embedding.
    - Python numbers (JSON ints and floats) are modelled by exact rationals
      [Q]; [float(x)] is the identity, comparisons are the boolean
      comparisons of [Q], and [float('inf')] is a separate constructor.
    - Python dicts are association lists in insertion order, updated in
      place on an existing key ([dict_set]); [dict.get(k, d)] is
      [dict_get_or].
    - [sorted] is a stable insertion sort, [sorted(set(..))] removes
      duplicates first.
    - The max-flow / min-cut kernel (networkx) and the LP kernel (scipy) are
      outside the repository: they are section variables, and theorems state
      what they need of the kernel's answer on the graph or LP at hand.
    - An uncaught Python exception is a value of [exn]; [main] turns it into
      an error response, as the [try/except] of the source does. *)

From Stdlib Require Import List String Ascii Bool Arith ZArith QArith Qabs Lqa Lia.
From Stdlib Require Import Permutation Sorted.
Import ListNotations.

Local Open Scope string_scope.
Local Open Scope list_scope.
Local Open Scope Q_scope.

(* ------------------------------------------------------------------ *)
(** ** Numbers *)

Definition Qlt_bool (a b : Q) : bool := negb (Qle_bool b a).

Definition Qmax (a b : Q) : Q := if Qle_bool a b then b else a.

(** [sum(...)] of Python: a left fold of [+] from [0]. *)
Definition Qsum (l : list Q) : Q := fold_left Qplus l 0.

(* ------------------------------------------------------------------ *)
(** ** Dictionaries in insertion order *)

Section Dict.
Context {K V : Type} (eqb : K -> K -> bool).

Fixpoint dict_get (d : list (K * V)) (k : K) : option V :=
    match d with
    | [] => None
    | (k', v) :: d' => if eqb k k' then Some v else dict_get d' k
    end.

Definition dict_get_or (d : list (K * V)) (k : K) (dflt : V) : V :=
    match dict_get d k with Some v => v | None => dflt end.

Definition dict_mem (d : list (K * V)) (k : K) : bool :=
    match dict_get d k with Some _ => true | None => false end.

  (** [d[k] = v]: overwrite in place, or append a new key. *)
Fixpoint dict_set (d : list (K * V)) (k : K) (v : V) : list (K * V) :=
    match d with
    | [] => [(k, v)]
    | (k', v') :: d' =>
        if eqb k k' then (k', v) :: d' else (k', v') :: dict_set d' k v
    end.

  (** [d[k] = f(d.get(k, dflt))], the shape of [+=] on a defaultdict and of
      [defaultdict(list)[k].append(..)]. *)
Definition dict_update (d : list (K * V)) (k : K) (dflt : V) (f : V -> V)
    : list (K * V) :=
    dict_set d k (f (dict_get_or d k dflt)).
End Dict.

Definition pair_eqb (a b : string * string) : bool :=
  (fst a =? fst b)%string && (snd a =? snd b)%string.

Definition sget {V} := @dict_get string V String.eqb.
Definition sget_or {V} := @dict_get_or string V String.eqb.
Definition smem {V} := @dict_mem string V String.eqb.
Definition sset {V} := @dict_set string V String.eqb.
Definition pset {V} := @dict_set (string * string) V pair_eqb.

Definition str_in (s : string) (l : list string) : bool :=
  existsb (String.eqb s) l.

(* ------------------------------------------------------------------ *)
(** ** Sorting *)

Section Sort.
Context {A : Type} (le : A -> A -> bool).

Fixpoint insert_sorted (x : A) (l : list A) : list A :=
    match l with
    | [] => [x]
    | y :: l' => if le x y then x :: y :: l' else y :: insert_sorted x l'
    end.

  (** Stable: of two equal keys the one met first in [l] comes first. *)
Definition sorted (l : list A) : list A := fold_right insert_sorted [] l.
End Sort.

Definition sorted_strings : list string -> list string := sorted String.leb.

(** [sorted(set(l))] / [sorted(list(set(l)))]. *)
Definition sorted_set (l : list string) : list string :=
  sorted_strings (nodup string_dec l).

(* ------------------------------------------------------------------ *)
(** ** Exceptions *)

Inductive exn : Type :=
| KeyError (key : string)
| ZeroDivisionError
| TypeError (msg : string)
| KernelError (msg : string).

(** [str(e)] of the source's [except Exception as e]. *)
Definition exn_message (e : exn) : string :=
  match e with
  | KeyError k => ("'" ++ k ++ "'")%string
  | ZeroDivisionError => "float division by zero"
  | TypeError m => m
  | KernelError m => m
  end.

Definition result (A : Type) : Type := (exn + A)%type.
Definition ret {A} (a : A) : result A := inr a.
Definition raise {A} (e : exn) : result A := inl e.
Definition bind {A B} (m : result A) (k : A -> result B) : result B :=
  match m with inl e => inl e | inr a => k a end.

Notation "x <- m ;; k" := (bind m (fun x => k))
  (at level 61, m at next level, right associativity).
Notation "' pat <- m ;; k" := (bind m (fun x => match x with pat => k end))
  (at level 61, pat pattern, m at next level, right associativity).

(** [d[k]] on a string-keyed dict: [KeyError] when the key is absent. *)
Definition sindex {V} (d : list (string * V)) (k : string) : result V :=
  match sget d k with Some v => ret v | None => raise (KeyError k) end.

(** Python's [a / b] on numbers. *)
Definition div_py (a b : Q) : result Q :=
  if Qeq_bool b 0 then raise ZeroDivisionError else ret (a / b).

(** A loop that builds a list and may raise on the way. *)
Fixpoint mapM {A B} (f : A -> result B) (l : list A) : result (list B) :=
  match l with
  | [] => ret []
  | a :: l' => b <- f a ;; bs <- mapM f l' ;; ret (b :: bs)
  end.

(* ================================================================== *)
(** * Belts core ([belts/main.py]) *)

Module Belts.

Definition NUMERICAL_TOLERANCE : Q := 1 # 1000000000.
Definition SUPER_SOURCE : string := "__SUPER_SRC__".
Definition SUPER_SINK : string := "__SUPER_SNK__".

(** *** Problem data *)

Record edge : Type := mk_edge {
  e_from : string;
  e_to : string;
  e_lo : option Q;     (* optional key 'lo' *)
  e_hi : Q
}.

Record node_cap : Type := mk_node_cap { nc_name : string; nc_cap : Q }.
Record source : Type := mk_source { src_name : string; src_supply : Q }.

Record belts_data : Type := mk_belts_data {
  nodes : list string;
  edges : list edge;
  node_caps : list node_cap;
  sources : list source;
  sink : string
}.

(** [float(edge.get('lo', 0.0))] *)
Definition lo_of (e : edge) : Q :=
  match e_lo e with Some q => q | None => 0 end.

(** *** Responses *)

Record flow_entry : Type := mk_flow_entry {
  fe_from : string; fe_to : string; fe_flow : Q
}.

Record tight_edge : Type := mk_tight_edge {
  te_from : string; te_to : string; te_flow_needed : Q
}.

Inductive belts_output : Type :=
| BOk (max_flow_per_min : Q) (flows : list flow_entry)
| BInfeasible (cut_reachable : list string) (demand_balance : Q)
    (tight_nodes : list string) (tight_edges : list tight_edge)
| BError (message : string).

(** *** The auxiliary network and the kernel's answers *)

(** [nx.DiGraph]: a node set and one [capacity] attribute per arc. *)
Record DiGraph : Type := mk_graph {
  g_nodes : list string;
  g_arcs : list ((string * string) * Q)
}.

Definition empty_graph : DiGraph := mk_graph [] [].

Definition add_node (G : DiGraph) (n : string) : DiGraph :=
  if str_in n (g_nodes G) then G else mk_graph (g_nodes G ++ [n]) (g_arcs G).

Definition add_edge (G : DiGraph) (u v : string) (c : Q) : DiGraph :=
  let G' := add_node (add_node G u) v in
  mk_graph (g_nodes G') (pset (g_arcs G') (u, v) c).

Definition has_edge (G : DiGraph) (u v : string) : bool :=
  dict_mem pair_eqb (g_arcs G) (u, v).

(** [flow_dict]: a dict of dicts. *)
Definition flow_dict : Type := list (string * list (string * Q)).

(** [flow_dict.get(u, {}).get(v, 0.0)] *)
Definition flow_on (fd : flow_dict) (u v : string) : Q :=
  sget_or (sget_or fd u []) v 0.

(** *** BeltsSolver.__init__ *)

Record BeltsSolver : Type := mk_solver {
  network_nodes : list string;
  network_edges : list edge;
  node_capacity_map : list (string * Q);
  source_supply_map : list (string * Q);
  sink_node : string;
  total_supply_amount : Q
}.

(** [if 'lo' not in edge: edge['lo'] = 0.0] *)
Definition normalise (e : edge) : edge :=
  match e_lo e with
  | Some _ => e
  | None => mk_edge (e_from e) (e_to e) (Some 0) (e_hi e)
  end.

Definition init (data : belts_data) : BeltsSolver :=
  let es := map normalise (edges data) in
  let caps := fold_left (fun d nc => sset d (nc_name nc) (nc_cap nc))
                        (node_caps data) [] in
  let sups := fold_left (fun d s => sset d (src_name s) (src_supply s))
                        (sources data) [] in
  mk_solver (nodes data) es caps sups (sink data) (Qsum (map snd sups)).

(** *** _get_internal_node_maps *)

Definition is_split (self : BeltsSolver) (node : string) : bool :=
  smem (node_capacity_map self) node
  && negb (smem (source_supply_map self) node)
  && negb (node =? sink_node self)%string.

Definition internal_name (self : BeltsSolver) (node : string) : string :=
  if is_split self node then (node ++ "__in")%string else node.

Definition external_name (self : BeltsSolver) (node : string) : string :=
  if is_split self node then (node ++ "__out")%string else node.

Definition get_internal_node_maps (self : BeltsSolver)
  : list (string * string) * list (string * string) :=
  fold_left (fun '(imap, emap) node =>
               (sset imap node (internal_name self node),
                sset emap node (external_name self node)))
            (network_nodes self) ([], []).

(** *** solve: validation and grouping of the arcs *)

Record item : Type := mk_item {
  it_idx : nat; it_from : string; it_to : string;
  it_lo : Q; it_hi : Q; it_reduced : Q
}.

Definition mapped_pairs : Type := list ((string * string) * list item).

Definition hi_lt_lo_message (u v : string) : string :=
  ("edge " ++ u ++ "->" ++ v ++ " has hi < lo")%string.

(** The first loop of [solve]. [inl] is an early exit: a raised [KeyError]
    or the returned error response. *)
Fixpoint collect_edges (imap emap : list (string * string)) (idx : nat)
    (es : list edge) (acc : mapped_pairs)
  : (result belts_output) + mapped_pairs :=
  match es with
  | [] => inr acc
  | e :: es' =>
      let lower_bound := lo_of e in
      let upper_bound := e_hi e in
      if Qlt_bool (upper_bound + NUMERICAL_TOLERANCE) lower_bound then
        inl (ret (BError (hi_lt_lo_message (e_from e) (e_to e))))
      else
        let reduced_capacity := upper_bound - lower_bound in
        match sget emap (e_from e) with
        | None => inl (raise (KeyError (e_from e)))
        | Some mapped_source =>
            match sget imap (e_to e) with
            | None => inl (raise (KeyError (e_to e)))
            | Some mapped_target =>
                let it := mk_item idx (e_from e) (e_to e)
                                  lower_bound upper_bound reduced_capacity in
                collect_edges imap emap (S idx) es'
                  (dict_update pair_eqb acc (mapped_source, mapped_target) []
                               (fun l => l ++ [it]))
            end
        end
  end.

(** [B(v)]: the defaultdict [node_imbalance]. *)
Definition node_imbalance (es : list edge) : list (string * Q) :=
  fold_left (fun d e =>
               let d1 := dict_update String.eqb d (e_to e) 0
                                     (fun b => b + lo_of e) in
               dict_update String.eqb d1 (e_from e) 0 (fun b => b - lo_of e))
            es [].

(** [R(v)]: the dict [node_requirement]. *)
Definition requirement_of (self : BeltsSolver) (imb : list (string * Q))
    (node : string) : Q :=
  let supply := sget_or (source_supply_map self) node 0 in
  let demand := if (node =? sink_node self)%string
                then total_supply_amount self else 0 in
  sget_or imb node 0 + supply - demand.

Definition node_requirement (self : BeltsSolver) : list (string * Q) :=
  let imb := node_imbalance (network_edges self) in
  fold_left (fun d node => sset d node (requirement_of self imb node))
            (network_nodes self) [].

Definition total_reduced (l : list item) : Q := Qsum (map it_reduced l).

(** *** solve: the auxiliary network *)

(** Arcs [v__in -> v__out] of the split nodes. *)
Fixpoint add_node_cap_arcs (imap emap : list (string * string))
    (caps : list (string * Q)) (G : DiGraph) : result DiGraph :=
  match caps with
  | [] => ret G
  | (node, capacity) :: caps' =>
      i <- sindex imap node ;;
      o <- sindex emap node ;;
      add_node_cap_arcs imap emap caps'
        (if negb (i =? o)%string then add_edge G i o capacity else G)
  end.

Definition add_mapped_arcs (mp : mapped_pairs) (G : DiGraph) : DiGraph :=
  fold_left (fun G '((ms, mt), l) => add_edge G ms mt (total_reduced l)) mp G.

(** The loop over the nodes that wires the super endpoints; the state is
    the graph and [total_demand]. *)
Fixpoint add_requirement_arcs (imap emap : list (string * string))
    (req : list (string * Q)) (ns : list string) (st : DiGraph * Q)
  : result (DiGraph * Q) :=
  match ns with
  | [] => ret st
  | node :: ns' =>
      let '(G, total_demand) := st in
      requirement <- sindex req node ;;
      node_internal <- sindex imap node ;;
      node_external <- sindex emap node ;;
      add_requirement_arcs imap emap req ns'
        (if Qlt_bool NUMERICAL_TOLERANCE requirement then
           (add_edge G SUPER_SOURCE node_internal requirement,
            total_demand + requirement)
         else if Qlt_bool requirement (- NUMERICAL_TOLERANCE) then
           (add_edge G node_external SUPER_SINK (- requirement), total_demand)
         else (G, total_demand))
  end.

Definition build_flow_graph (self : BeltsSolver)
    (imap emap : list (string * string)) (mp : mapped_pairs)
  : result (DiGraph * Q) :=
  let G0 := fold_left add_node (map snd imap ++ map snd emap) empty_graph in
  G1 <- add_node_cap_arcs imap emap (node_capacity_map self) G0 ;;
  let G2 := add_mapped_arcs mp G1 in
  let G3 := add_node (add_node G2 SUPER_SOURCE) SUPER_SINK in
  add_requirement_arcs imap emap (node_requirement self)
                       (network_nodes self) (G3, 0).

(** *** solve: lifting the flow back to the original arcs *)

(** [l[i] = v]; every index written by [solve] is an arc index, in range. *)
Fixpoint list_set {A} (l : list A) (i : nat) (v : A) : list A :=
  match l, i with
  | [], _ => []
  | _ :: l', O => v :: l'
  | x :: l', S i' => x :: list_set l' i' v
  end.

Definition apportion_group (fd : flow_dict) (flows : list Q)
    (g : (string * string) * list item) : list Q :=
  let '((mapped_source, mapped_target), l) := g in
  let flow_on_mapped := flow_on fd mapped_source mapped_target in
  let total_reduced_cap := total_reduced l in
  if Qlt_bool NUMERICAL_TOLERANCE total_reduced_cap then
    fold_left (fun fl it =>
                 list_set fl (it_idx it)
                   (it_reduced it / total_reduced_cap * flow_on_mapped))
              l flows
  else
    fold_left (fun fl it => list_set fl (it_idx it) 0) l flows.

Definition original_edge_flows (fd : flow_dict) (mp : mapped_pairs)
    (n : nat) : list Q :=
  fold_left (apportion_group fd) mp (repeat 0 n).

(** [original_edge_flows[idx] + lo] for every arc, before the filter. *)
Definition lifted_flow (orig : list Q) (idx : nat) (e : edge) : Q :=
  nth idx orig 0 + lo_of e.

Definition enumerate {A} (l : list A) : list (nat * A) :=
  combine (seq 0 (List.length l)) l.

Definition final_flows (es : list edge) (orig : list Q) : list flow_entry :=
  flat_map (fun '(idx, e) =>
              let flow_value := lifted_flow orig idx e in
              if Qlt_bool NUMERICAL_TOLERANCE flow_value
              then [mk_flow_entry (e_from e) (e_to e) flow_value]
              else [])
           (enumerate es).

(** Order of the key [(x['from'], x['to'])]. *)
Definition flow_key_le (a b : flow_entry) : bool :=
  match String.compare (fe_from a) (fe_from b) with
  | Lt => true
  | Eq => String.leb (fe_to a) (fe_to b)
  | Gt => false
  end.

(** *** _format_infeasible *)

(** [s.split('__', 1)[0]] when ['__' in s], else [s]. *)
Fixpoint base_name (s : string) : string :=
  match s with
  | EmptyString => EmptyString
  | String c rest =>
      if String.prefix "__" s then EmptyString else String c (base_name rest)
  end.

Definition reachable_original (source_reachable : list string) : list string :=
  map base_name
      (filter (fun m => negb ((m =? SUPER_SOURCE)%string
                              || (m =? SUPER_SINK)%string))
              source_reachable).

Definition arc_capacity (G : DiGraph) (u v : string) : Q :=
  if has_edge G u v then dict_get_or pair_eqb (g_arcs G) (u, v) 0 else 0.

Fixpoint tight_nodes_of (G : DiGraph) (fd : flow_dict)
    (imap emap : list (string * string)) (reach : list string)
    (ns : list string) : result (list string) :=
  match ns with
  | [] => ret []
  | node :: ns' =>
      if negb (str_in node reach) then tight_nodes_of G fd imap emap reach ns'
      else
        node_internal <- sindex imap node ;;
        node_external <- sindex emap node ;;
        rest <- tight_nodes_of G fd imap emap reach ns' ;;
        if (node_internal =? node_external)%string then ret rest
        else
          let node_capacity := arc_capacity G node_internal node_external in
          let flow_through_node := flow_on fd node_internal node_external in
          if Qle_bool (node_capacity - flow_through_node) NUMERICAL_TOLERANCE
          then ret (node :: rest) else ret rest
  end.

Definition tight_edges_of (G : DiGraph) (fd : flow_dict)
    (source_reachable : list string) (deficit_amount : Q)
    (mp : mapped_pairs) : list tight_edge :=
  flat_map (fun '((ms, mt), l) =>
              if str_in ms source_reachable
                 && negb (str_in mt source_reachable) then
                let edge_capacity := arc_capacity G ms mt in
                let flow_on_edge := flow_on fd ms mt in
                if Qle_bool (edge_capacity - flow_on_edge) NUMERICAL_TOLERANCE
                then map (fun it => mk_tight_edge (it_from it) (it_to it)
                                                  deficit_amount) l
                else []
              else [])
           mp.

Section Kernel.

  (** [nx.maximum_flow(G, s, t)]: the flow value and the flow dict, or the
      text of the exception it raised. *)
Variable maximum_flow :
    DiGraph -> string -> string -> string + (Q * flow_dict).

  (** [nx.minimum_cut(G, s, t)]: the cut value and the partition. *)
Variable minimum_cut :
    DiGraph -> string -> string -> string + (Q * (list string * list string)).

Definition format_infeasible (self : BeltsSolver) (G : DiGraph)
      (max_flow_value required_demand : Q) (fd : flow_dict)
      (imap emap : list (string * string)) (mp : mapped_pairs)
    : result belts_output :=
    match minimum_cut G SUPER_SOURCE SUPER_SINK with
    | inl msg => raise (KernelError msg)
    | inr (min_cut_value, (source_reachable, sink_reachable)) =>
        let reachable_original_nodes := reachable_original source_reachable in
        let cut_reachable_nodes := sorted_set reachable_original_nodes in
        let deficit_amount := required_demand - max_flow_value in
        tight_node_capacities <-
          tight_nodes_of G fd imap emap reachable_original_nodes
                         (sorted_strings (network_nodes self)) ;;
        let tight_edge_list :=
          tight_edges_of G fd source_reachable deficit_amount mp in
        ret (BInfeasible cut_reachable_nodes deficit_amount
                         (sorted_strings tight_node_capacities)
                         tight_edge_list)
    end.

Definition solve (self : BeltsSolver) : result belts_output :=
    let '(imap, emap) := get_internal_node_maps self in
    match collect_edges imap emap 0 (network_edges self) [] with
    | inl early => early
    | inr mp =>
        '(G, total_demand) <- build_flow_graph self imap emap mp ;;
        match maximum_flow G SUPER_SOURCE SUPER_SINK with
        | inl exc => ret (BError ("maxflow error: " ++ exc)%string)
        | inr (max_flow_value, fd) =>
            if Qlt_bool (1 # 1000000000)
                        (Qabs (max_flow_value - total_demand)) then
              format_infeasible self G max_flow_value total_demand fd
                                imap emap mp
            else
              let orig := original_edge_flows fd mp
                            (List.length (network_edges self)) in
              ret (BOk (total_supply_amount self)
                       (sorted flow_key_le
                               (final_flows (network_edges self) orig)))
        end
    end.

  (** [main]: any exception becomes an error response (the source also adds
      the exception's type name under the key "type"). *)
Definition main (data : belts_data) : belts_output :=
    match solve (init data) with
    | inl e => BError (exn_message e)
    | inr out => out
    end.

End Kernel.

(** *** What the kernel's answers are required to satisfy *)

Definition outflow (G : DiGraph) (fd : flow_dict) (n : string) : Q :=
  Qsum (map (fun a => flow_on fd (fst (fst a)) (snd (fst a)))
            (filter (fun a => (fst (fst a) =? n)%string) (g_arcs G))).

Definition inflow (G : DiGraph) (fd : flow_dict) (n : string) : Q :=
  Qsum (map (fun a => flow_on fd (fst (fst a)) (snd (fst a)))
            (filter (fun a => (snd (fst a) =? n)%string) (g_arcs G))).

(** Capacity available on an arc: networkx leaves arcs of non-positive
    capacity out of the residual network. *)
Definition usable (c : Q) : Q := Qmax 0 c.

Definition within_capacity (G : DiGraph) (fd : flow_dict) : bool :=
  forallb (fun a => let f := flow_on fd (fst (fst a)) (snd (fst a)) in
                    Qle_bool 0 f && Qle_bool f (usable (snd a)))
          (g_arcs G).

Definition conserved (G : DiGraph) (s t : string) (fd : flow_dict) : bool :=
  forallb (fun n => (n =? s)%string || (n =? t)%string
                    || Qeq_bool (inflow G fd n) (outflow G fd n))
          (g_nodes G).

(** A feasible [s]-[t] flow of value [v] on [G]. *)
Definition valid_flow (G : DiGraph) (s t : string) (v : Q) (fd : flow_dict)
  : bool :=
  within_capacity G fd && conserved G s t fd
  && Qeq_bool v (outflow G fd s - inflow G fd s).

Definition source_capacity (G : DiGraph) (s : string) : Q :=
  Qsum (map (fun a => usable (snd a))
            (filter (fun a => (fst (fst a) =? s)%string) (g_arcs G))).

Definition cut_capacity (G : DiGraph) (side : list string) : Q :=
  Qsum (map (fun a => if str_in (fst (fst a)) side
                         && negb (str_in (snd (fst a)) side)
                      then usable (snd a) else 0)
            (g_arcs G)).

(** An [s]-[t] cut of [G] whose capacity is the flow value [v]. *)
Definition valid_min_cut (G : DiGraph) (s t : string) (v : Q)
    (cut : Q * (list string * list string)) : bool :=
  let '(cv, (side_s, side_t)) := cut in
  str_in s side_s && negb (str_in t side_s)
  && forallb (fun n => xorb (str_in n side_s) (str_in n side_t)) (g_nodes G)
  && Qeq_bool cv (cut_capacity G side_s) && Qeq_bool cv v.

(** *** The quantities the statements speak of *)

Definition R (self : BeltsSolver) (node : string) : Q :=
  requirement_of self (node_imbalance (network_edges self)) node.

(** [sum of R(v) over the nodes with R(v) > thr]. *)
Definition demand_above (thr : Q) (self : BeltsSolver) : Q :=
  Qsum (map (R self) (filter (fun v => Qlt_bool thr (R self v))
                             (network_nodes self))).

Definition endpoints_known (data : belts_data) : Prop :=
  forall e, In e (edges data) ->
            In (e_from e) (nodes data) /\ In (e_to e) (nodes data).

Definition caps_known (data : belts_data) : Prop :=
  forall nc, In nc (node_caps data) -> In (nc_name nc) (nodes data).

Definition reserved_free (data : belts_data) : Prop :=
  ~ In SUPER_SOURCE (nodes data) /\ ~ In SUPER_SINK (nodes data).

Definition hi_below_lo (e : edge) : bool :=
  Qlt_bool (e_hi e + NUMERICAL_TOLERANCE) (lo_of e).

(** A flow kernel is sound when every answer it gives is a feasible flow
    of the value it reports. *)
Definition flow_kernel_sound
    (maximum_flow : DiGraph -> string -> string -> string + (Q * flow_dict))
  : Prop :=
  forall G s t v fd,
    maximum_flow G s t = inr (v, fd) -> valid_flow G s t v fd = true.

(** Any kernel, with its answers checked before they are used. *)
Definition checked_flow
    (k : DiGraph -> string -> string -> string + (Q * flow_dict))
  : DiGraph -> string -> string -> string + (Q * flow_dict) :=
  fun G s t =>
    match k G s t with
    | inl msg => inl msg
    | inr (v, fd) =>
        if valid_flow G s t v fd then inr (v, fd) else inl "flow rejected"
    end.

(** *** Auxiliary notions of the statements and proofs *)

Definition item_of (idx : nat) (e : edge) : item :=
  mk_item idx (e_from e) (e_to e) (lo_of e) (e_hi e) (e_hi e - lo_of e).

(** Every item of every group is the record of the arc at its index, and
    its group is keyed by the mapped endpoints of that arc. *)
Definition items_ok (imap emap : list (string * string)) (es : list edge)
    (mp : mapped_pairs) : Prop :=
  forall key l it, In (key, l) mp -> In it l ->
    exists e, nth_error es (it_idx it) = Some e
              /\ it = item_of (it_idx it) e
              /\ sget emap (e_from e) = Some (fst key)
              /\ sget imap (e_to e) = Some (snd key).

(** The body of the loop over [node_capacity_map.items()]. *)
Definition cap_step (self : BeltsSolver) (G : DiGraph) (nc : string * Q)
  : DiGraph :=
  if negb (internal_name self (fst nc) =? external_name self (fst nc))%string
  then add_edge G (internal_name self (fst nc)) (external_name self (fst nc))
                (snd nc)
  else G.

(** The body of the loop that wires the super endpoints. *)
Definition requirement_step (self : BeltsSolver) (st : DiGraph * Q)
    (node : string) : DiGraph * Q :=
  let requirement := R self node in
  if Qlt_bool NUMERICAL_TOLERANCE requirement then
    (add_edge (fst st) SUPER_SOURCE (internal_name self node) requirement,
     snd st + requirement)
  else if Qlt_bool requirement (- NUMERICAL_TOLERANCE) then
    (add_edge (fst st) (external_name self node) SUPER_SINK (- requirement),
     snd st)
  else st.

(** The network [solve] hands to the kernel, and [total_demand]. *)
Definition flow_graph (self : BeltsSolver) (mp : mapped_pairs)
  : DiGraph * Q :=
  let imap := fst (get_internal_node_maps self) in
  let emap := snd (get_internal_node_maps self) in
  let G0 := fold_left add_node (map snd imap ++ map snd emap) empty_graph in
  let G1 := fold_left (cap_step self) (node_capacity_map self) G0 in
  let G2 := add_mapped_arcs mp G1 in
  let G3 := add_node (add_node G2 SUPER_SOURCE) SUPER_SINK in
  fold_left (requirement_step self) (network_nodes self) (G3, 0).

Definition caps_in_nodes (self : BeltsSolver) : Prop :=
  forall nc, In nc (node_capacity_map self) ->
             In (fst nc) (network_nodes self).

Definition scap (d : list ((string * string) * Q)) (s : string) : Q :=
  Qsum (map (fun a => usable (snd a))
            (filter (fun a => (fst (fst a) =? s)%string) d)).

Definition no_arc_from (s : string) (d : list ((string * string) * Q))
  : Prop :=
  forall a, In a d -> fst (fst a) <> s.

(** The groups and the network of a problem that passes validation. *)
Definition mapped_of (self : BeltsSolver) : mapped_pairs :=
  match collect_edges (fst (get_internal_node_maps self))
                      (snd (get_internal_node_maps self)) 0
                      (network_edges self) [] with
  | inr mp => mp
  | inl _ => []
  end.

Definition aux_network (self : BeltsSolver) : DiGraph :=
  fst (flow_graph self (mapped_of self)).

Definition total_demand (self : BeltsSolver) : Q :=
  snd (flow_graph self (mapped_of self)).

End Belts.

(* ================================================================== *)
(** * Factory core ([factory/main.py]) *)

Module Factory.

(** *** Problem data *)

Record recipe : Type := mk_recipe {
  r_machine : string;
  r_time_s : Q;
  r_in : list (string * Q);
  r_out : list (string * Q)
}.

Record module_spec : Type := mk_module {
  m_speed : option Q;      (* optional key 'speed' *)
  m_prod : option Q        (* optional key 'prod' *)
}.

Record factory_data : Type := mk_factory_data {
  machines : list (string * Q);             (* name -> crafts_per_min *)
  recipes : list (string * recipe);
  modules : option (list (string * module_spec));
  raw_supply_per_min : list (string * Q);   (* limits.raw_supply_per_min *)
  max_machines : list (string * Q);         (* limits.max_machines *)
  target_item : string;
  target_rate_per_min : Q
}.

(** A right-hand side: a number or [float('inf')]. *)
Inductive bound : Type :=
| Fin (q : Q)
| Inf.

Definition bound_sub (b : bound) (q : Q) : bound :=
  match b with Fin x => Fin (x - q) | Inf => Inf end.

(** [b <= q] for a number [q]. *)
Definition bound_leb (b : bound) (q : Q) : bool :=
  match b with Fin x => Qle_bool x q | Inf => false end.

(** [q <= b]. *)
Definition le_bound (q : Q) (b : bound) : Prop :=
  match b with Fin x => q <= x | Inf => True end.

Definition le_boundb (q : Q) (b : bound) : bool :=
  match b with Fin x => Qle_bool q x | Inf => true end.

(** [d.get(k, float('inf'))] *)
Definition limit_of (d : list (string * Q)) (k : string) : bound :=
  match sget d k with Some q => Fin q | None => Inf end.

(** *** Responses *)

Inductive factory_output : Type :=
| FOk (per_recipe_crafts_per_min : list (string * Q))
      (per_machine_counts : list (string * Q))
      (raw_consumption_per_min : list (string * Q))
| FInfeasible (max_feasible_target_per_min : Q)
              (bottleneck_hint : list string)
| FError (message : string).

(** *** The LP kernel's interface *)

Definition matrix : Type := list (list Q).

(** [OptimizeResult]: [success], [x] and [slack] (either may be [None]). *)
Record lp_result : Type := mk_lp_result {
  lp_success : bool;
  lp_x : option (list Q);
  lp_slack : option (list bound)
}.

(** [linprog(c, A_ub, b_ub, A_eq, b_eq, bounds=(0, None), method='highs')]:
    the result, or the text of the exception it raised. *)
Definition lp_kernel : Type :=
  list Q -> matrix -> list bound -> option matrix -> option (list Q)
  -> string + lp_result.

(** [sum(row[i] * x[i] ...)]. *)
Definition dot (row xs : list Q) : Q :=
  Qsum (map (fun p => fst p * snd p) (combine row xs)).

(** *** FactorySolver.__init__ *)

Record FactorySolver : Type := mk_solver {
  data : factory_data;
  recipe_list : list string;
  machine_type_list : list string;
  raw_materials : list string;
  intermediate_materials : list string;
  all_materials : list string;
  material_index_map : list (string * nat);
  recipe_index_map : list (string * nat);
  effective_crafts_per_min : list (string * Q);
  productivity_multipliers : list (string * Q);
  numerical_tolerance : Q
}.

Definition all_input_materials (d : factory_data) : list string :=
  flat_map (fun nr => map fst (r_in (snd nr))) (recipes d).

Definition all_output_materials (d : factory_data) : list string :=
  flat_map (fun nr => map fst (r_out (snd nr))) (recipes d).

(** [self.data.get('modules', {}).get(machine_type, {})] *)
Definition module_of (d : factory_data) (machine_type : string)
  : module_spec :=
  match modules d with
  | Some ms => sget_or ms machine_type (mk_module None None)
  | None => mk_module None None
  end.

Definition speed_of (d : factory_data) (machine_type : string) : Q :=
  match m_speed (module_of d machine_type) with Some q => q | None => 0 end.

Definition prod_of (d : factory_data) (machine_type : string) : Q :=
  match m_prod (module_of d machine_type) with Some q => q | None => 0 end.

(** One turn of the loop of [_calculate_effective_crafts]; once an
    exception is raised the remaining turns do nothing. *)
Definition crafts_step (d : factory_data)
    (acc : result (list (string * Q))) (nr : string * recipe)
  : result (list (string * Q)) :=
  effective_crafts <- acc ;;
  let machine_type := r_machine (snd nr) in
  base_speed <- sindex (machines d) machine_type ;;
  let time_seconds := r_time_s (snd nr) in
  let speed_modifier := speed_of d machine_type in
  e <- div_py (base_speed * (1 + speed_modifier) * 60) time_seconds ;;
  ret (sset effective_crafts (fst nr) e).

Definition calculate_effective_crafts (d : factory_data)
  : result (list (string * Q)) :=
  fold_left (crafts_step d) (recipes d) (ret []).

Definition get_productivity_multipliers (d : factory_data)
  : list (string * Q) :=
  fold_left (fun productivity_mult nr =>
               sset productivity_mult (fst nr)
                    (1 + prod_of d (r_machine (snd nr))))
            (recipes d) [].

Definition index_map (l : list string) : list (string * nat) :=
  fold_left (fun d '(i, name) => sset d name i)
            (combine (seq 0 (List.length l)) l) [].

Definition init (d : factory_data) : result FactorySolver :=
  let recipe_list := sorted_strings (map fst (recipes d)) in
  let machine_type_list := sorted_strings (map fst (machines d)) in
  let ins := all_input_materials d in
  let outs := all_output_materials d in
  let raw := sorted_set (filter (fun m => negb (str_in m outs)) ins) in
  let inter := sorted_set (filter (fun m => str_in m outs) ins) in
  let all := sorted_set (ins ++ outs) in
  effective_crafts <- calculate_effective_crafts d ;;
  ret (mk_solver d recipe_list machine_type_list raw inter all
                 (index_map all) (index_map recipe_list)
                 effective_crafts (get_productivity_multipliers d)
                 (1 # 1000000)).

(** *** The LP builders *)

(** [self.data['recipes'][name]]; the names come from [recipe_list], the
    keys of that dict. *)
Definition recipe_of (self : FactorySolver) (name : string) : recipe :=
  sget_or (recipes (data self)) name (mk_recipe "" 0 [] []).

(** [recipe['in'].get(m, 0)] and [recipe['out'].get(m, 0)]. *)
Definition input_amount (self : FactorySolver) (name m : string) : Q :=
  sget_or (r_in (recipe_of self name)) m 0.

Definition output_base (self : FactorySolver) (name m : string) : Q :=
  sget_or (r_out (recipe_of self name)) m 0.

(** [out * productivity_multipliers[name]] *)
Definition output_amount (self : FactorySolver) (name m : string) : Q :=
  output_base self name m * sget_or (productivity_multipliers self) name 1.

(** [1.0 / self.effective_crafts_per_min[name]] *)
Definition machines_per_craft (self : FactorySolver) (name : string)
  : result Q :=
  e <- sindex (effective_crafts_per_min self) name ;; div_py 1 e.

Definition build_objective_function (self : FactorySolver)
  : result (list Q) :=
  mapM (machines_per_craft self) (recipe_list self).

Definition materials_to_balance (self : FactorySolver) : list string :=
  sorted_set (intermediate_materials self ++ [target_item (data self)]).

Definition build_equality_constraints (self : FactorySolver)
  : matrix * list Q :=
  let target_material := target_item (data self) in
  let ms := materials_to_balance self in
  (map (fun material_name =>
          map (fun recipe_name =>
                 output_amount self recipe_name material_name
                 - input_amount self recipe_name material_name)
              (recipe_list self)) ms,
   map (fun material_name =>
          if (material_name =? target_material)%string
          then target_rate_per_min (data self) else 0) ms).

Record constraint_info : Type := mk_info {
  ci_type : string;
  ci_name : string
}.

(** One row of the inequality system: coefficients, bound and label, as
    the three loops of [_build_inequality_constraints] write them. *)
Definition constraint_row : Type := (list Q * bound * constraint_info)%type.

Definition machine_cap_rows (self : FactorySolver)
  : result (list constraint_row) :=
  mapM (fun machine_type =>
          row <- mapM (fun recipe_name =>
                         if (r_machine (recipe_of self recipe_name)
                             =? machine_type)%string
                         then machines_per_craft self recipe_name
                         else ret 0)
                      (recipe_list self) ;;
          ret (row, limit_of (max_machines (data self)) machine_type,
               mk_info "machine_cap" machine_type))
       (machine_type_list self).

(** Net consumption [<=] cap. *)
Definition raw_supply_rows (self : FactorySolver) : list constraint_row :=
  map (fun raw_material_name =>
         (map (fun recipe_name =>
                 input_amount self recipe_name raw_material_name
                 - output_amount self recipe_name raw_material_name)
              (recipe_list self),
          limit_of (raw_supply_per_min (data self)) raw_material_name,
          mk_info "raw_net_nonpos" raw_material_name))
      (raw_materials self).

(** Net production [<= 0]. *)
Definition raw_nonproduction_rows (self : FactorySolver)
  : list constraint_row :=
  map (fun raw_material_name =>
         (map (fun recipe_name =>
                 output_amount self recipe_name raw_material_name
                 - input_amount self recipe_name raw_material_name)
              (recipe_list self),
          Fin 0,
          mk_info "raw_cap" raw_material_name))
      (raw_materials self).

Definition build_inequality_constraints (self : FactorySolver)
  : result (matrix * list bound * list constraint_info) :=
  mrows <- machine_cap_rows self ;;
  let rows := mrows ++ raw_supply_rows self ++ raw_nonproduction_rows self in
  ret (map (fun r => fst (fst r)) rows, map (fun r => snd (fst r)) rows,
       map snd rows).

(** *** _format_success_output *)

(** The kernel returns one activity per recipe, so the comprehension over
    [enumerate(solution_vector)] pairs the two lists entry by entry. *)
Definition format_success_output (self : FactorySolver)
    (solution_vector : list Q) : factory_output :=
  let per_recipe_crafts := combine (recipe_list self) solution_vector in
  let counts0 : list (string * Q) :=
    fold_left (fun d mtype => sset d mtype 0) (machine_type_list self) [] in
  let per_machine_machine_counts :=
    fold_left (fun d '(recipe_idx, recipe_name) =>
                 let machine_type := r_machine (recipe_of self recipe_name) in
                 let machines_used :=
                   nth recipe_idx solution_vector 0
                   / sget_or (effective_crafts_per_min self) recipe_name 0 in
                 sset d machine_type (sget_or d machine_type 0 + machines_used))
              (combine (seq 0 (List.length (recipe_list self)))
                       (recipe_list self))
              counts0 in
  let consumption0 : list (string * Q) :=
    fold_left (fun d raw_material => sset d raw_material 0)
              (raw_materials self) [] in
  let raw_material_consumption :=
    fold_left (fun d raw_material_name =>
                 let net_consumption :=
                   fold_left (fun acc '(recipe_idx, recipe_name) =>
                                let input_val :=
                                  input_amount self recipe_name
                                               raw_material_name in
                                let output_val :=
                                  output_amount self recipe_name
                                                raw_material_name in
                                acc + (input_val - output_val)
                                      * nth recipe_idx solution_vector 0)
                             (combine (seq 0 (List.length (recipe_list self)))
                                      (recipe_list self))
                             0 in
                 sset d raw_material_name net_consumption)
              (raw_materials self) consumption0 in
  FOk per_recipe_crafts per_machine_machine_counts raw_material_consumption.

(** *** _maximize_target and _get_bottleneck_hints *)

Definition net_target_coefficient (self : FactorySolver)
    (recipe_name : string) : Q :=
  output_amount self recipe_name (target_item (data self))
  - input_amount self recipe_name (target_item (data self)).

Definition fallback_objective (self : FactorySolver) : list Q :=
  map (fun recipe_name => - net_target_coefficient self recipe_name)
      (recipe_list self).

(** The materials that get an equality row in the fallback LP. *)
Definition fallback_materials (self : FactorySolver) : list string :=
  filter (fun material =>
            negb (str_in material (raw_materials self)
                  || (material =? target_item (data self))%string))
         (all_materials self).

Definition fallback_equality_rows (self : FactorySolver) : matrix :=
  map (fun material =>
         map (fun recipe_name =>
                output_amount self recipe_name material
                - input_amount self recipe_name material)
             (recipe_list self))
      (fallback_materials self).

Definition fallback_equality_rhs (self : FactorySolver) : list Q :=
  map (fun _ => 0) (fallback_materials self).

(** [rows if rows else None] *)
Definition nonempty {A} (l : list A) : option (list A) :=
  match l with [] => None | _ => Some l end.

Definition achieved_target (self : FactorySolver) (solution_vector : list Q)
  : Q :=
  fold_left (fun acc '(recipe_idx, recipe_name) =>
               acc + net_target_coefficient self recipe_name
                     * nth recipe_idx solution_vector 0)
            (combine (seq 0 (List.length (recipe_list self)))
                     (recipe_list self))
            0.

(** The outcome of [_maximize_target]: [None] is [{"success": False}]. *)
Definition maximization_info : Type := option (Q * lp_result).

Definition hint_of (info : constraint_info) : string :=
  if (ci_type info =? "machine_cap")%string then
    (ci_name info ++ " cap")%string
  else if (ci_type info =? "raw_cap")%string then
    (ci_name info ++ " supply")%string
  else if (ci_type info =? "raw_net_nonpos")%string then
    (ci_name info ++ " production restriction")%string
  else ci_name info.

(** Removal of duplicates that keeps the first occurrence. *)
Definition unique_in_order (hints : list string) : list string :=
  rev (fold_left (fun seen hint =>
                    if str_in hint seen then seen else hint :: seen)
                 hints []).

Definition get_bottleneck_hints (self : FactorySolver)
    (optimization_result : lp_result) (infos : list constraint_info)
    (inequality_matrix : matrix) (inequality_bounds : list bound)
  : list string :=
  match lp_x optimization_result with
  | None => []
  | Some solution_vector =>
      let slack_values :=
        match lp_slack optimization_result with
        | Some sl => sl
        | None =>
            map (fun '(constraint_row, constraint_bound) =>
                   bound_sub constraint_bound (dot constraint_row solution_vector))
                (combine inequality_matrix inequality_bounds)
        end in
      let hints :=
        flat_map (fun '(slack_val, info) =>
                    if bound_leb slack_val
                         (Qmax (numerical_tolerance self) (1 # 1000000))
                    then [hint_of info] else [])
                 (combine slack_values infos) in
      unique_in_order hints
  end.

Section Kernel.

Variable linprog : lp_kernel.

Definition call_linprog (c : list Q) (A_ub : matrix) (b_ub : list bound)
    (A_eq : option matrix) (b_eq : option (list Q)) : result lp_result :=
  match linprog c A_ub b_ub A_eq b_eq with
  | inl msg => raise (KernelError msg)
  | inr r => ret r
  end.

Definition maximize_target (self : FactorySolver) (inequality_matrix : matrix)
    (inequality_bounds : list bound) : result maximization_info :=
  let target_material := target_item (data self) in
  if (target_material =? EmptyString)%string then ret None
  else
    optimization_result <-
      call_linprog (fallback_objective self)
                   inequality_matrix inequality_bounds
                   (nonempty (fallback_equality_rows self))
                   (nonempty (fallback_equality_rhs self)) ;;
    if negb (lp_success optimization_result) then ret None
    else
      match lp_x optimization_result with
      | None =>
          (* [solution_vector[recipe_idx]] is reached only in the loop *)
          match recipe_list self with
          | [] => ret (Some (0, optimization_result))
          | _ => raise (TypeError "'NoneType' object is not subscriptable")
          end
      | Some solution_vector =>
          ret (Some (achieved_target self solution_vector,
                     optimization_result))
      end.

Definition solve (self : FactorySolver) : result factory_output :=
  objective_coefficients <- build_objective_function self ;;
  '(inequality_matrix, inequality_bounds, infos) <-
    build_inequality_constraints self ;;
  let '(equality_matrix, equality_bounds) :=
    build_equality_constraints self in
  optimization_result <-
    call_linprog objective_coefficients inequality_matrix inequality_bounds
                 (Some equality_matrix) (Some equality_bounds) ;;
  if lp_success optimization_result then
    match lp_x optimization_result with
    | None => raise (TypeError "'NoneType' object is not iterable")
    | Some solution_vector => ret (format_success_output self solution_vector)
    end
  else
    maximization <- maximize_target self inequality_matrix inequality_bounds ;;
    match maximization with
    | None => ret (FInfeasible 0 [])
    | Some (max_target, fallback_result) =>
        ret (FInfeasible max_target
               (get_bottleneck_hints self fallback_result infos
                                     inequality_matrix inequality_bounds))
    end.

(** [main]: any exception becomes an error response. *)
Definition main (d : factory_data) : factory_output :=
  match (self <- init d ;; solve self) with
  | inl e => FError (exn_message e)
  | inr out => out
  end.

End Kernel.

(** *** What the LP kernel's answers are required to satisfy *)

Definition rows_hold (A : matrix) (b : list bound) (xs : list Q) : bool :=
  forallb (fun rb => le_boundb (dot (fst rb) xs) (snd rb)) (combine A b).

Definition rows_equal (A : option matrix) (b : option (list Q))
    (xs : list Q) : bool :=
  match A, b with
  | Some A', Some b' =>
      forallb (fun rb => Qeq_bool (dot (fst rb) xs) (snd rb)) (combine A' b')
  | _, _ => true
  end.

(** [xs] has [n] non-negative entries and satisfies every row. *)
Definition lp_feasible (n : nat) (A_ub : matrix) (b_ub : list bound)
    (A_eq : option matrix) (b_eq : option (list Q)) (xs : list Q) : bool :=
  Nat.eqb (List.length xs) n && forallb (Qle_bool 0) xs
  && rows_hold A_ub b_ub xs && rows_equal A_eq b_eq xs.

(** [xs] is feasible and no feasible vector has a smaller objective. *)
Definition lp_optimum (c : list Q) (A_ub : matrix) (b_ub : list bound)
    (A_eq : option matrix) (b_eq : option (list Q)) (xs : list Q) : Prop :=
  lp_feasible (List.length c) A_ub b_ub A_eq b_eq xs = true
  /\ forall ys, lp_feasible (List.length c) A_ub b_ub A_eq b_eq ys = true ->
                dot c xs <= dot c ys.

(** An LP kernel is sound when the vector of a successful answer is
    feasible for the problem it was given. *)
Definition lp_kernel_sound (k : lp_kernel) : Prop :=
  forall c A_ub b_ub A_eq b_eq r xs,
    k c A_ub b_ub A_eq b_eq = inr r ->
    lp_success r = true -> lp_x r = Some xs ->
    lp_feasible (List.length c) A_ub b_ub A_eq b_eq xs = true.

(** Any kernel, with its successful answers checked before they are used. *)
Definition checked_lp (k : lp_kernel) : lp_kernel :=
  fun c A_ub b_ub A_eq b_eq =>
    match k c A_ub b_ub A_eq b_eq with
    | inl msg => inl msg
    | inr r =>
        match lp_success r, lp_x r with
        | true, Some xs =>
            if lp_feasible (List.length c) A_ub b_ub A_eq b_eq xs
            then inr r else inl "answer rejected"
        | _, _ => inr r
        end
    end.

(** *** The quantities the statements speak of *)

(** [sum over recipes r of coef(r) * x_r], [x] indexed as [recipe_list]. *)
Definition weighted (self : FactorySolver) (coef : string -> Q)
    (xs : list Q) : Q :=
  Qsum (map (fun ir => coef (snd ir) * nth (fst ir) xs 0)
            (combine (seq 0 (List.length (recipe_list self)))
                     (recipe_list self))).

(** [net_out(r, m) = out(r, m) * prod_mult(r) - in(r, m)] *)
Definition net_out (self : FactorySolver) (r m : string) : Q :=
  output_amount self r m - input_amount self r m.

Definition net_production (self : FactorySolver) (m : string)
    (xs : list Q) : Q :=
  weighted self (fun r => net_out self r m) xs.

(** [sum over recipes of (in(r, m) - out(r, m) * prod_mult(r)) * x_r] *)
Definition net_consumption (self : FactorySolver) (m : string)
    (xs : list Q) : Q :=
  weighted self (fun r => input_amount self r m - output_amount self r m) xs.

Definition effective_crafts (self : FactorySolver) (r : string) : Q :=
  sget_or (effective_crafts_per_min self) r 0.

(** [sum over the recipes on machine M of x_r / effective_crafts(r)] *)
Definition machines_used (self : FactorySolver) (M : string)
    (xs : list Q) : Q :=
  weighted self (fun r => if (r_machine (recipe_of self r) =? M)%string
                          then 1 / effective_crafts self r else 0) xs.

Definition activities (self : FactorySolver) (xs : list Q) : Prop :=
  List.length xs = List.length (recipe_list self)
  /\ forall x, In x xs -> 0 <= x.

(** Machine caps, raw supply caps and raw non-production. *)
Definition caps_hold (self : FactorySolver) (xs : list Q) : Prop :=
  (forall M, In M (machine_type_list self) ->
             le_bound (machines_used self M xs)
                      (limit_of (max_machines (data self)) M))
  /\ (forall m, In m (raw_materials self) ->
                le_bound (net_consumption self m xs)
                         (limit_of (raw_supply_per_min (data self)) m)
                /\ net_production self m xs <= 0).

Definition balanced (self : FactorySolver) (ms : list string)
    (xs : list Q) : Prop :=
  forall m, In m ms -> net_production self m xs == 0.

(** The feasible set of the fallback LP as the code builds it: every
    material that is neither raw nor the target is balanced. *)
Definition fallback_feasible (self : FactorySolver) (xs : list Q) : Prop :=
  activities self xs /\ caps_hold self xs
  /\ balanced self (fallback_materials self) xs.

(** The feasible set of the fallback LP in the specification's words: the
    primary constraints without the target balance, that is, with the
    intermediates still balanced. *)
Definition spec_fallback_feasible (self : FactorySolver) (xs : list Q)
  : Prop :=
  activities self xs /\ caps_hold self xs
  /\ balanced self
       (filter (fun m => negb (m =? target_item (data self))%string)
               (intermediate_materials self)) xs.

(** *** Auxiliary notions of the statements and proofs *)

Definition raised_at_init (e : exn) : Prop :=
  e = ZeroDivisionError \/ exists k, e = KeyError k.

Definition machine_coefficient (self : FactorySolver) (M r : string) : Q :=
  if (r_machine (recipe_of self r) =? M)%string
  then 1 / effective_crafts self r else 0.

Definition machine_row (self : FactorySolver) (M : string) : constraint_row :=
  (map (machine_coefficient self M) (recipe_list self),
   limit_of (max_machines (data self)) M, mk_info "machine_cap" M).

Definition inequality_rows (self : FactorySolver) : list constraint_row :=
  map (machine_row self) (machine_type_list self)
  ++ raw_supply_rows self ++ raw_nonproduction_rows self.

End Factory.

(* ------------------------------------------------------------------ *)
(** ** Sample factory problems and kernel answers *)

Module FactorySamples.
Import Factory.

Definition iron_gear : recipe :=
  mk_recipe "assembler" (1 # 2) [("iron_plate", 2)] [("iron_gear", 1)].

(** Scenario 4 of the specification. *)
Definition gears : factory_data :=
  mk_factory_data [("assembler", 60)] [("iron_gear", iron_gear)] None
                  [("iron_plate", 200)] [("assembler", 10)] "iron_gear" 10.

(** The same plant with no assembler allowed: nothing can run. *)
Definition idle : factory_data :=
  mk_factory_data [("assembler", 60)] [("iron_gear", iron_gear)] None
                  [("iron_plate", 200)] [("assembler", 0)] "iron_gear" 10.

(** A smelter whose recipe also yields slag, a by-product. *)
Definition smelt : recipe :=
  mk_recipe "furnace" 1 [("ore", 1)] [("gear", 1); ("slag", 1)].
Definition slag_plant : factory_data :=
  mk_factory_data [("furnace", 60)] [("smelt", smelt)] None
                  [("ore", 100)] [("furnace", 1)] "gear" 1000.

(** A recipe that takes no time. *)
Definition instant : factory_data :=
  mk_factory_data [("assembler", 60)]
    [("iron_gear", mk_recipe "assembler" 0 [("iron_plate", 2)]
                             [("iron_gear", 1)])]
    None [("iron_plate", 200)] [("assembler", 10)] "iron_gear" 10.

(** Scenario 5 of the specification: one assembler, a target of 5000. *)
Definition capped : factory_data :=
  mk_factory_data [("assembler", 60)] [("iron_gear", iron_gear)] None
                  [("iron_plate", 200)] [("assembler", 1)] "iron_gear" 5000.

Definition lp_failure : lp_result := mk_lp_result false None None.

(** The kernel's answers at the sample problems. *)
Definition gears_answer : lp_result :=
  mk_lp_result true (Some [10]) (Some [Fin (9 + (7190 # 7200)); Fin 180; Fin 20]).
Definition idle_answer : lp_result :=
  mk_lp_result true (Some [0]) (Some [Fin 0; Fin 200; Fin 0]).
Definition idle_answer_no_slack : lp_result :=
  mk_lp_result true (Some [0]) None.
Definition capped_answer : lp_result :=
  mk_lp_result true (Some [100]) None.
Definition slag_answer : lp_result :=
  mk_lp_result true (Some [0]) None.

(** A kernel that answers [primary] to a call with equality rows and
    [fallback] to a call without. *)
Definition two_answers (primary fallback : lp_result) : lp_kernel :=
  fun _ _ _ A_eq _ =>
    match A_eq with Some _ => inr primary | None => inr fallback end.

(** A kernel that answers [primary] to a call whose first objective
    coefficient is positive and [fallback] otherwise. *)
Definition by_objective (primary fallback : lp_result) : lp_kernel :=
  fun c _ _ _ _ =>
    match c with
    | q :: _ => if Qlt_bool 0 q then inr primary else inr fallback
    | [] => inr fallback
    end.

Definition const_lp (r : lp_result) : lp_kernel := fun _ _ _ _ _ => inr r.

End FactorySamples.

(* ------------------------------------------------------------------ *)
(** ** Sample belts problems and kernel answers *)

Module BeltsSamples.
Import Belts.

Definition no_flow_kernel : DiGraph -> string -> string
                            -> string + (Q * flow_dict) :=
  fun _ _ _ => inl "not called".

Definition no_cut_kernel : DiGraph -> string -> string
                           -> string + (Q * (list string * list string)) :=
  fun _ _ _ => inl "not called".

Definition const_flow (v : Q) (fd : flow_dict)
  : DiGraph -> string -> string -> string + (Q * flow_dict) :=
  fun _ _ _ => inr (v, fd).

Definition const_cut (cv : Q) (side_s side_t : list string)
  : DiGraph -> string -> string
    -> string + (Q * (list string * list string)) :=
  fun _ _ _ => inr (cv, (side_s, side_t)).

(** An arc whose bounds are plainly inverted. *)
Definition inverted_arc : edge := mk_edge "a" "sink" (Some 5) 1.
Definition inverted : belts_data :=
  mk_belts_data ["a"; "sink"] [inverted_arc] [] [mk_source "a" 5] "sink".

(** An arc with [hi] below [lo] by half the tolerance. *)
Definition near_arc : edge :=
  mk_edge "a" "sink" (Some 1) (1 - (1 # 2000000000)).
Definition near_inverted : belts_data :=
  mk_belts_data ["a"; "sink"] [near_arc] [] [mk_source "a" 1] "sink".

(** Scenario 2 of the specification: a bottleneck on the only path. *)
Definition bottleneck : belts_data :=
  mk_belts_data ["src"; "a"; "sink"]
    [mk_edge "src" "a" None 100; mk_edge "a" "sink" None 20] []
    [mk_source "src" 50] "sink".
Definition bottleneck_flow : flow_dict :=
  [("__SUPER_SRC__", [("src", 20)]); ("src", [("a", 20)]);
   ("a", [("sink", 20)]); ("sink", [("__SUPER_SNK__", 20)])].
Definition bottleneck_side_s : list string := ["__SUPER_SRC__"; "src"; "a"].
Definition bottleneck_side_t : list string := ["sink"; "__SUPER_SNK__"].

(** Scenario 3 of the specification, with a capped junction. *)
Definition forced : belts_data :=
  mk_belts_data ["s"; "a"; "sink"]
    [mk_edge "s" "a" (Some 10) 10; mk_edge "a" "sink" (Some 0) 100]
    [mk_node_cap "a" 50] [mk_source "s" 10] "sink".
Definition forced_flow : flow_dict :=
  [("__SUPER_SRC__", [("a__in", 10)]); ("a__in", [("a__out", 10)]);
   ("a__out", [("sink", 10)]); ("sink", [("__SUPER_SNK__", 10)]);
   ("s", [("a__in", 0)])].

(** Two parallel arcs, one of them with a lower bound. *)
Definition parallel : belts_data :=
  mk_belts_data ["s"; "sink"]
    [mk_edge "s" "sink" (Some 1) 4; mk_edge "s" "sink" None 6] []
    [mk_source "s" 5] "sink".
Definition parallel_flow : flow_dict :=
  [("__SUPER_SRC__", [("s", 4)]); ("s", [("sink", 4)]);
   ("sink", [("__SUPER_SNK__", 4)])].

(** Three sources, each supplying half the tolerance, and no arc. *)
Definition trickle : belts_data :=
  mk_belts_data ["a"; "b"; "c"; "sink"] [] []
    [mk_source "a" (1 # 2000000000); mk_source "b" (1 # 2000000000);
     mk_source "c" (1 # 2000000000)] "sink".

(** A node [d] that must emit 5 units and receives none; the source's own
    supply reaches the sink. *)
Definition starved : belts_data :=
  mk_belts_data ["s"; "d"; "sink"]
    [mk_edge "s" "sink" None 100; mk_edge "d" "sink" (Some 5) 5] []
    [mk_source "s" 10] "sink".
Definition starved_flow : flow_dict :=
  [("__SUPER_SRC__", [("s", 5)]); ("s", [("sink", 5)]);
   ("sink", [("__SUPER_SNK__", 5)]); ("d", [("__SUPER_SNK__", 0)])].
Definition starved_side_s : list string := ["__SUPER_SRC__"; "s"; "sink"].
Definition starved_side_t : list string := ["d"; "__SUPER_SNK__"].

(** A source [v] with no path to the sink whose supply is absorbed by the
    lower bound of [d -> e]. *)
Definition absorbed : belts_data :=
  mk_belts_data ["v"; "d"; "e"; "x"; "sink"]
    [mk_edge "v" "d" None 100; mk_edge "d" "e" (Some 20) 20] []
    [mk_source "v" 10; mk_source "x" 5] "sink".
Definition absorbed_flow : flow_dict :=
  [("__SUPER_SRC__", [("v", 10); ("e", 0); ("x", 0)]); ("v", [("d", 10)]);
   ("d", [("e", 0); ("__SUPER_SNK__", 10)]); ("sink", [("__SUPER_SNK__", 0)])].
Definition absorbed_side_s : list string := ["__SUPER_SRC__"; "e"; "x"].
Definition absorbed_side_t : list string :=
  ["v"; "d"; "sink"; "__SUPER_SNK__"].

(** A declared node that bears the reserved name of the super-source. *)
Definition shadowed : belts_data :=
  mk_belts_data ["__SUPER_SRC__"; "a"; "sink"]
    [mk_edge "__SUPER_SRC__" "a" None 1; mk_edge "a" "sink" None 10] []
    [mk_source "a" 5] "sink".
Definition shadowed_flow : flow_dict :=
  [("__SUPER_SRC__", [("a", 5)]); ("a", [("sink", 5)]);
   ("sink", [("__SUPER_SNK__", 5)])].

(** The same, with a supply declared for a name that is not a node. *)
Definition ghost_supply : belts_data :=
  mk_belts_data ["__SUPER_SRC__"; "sink"]
    [mk_edge "__SUPER_SRC__" "sink" None 10] []
    [mk_source "ghost" 5] "sink".
Definition ghost_flow : flow_dict :=
  [("__SUPER_SRC__", [("sink", 5)]); ("sink", [("__SUPER_SNK__", 5)])].

(** An arc from an undeclared node, ahead of an inverted arc. *)
Definition undeclared : belts_data :=
  mk_belts_data ["a"; "sink"]
    [mk_edge "x" "sink" None 1; inverted_arc] [] [mk_source "a" 5] "sink".

End BeltsSamples.

(* ------------------------------------------------------------------ *)
(** ** Further notions and sample problems *)

Module MoreNotions.
Import Belts Factory BeltsSamples FactorySamples.

(** A name in which every underscore is followed by another character
    that is not an underscore: it neither contains "__" nor ends in "_". *)
Fixpoint plain_name (s : string) : bool :=
  match s with
  | EmptyString => true
  | String c rest =>
      if Ascii.eqb c "_"
      then match rest with
           | EmptyString => false
           | String c' _ => negb (Ascii.eqb c' "_") && plain_name rest
           end
      else plain_name rest
  end.

(** All the items of all the groups, in group order. *)
Definition all_items (mp : mapped_pairs) : list item := flat_map snd mp.


(** The order of the key of [final_flows.sort]. *)
Definition flow_key_order (a b : flow_entry) : Prop :=
  flow_key_le a b = true.

Definition string_order (a b : string) : Prop := String.leb a b = true.

(** An edge that stops the first loop of [solve]: inverted bounds or an
    endpoint that is no declared node. *)
Definition stops_validation (nodes : list string) (e : edge) : bool :=
  hi_below_lo e || negb (str_in (e_from e) nodes)
  || negb (str_in (e_to e) nodes).

(** A capacity entry for a name that is no declared node. *)
Definition undeclared_cap (nodes : list string) (nc : node_cap) : bool :=
  negb (str_in (nc_name nc) nodes).

(** The test of the loop that fills [tight_node_capacities]. *)
Definition tight_node (self : BeltsSolver) (G : DiGraph) (fd : flow_dict)
    (reach : list string) (n : string) : bool :=
  str_in n reach && is_split self n
  && Qle_bool (arc_capacity G (n ++ "__in") (n ++ "__out")
               - flow_on fd (n ++ "__in") (n ++ "__out"))
              Belts.NUMERICAL_TOLERANCE.

(** The test of the loop that fills [tight_edge_list], on the group of
    the arc [e]. *)
Definition crossing_saturated (self : BeltsSolver) (G : DiGraph)
    (fd : flow_dict) (source_reachable : list string) (e : edge) : bool :=
  let ms := external_name self (e_from e) in
  let mt := internal_name self (e_to e) in
  str_in ms source_reachable && negb (str_in mt source_reachable)
  && Qle_bool (arc_capacity G ms mt - flow_on fd ms mt)
              Belts.NUMERICAL_TOLERANCE.

(** A junction whose capacity is below the supply. *)
Definition capped_junction : belts_data :=
  mk_belts_data ["s"; "a"; "sink"]
    [mk_edge "s" "a" None 100; mk_edge "a" "sink" None 100]
    [mk_node_cap "a" 5] [mk_source "s" 10] "sink".
Definition capped_junction_flow : flow_dict :=
  [("__SUPER_SRC__", [("s", 5)]); ("s", [("a__in", 5)]);
   ("a__in", [("a__out", 5)]); ("a__out", [("sink", 5)]);
   ("sink", [("__SUPER_SNK__", 5)])].
Definition capped_junction_side_s : list string :=
  ["__SUPER_SRC__"; "s"; "a__in"].
Definition capped_junction_side_t : list string :=
  ["a__out"; "sink"; "__SUPER_SNK__"].

(** A capacity declared for a name that is no node. *)
Definition ghost_cap : belts_data :=
  mk_belts_data ["s"; "sink"] [mk_edge "s" "sink" None 10]
    [mk_node_cap "ghost" 5] [mk_source "s" 5] "sink".

(** One write [original_edge_flows[idx] = share]. *)
Definition write_slot (fl : list Q) (w : nat * Q) : list Q :=
  list_set fl (fst w) (snd w).



(** The hints that name a row of the inequality system. *)
Definition declared_hint (self : FactorySolver) (h : string) : Prop :=
  (exists M, In M (machine_type_list self) /\ h = (M ++ " cap")%string)
  \/ (exists m, In m (raw_materials self)
                /\ (h = (m ++ " supply")%string
                    \/ h = (m ++ " production restriction")%string)).

(** Every recipe names a declared machine and takes time. *)
Definition recipes_runnable (d : factory_data) : Prop :=
  forall nr, In nr (recipes d) ->
    smem (machines d) (r_machine (snd nr)) = true
    /\ ~ r_time_s (snd nr) == 0.

(** [base_speed * (1 + speed_modifier) * 60.0 / time_seconds] *)
Definition crafts_per_min_of (d : factory_data) (r : recipe) : Q :=
  sget_or (machines d) (r_machine r) 0
  * (1 + speed_of d (r_machine r)) * 60 / r_time_s r.

(** The table [_calculate_effective_crafts] returns when no turn of its
    loop raises. *)
Definition crafts_table (d : factory_data) (l : list (string * recipe))
    (acc : list (string * Q)) : list (string * Q) :=
  fold_left (fun a nr => sset a (fst nr) (crafts_per_min_of d (snd nr))) l acc.

(** The feasible set of the primary LP: non-negative rates within the
    caps under which every balanced material meets its right-hand side. *)
Definition primary_feasible (self : FactorySolver) (xs : list Q) : Prop :=
  activities self xs /\ caps_hold self xs
  /\ forall m, In m (materials_to_balance self) ->
       net_production self m xs
       == if (m =? target_item (data self))%string
          then target_rate_per_min (data self) else 0.

(** [sum over recipes of x_r / effective_crafts(r)]: the machines a plan
    keeps busy. *)
Definition total_machines (self : FactorySolver) (xs : list Q) : Q :=
  weighted self (fun r => 1 / effective_crafts self r) xs.

(** The gear plant asked for a material that no recipe mentions. *)
Definition no_copper : factory_data :=
  mk_factory_data [("assembler", 60)] [("iron_gear", iron_gear)] None
                  [("iron_plate", 200)] [("assembler", 10)] "copper" 1.

(** The gear plant with an assembler that never crafts. *)
Definition stalled : factory_data :=
  mk_factory_data [("assembler", 0)] [("iron_gear", iron_gear)] None
                  [("iron_plate", 200)] [("assembler", 10)] "iron_gear" 10.

(** A kernel that raises. *)
Definition failing_lp (msg : string) : lp_kernel :=
  fun _ _ _ _ _ => inl msg.

End MoreNotions.

(* ================================================================== *)
(** * Generic facts *)

Lemma Qlt_bool_iff (a b : Q) : Qlt_bool a b = true <-> a < b.
Proof.
  unfold Qlt_bool. rewrite negb_true_iff.
  split; intro H.
  - apply Qnot_le_lt. intro Hle. apply Qle_bool_iff in Hle. congruence.
  - destruct (Qle_bool b a) eqn:E; [|reflexivity].
    apply Qle_bool_iff in E. lra.
Qed.

Lemma Qlt_bool_false_iff (a b : Q) : Qlt_bool a b = false <-> b <= a.
Proof.
  unfold Qlt_bool. rewrite negb_false_iff. apply Qle_bool_iff.
Qed.

#[export] Instance Qlt_bool_comp : Proper (Qeq ==> Qeq ==> eq) Qlt_bool.
Proof. intros a b H c d H'. unfold Qlt_bool. now rewrite H, H'. Qed.

Lemma Qmax_ge_l (a b : Q) : a <= Qmax a b.
Proof.
  unfold Qmax. destruct (Qle_bool a b) eqn:E.
  - now apply Qle_bool_iff. 
  - lra.
Qed.

Lemma Qmax_pos (c : Q) : 0 <= c -> Qmax 0 c == c.
Proof.
  intro H. unfold Qmax. apply Qle_bool_iff in H. now rewrite H.
Qed.

Lemma fold_Qplus_acc (l : list Q) (a : Q) :
  fold_left Qplus l a == a + fold_left Qplus l 0.
Proof.
  revert a. induction l as [|x l IH]; intro a; simpl.
  - lra.
  - rewrite IH. rewrite (IH (0 + x)). lra.
Qed.

Lemma Qsum_nil : Qsum [] == 0.
Proof. reflexivity. Qed.

Lemma Qsum_cons (x : Q) (l : list Q) : Qsum (x :: l) == x + Qsum l.
Proof.
  unfold Qsum. simpl. rewrite fold_Qplus_acc. lra.
Qed.

Lemma Qsum_nonneg (l : list Q) : (forall x, In x l -> 0 <= x) -> 0 <= Qsum l.
Proof.
  induction l as [|x l IH]; intro H.
  - rewrite Qsum_nil. lra.
  - rewrite Qsum_cons.
    assert (0 <= x) by (apply H; now left).
    assert (0 <= Qsum l) by (apply IH; intros; apply H; now right).
    lra.
Qed.

Lemma Qsum_map_le {A} (f g : A -> Q) (l : list A) :
  (forall a, In a l -> f a <= g a) -> Qsum (map f l) <= Qsum (map g l).
Proof.
  induction l as [|a l IH]; intro H; simpl.
  - lra.
  - rewrite !Qsum_cons.
    assert (f a <= g a) by (apply H; now left).
    assert (Qsum (map f l) <= Qsum (map g l))
      by (apply IH; intros; apply H; now right).
    lra.
Qed.

Section DictFacts.
Context {K V : Type} (eqb : K -> K -> bool).
Hypothesis eqb_spec : forall a b, reflect (a = b) (eqb a b).

Lemma dict_get_set (d : list (K * V)) (k k' : K) (v : V) :
    dict_get eqb (dict_set eqb d k v) k'
    = if eqb k' k then Some v else dict_get eqb d k'.
  Proof.
    induction d as [|[k0 v0] d IH]; simpl.
    - reflexivity.
    - destruct (eqb_spec k k0) as [->|Hk]; simpl.
      + destruct (eqb_spec k' k0); reflexivity.
      + rewrite IH.
        destruct (eqb_spec k' k0) as [->|Hk'].
        * destruct (eqb_spec k0 k); [congruence|reflexivity].
        * reflexivity.
  Qed.

Lemma dict_get_In (d : list (K * V)) (k : K) (v : V) :
    dict_get eqb d k = Some v -> In (k, v) d.
  Proof.
    induction d as [|[k0 v0] d IH]; simpl; [discriminate|].
    destruct (eqb_spec k k0) as [->|Hk]; intro H.
    - inversion H. now left.
    - right. auto.
  Qed.


Lemma dict_set_In (d : list (K * V)) (k : K) (v : V) (k' : K) (v' : V) :
    In (k', v') (dict_set eqb d k v) ->
    (k' = k /\ v' = v) \/ In (k', v') d.
  Proof.
    induction d as [|[k0 v0] d IH]; simpl.
    - intros [H|[]]. inversion H. auto.
    - destruct (eqb_spec k k0) as [->|Hk]; simpl.
      + intros [H|H]; [inversion H; auto | auto].
      + intros [H|H]; [auto|]. apply IH in H. intuition.
  Qed.
End DictFacts.

Lemma pair_eqb_spec (a b : string * string) : reflect (a = b) (pair_eqb a b).
Proof.
  destruct a as [a1 a2], b as [b1 b2]. unfold pair_eqb; simpl.
  destruct (String.eqb_spec a1 b1) as [->|H1];
    destruct (String.eqb_spec a2 b2) as [->|H2]; simpl;
    constructor; congruence.
Qed.

Lemma str_in_iff (s : string) (l : list string) :
  str_in s l = true <-> In s l.
Proof.
  unfold str_in. rewrite existsb_exists. split.
  - intros [x [Hx E]]. apply String.eqb_eq in E. now subst.
  - intro H. exists s. split; [assumption | apply String.eqb_refl].
Qed.

Lemma str_in_false_iff (s : string) (l : list string) :
  str_in s l = false <-> ~ In s l.
Proof.
  rewrite <- str_in_iff. destruct (str_in s l); intuition congruence.
Qed.

Section SortFacts.
Context {A : Type} (le : A -> A -> bool).

Lemma insert_sorted_perm (x : A) (l : list A) :
    Permutation (insert_sorted le x l) (x :: l).
  Proof.
    induction l as [|y l IH]; simpl.
    - apply Permutation_refl.
    - destruct (le x y).
      + apply Permutation_refl.
      + eapply Permutation_trans; [apply perm_skip, IH | apply perm_swap].
  Qed.

Lemma sorted_perm (l : list A) : Permutation (sorted le l) l.
  Proof.
    induction l as [|x l IH]; simpl.
    - apply Permutation_refl.
    - eapply Permutation_trans; [apply insert_sorted_perm|].
      now apply perm_skip.
  Qed.

Lemma sorted_In (x : A) (l : list A) : In x (sorted le l) <-> In x l.
  Proof.
    split; apply Permutation_in;
      [apply sorted_perm | apply Permutation_sym, sorted_perm].
  Qed.
End SortFacts.

Lemma sorted_set_In (x : string) (l : list string) :
  In x (sorted_set l) <-> In x l.
Proof.
  unfold sorted_set, sorted_strings. rewrite sorted_In. apply nodup_In.
Qed.

(* ================================================================== *)
(** * Properties of the belts core *)

Module BeltsProps.
Import Belts.

(** ** The node maps *)

Lemma node_maps_fold (self : BeltsSolver) (ns : list string)
    (i0 e0 : list (string * string)) (n : string) :
  let r := fold_left (fun '(imap, emap) node =>
                        (sset imap node (internal_name self node),
                         sset emap node (external_name self node)))
                     ns (i0, e0) in
  sget (fst r) n = (if str_in n ns then Some (internal_name self n)
                    else sget i0 n)
  /\ sget (snd r) n = (if str_in n ns then Some (external_name self n)
                       else sget e0 n).
Proof.
  revert i0 e0. induction ns as [|x ns IH]; intros i0 e0; simpl.
  - split; reflexivity.
  - destruct (IH (sset i0 x (internal_name self x))
                 (sset e0 x (external_name self x))) as [Hi He].
    simpl in Hi, He. rewrite Hi, He. unfold sget, sset.
    rewrite !(dict_get_set _ String.eqb_spec).
    destruct (String.eqb_spec n x) as [->|Hn]; simpl;
      destruct (str_in _ ns); split; reflexivity.
Qed.

Lemma internal_lookup (self : BeltsSolver) (n : string) :
  sget (fst (get_internal_node_maps self)) n
  = if str_in n (network_nodes self) then Some (internal_name self n)
    else None.
Proof. apply (node_maps_fold self (network_nodes self) [] [] n). Qed.

Lemma external_lookup (self : BeltsSolver) (n : string) :
  sget (snd (get_internal_node_maps self)) n
  = if str_in n (network_nodes self) then Some (external_name self n)
    else None.
Proof. apply (node_maps_fold self (network_nodes self) [] [] n). Qed.

(** ** Validation of the bounds *)

Lemma normalise_fields (e : edge) :
  e_from (normalise e) = e_from e /\ e_to (normalise e) = e_to e
  /\ lo_of (normalise e) = lo_of e /\ e_hi (normalise e) = e_hi e.
Proof. unfold normalise, lo_of. destruct e as [f t [q|] h]; simpl; auto. Qed.

Lemma init_edges (data : belts_data) :
  network_edges (init data) = map normalise (edges data).
Proof. reflexivity. Qed.

Lemma hi_below_lo_normalise (e : edge) :
  hi_below_lo (normalise e) = hi_below_lo e.
Proof.
  unfold hi_below_lo. destruct (normalise_fields e) as (_ & _ & -> & ->).
  reflexivity.
Qed.

Lemma collect_edges_error (imap emap : list (string * string))
    (es : list edge) (idx : nat) (acc : mapped_pairs) (bad : edge) :
  find hi_below_lo es = Some bad ->
  (forall e, In e es -> sget emap (e_from e) <> None
                        /\ sget imap (e_to e) <> None) ->
  collect_edges imap emap idx es acc
  = inl (ret (BError (hi_lt_lo_message (e_from bad) (e_to bad)))).
Proof.
  revert idx acc. induction es as [|e es IH]; intros idx acc Hfind Hknown.
  - discriminate.
  - simpl in Hfind. simpl.
    unfold hi_below_lo in Hfind at 1.
    destruct (Qlt_bool (e_hi e + NUMERICAL_TOLERANCE) (lo_of e)).
    + inversion Hfind. reflexivity.
    + destruct (Hknown e (or_introl eq_refl)) as [Hf Ht].
      destruct (sget emap (e_from e)); [|congruence].
      destruct (sget imap (e_to e)); [|congruence].
      apply IH; [assumption|]. intros e' He'. apply Hknown. now right.
Qed.

Lemma find_map_normalise (es : list edge) (bad : edge) :
  find hi_below_lo es = Some bad ->
  find hi_below_lo (map normalise es) = Some (normalise bad).
Proof.
  induction es as [|e es IH]; simpl; [discriminate|].
  rewrite hi_below_lo_normalise.
  destruct (hi_below_lo e); intro H.
  - now inversion H.
  - auto.
Qed.

(** C7, as the code has it: when some arc has [hi + 1e-9 < lo] and the
    endpoints of the arcs are declared nodes, [solve] returns the error
    response whose message is ["edge u->v has hi < lo"] for the first such
    arc [u -> v], whatever the flow kernel would answer: no flow is computed
    or reported. *)
Theorem C7_hi_below_lo_is_error
    (maximum_flow : DiGraph -> string -> string -> string + (Q * flow_dict))
    (minimum_cut : DiGraph -> string -> string
                   -> string + (Q * (list string * list string)))
    (data : belts_data) (bad : edge) :
  find hi_below_lo (edges data) = Some bad ->
  endpoints_known data ->
  solve maximum_flow minimum_cut (init data)
  = ret (BError ("edge " ++ e_from bad ++ "->" ++ e_to bad
                         ++ " has hi < lo")%string).
Proof.
  intros Hfind Hknown. unfold solve.
  pose proof (internal_lookup (init data)) as Hi.
  pose proof (external_lookup (init data)) as He.
  destruct (get_internal_node_maps (init data)) as [imap emap].
  simpl in Hi, He.
  rewrite init_edges.
  rewrite (collect_edges_error imap emap _ 0 [] (normalise bad)).
  - destruct (normalise_fields bad) as (-> & -> & _). reflexivity.
  - now apply find_map_normalise.
  - intros e He'. apply in_map_iff in He'. destruct He' as [e0 [<- He0]].
    destruct (normalise_fields e0) as (-> & -> & _).
    destruct (Hknown e0 He0) as [Hf Ht].
    rewrite He, Hi.
    apply str_in_iff in Hf, Ht. rewrite Hf, Ht. split; discriminate.
Qed.

(** ** What [solve] ran through when it answers [ok] or [infeasible] *)

Lemma collect_edges_early (imap emap : list (string * string))
    (es : list edge) (idx : nat) (acc : mapped_pairs)
    (r : result belts_output) :
  collect_edges imap emap idx es acc = inl r ->
  (exists k, r = raise (KeyError k)) \/ (exists m, r = ret (BError m)).
Proof.
  revert idx acc. induction es as [|e es IH]; intros idx acc; simpl.
  - discriminate.
  - destruct (Qlt_bool _ _).
    + intro H. inversion H. right. eauto.
    + destruct (sget emap (e_from e)).
      * destruct (sget imap (e_to e)).
        -- apply IH.
        -- intro H. inversion H. left. eauto.
      * intro H. inversion H. left. eauto.
Qed.

Section SolveInversion.
Variable maximum_flow :
  DiGraph -> string -> string -> string + (Q * flow_dict).
Variable minimum_cut :
  DiGraph -> string -> string -> string + (Q * (list string * list string)).

Lemma format_infeasible_inv (self : BeltsSolver) (G : DiGraph) (v D : Q)
    (fd : flow_dict) (imap emap : list (string * string))
    (mp : mapped_pairs) (out : belts_output) :
  format_infeasible minimum_cut self G v D fd imap emap mp = ret out ->
  exists cv side_s side_t tn,
    minimum_cut G SUPER_SOURCE SUPER_SINK = inr (cv, (side_s, side_t))
    /\ out = BInfeasible (sorted_set (reachable_original side_s)) (D - v)
                         (sorted_strings tn)
                         (tight_edges_of G fd side_s (D - v) mp).
Proof.
  unfold format_infeasible.
  destruct (minimum_cut G SUPER_SOURCE SUPER_SINK)
    as [msg|[cv [side_s side_t]]]; [discriminate|].
  destruct (tight_nodes_of _ _ _ _ _ _) as [e|tn]; simpl; [discriminate|].
  intro H. inversion H. exists cv, side_s, side_t, tn. auto.
Qed.

Lemma solve_ok_inv (self : BeltsSolver) (m : Q) (flows : list flow_entry) :
  solve maximum_flow minimum_cut self = ret (BOk m flows) ->
  exists mp G D v fd,
    collect_edges (fst (get_internal_node_maps self))
                  (snd (get_internal_node_maps self)) 0
                  (network_edges self) [] = inr mp
    /\ build_flow_graph self (fst (get_internal_node_maps self))
                        (snd (get_internal_node_maps self)) mp = ret (G, D)
    /\ maximum_flow G SUPER_SOURCE SUPER_SINK = inr (v, fd)
    /\ Qabs (v - D) <= NUMERICAL_TOLERANCE
    /\ m = total_supply_amount self
    /\ flows = sorted flow_key_le
                 (final_flows (network_edges self)
                    (original_edge_flows fd mp
                       (List.length (network_edges self)))).
Proof.
  unfold solve.
  destruct (get_internal_node_maps self) as [imap emap]. cbn [fst snd].
  destruct (collect_edges imap emap 0 (network_edges self) []) as [r|mp] eqn:E.
  - intro H. subst r. apply collect_edges_early in E.
    destruct E as [[k E]|[msg E]]; discriminate.
  - destruct (build_flow_graph self imap emap mp) as [e|[G D]] eqn:B;
      cbn [bind]; [discriminate|].
    destruct (maximum_flow G SUPER_SOURCE SUPER_SINK) as [exc|[v fd]] eqn:K;
      [discriminate|].
    destruct (Qlt_bool _ _) eqn:C.
    + intro H. apply format_infeasible_inv in H.
      destruct H as (? & ? & ? & ? & _ & H). discriminate.
    + intro H. inversion H. apply Qlt_bool_false_iff in C.
      exists mp, G, D, v, fd.
      split; [reflexivity|]. split; [exact B|]. split; [exact K|].
      split; [exact C|]. split; reflexivity.
Qed.

Lemma solve_infeasible_inv (self : BeltsSolver) (cr : list string) (d : Q)
    (tn : list string) (te : list tight_edge) :
  solve maximum_flow minimum_cut self = ret (BInfeasible cr d tn te) ->
  exists mp G D v fd cv side_s side_t,
    collect_edges (fst (get_internal_node_maps self))
                  (snd (get_internal_node_maps self)) 0
                  (network_edges self) [] = inr mp
    /\ build_flow_graph self (fst (get_internal_node_maps self))
                        (snd (get_internal_node_maps self)) mp = ret (G, D)
    /\ maximum_flow G SUPER_SOURCE SUPER_SINK = inr (v, fd)
    /\ minimum_cut G SUPER_SOURCE SUPER_SINK = inr (cv, (side_s, side_t))
    /\ NUMERICAL_TOLERANCE < Qabs (v - D)
    /\ cr = sorted_set (reachable_original side_s)
    /\ d = D - v.
Proof.
  unfold solve.
  destruct (get_internal_node_maps self) as [imap emap]. cbn [fst snd].
  destruct (collect_edges imap emap 0 (network_edges self) []) as [r|mp] eqn:E.
  - intro H. subst r. apply collect_edges_early in E.
    destruct E as [[k E]|[msg E]]; discriminate.
  - destruct (build_flow_graph self imap emap mp) as [e|[G D]] eqn:B;
      cbn [bind]; [discriminate|].
    destruct (maximum_flow G SUPER_SOURCE SUPER_SINK) as [exc|[v fd]] eqn:K;
      [discriminate|].
    destruct (Qlt_bool _ _) eqn:C.
    + intro H. apply format_infeasible_inv in H.
      destruct H as (cv & side_s & side_t & tn' & Hc & H). inversion H.
      apply Qlt_bool_iff in C.
      exists mp, G, D, v, fd, cv, side_s, side_t.
      split; [reflexivity|]. split; [exact B|]. split; [exact K|].
      split; [exact Hc|]. split; [exact C|]. split; reflexivity.
    + discriminate.
Qed.

End SolveInversion.

(** ** The groups of parallel arcs *)

Lemma collect_edges_items (imap emap : list (string * string))
    (es pre : list edge) (acc mp : mapped_pairs) :
  items_ok imap emap (pre ++ es) acc ->
  collect_edges imap emap (List.length pre) es acc = inr mp ->
  items_ok imap emap (pre ++ es) mp.
Proof.
  revert pre acc. induction es as [|e es IH]; intros pre acc Hacc; simpl.
  - intro H. inversion H. subst. exact Hacc.
  - destruct (Qlt_bool _ _); [discriminate|].
    destruct (sget emap (e_from e)) as [ms|] eqn:Ems; [|discriminate].
    destruct (sget imap (e_to e)) as [mt|] eqn:Emt; [|discriminate].
    intro H.
    replace (pre ++ e :: es) with ((pre ++ [e]) ++ es) in *
      by (rewrite <- app_assoc; reflexivity).
    replace (S (List.length pre)) with (List.length (pre ++ [e])) in H
      by (rewrite length_app; simpl; lia).
    refine (IH (pre ++ [e]) _ _ H).
    intros key l it Hin Hit.
    unfold dict_update in Hin.
    apply (dict_set_In _ pair_eqb_spec) in Hin.
    destruct Hin as [[-> ->]|Hin].
    + apply in_app_iff in Hit. destruct Hit as [Hit|[<-|[]]].
      * unfold dict_get_or in Hit.
        destruct (dict_get pair_eqb acc (ms, mt)) as [old|] eqn:Eold;
          [|destruct Hit].
        apply (dict_get_In _ pair_eqb_spec) in Eold.
        exact (Hacc _ _ _ Eold Hit).
      * exists e. simpl. split; [|auto].
        rewrite <- app_assoc. simpl.
        rewrite nth_error_app2 by lia. now rewrite Nat.sub_diag.
    + exact (Hacc _ _ _ Hin Hit).
Qed.



(** ** Writing the shares back by index *)

Lemma list_set_inv {A} (P : nat -> A -> Prop) (l : list A) (j : nat)
    (v d : A) :
  (forall i, P i (nth i l d)) -> P j v ->
  forall i, P i (nth i (list_set l j v) d).
Proof.
  revert P j. induction l as [|x l IH]; intros P j Hl Hv i.
  - simpl. apply Hl.
  - destruct j as [|j]; simpl.
    + destruct i as [|i]; [exact Hv | exact (Hl (S i))].
    + destruct i as [|i]; [exact (Hl 0%nat)|].
      apply (IH (fun i a => P (S i) a)); [|exact Hv].
      intro i'. exact (Hl (S i')).
Qed.

Lemma apportion_group_inv (P : nat -> Q -> Prop) (fd : flow_dict)
    (fl : list Q) (key : string * string) (l : list item) :
  (forall i, P i (nth i fl 0)) ->
  (forall it, In it l ->
     P (it_idx it)
       (if Qlt_bool NUMERICAL_TOLERANCE (total_reduced l)
        then it_reduced it / total_reduced l * flow_on fd (fst key) (snd key)
        else 0)) ->
  forall i, P i (nth i (apportion_group fd fl (key, l)) 0).
Proof.
  destruct key as [ms mt]. unfold apportion_group. cbn [fst snd].
  generalize (total_reduced l) as total. intros total Hfl Hw.
  assert (Hgen : forall (w : item -> Q) (l' : list item) (fl' : list Q),
             (forall i, P i (nth i fl' 0)) ->
             (forall it, In it l' -> P (it_idx it) (w it)) ->
             forall i, P i (nth i (fold_left
                                     (fun f it => list_set f (it_idx it) (w it))
                                     l' fl') 0)).
  { intros w l'. induction l' as [|it l' IH]; intros fl' Hfl' Hw'; simpl.
    - exact Hfl'.
    - apply IH.
      + apply list_set_inv; [exact Hfl' | apply Hw'; now left].
      + intros it' Hit'. apply Hw'. now right. }
  destruct (Qlt_bool NUMERICAL_TOLERANCE total).
  - apply (Hgen (fun it => it_reduced it / total * flow_on fd ms mt));
      assumption.
  - apply (Hgen (fun _ => 0)); assumption.
Qed.

Lemma original_edge_flows_inv (P : nat -> Q -> Prop) (fd : flow_dict)
    (mp : mapped_pairs) (n : nat) :
  (forall i, P i 0) ->
  (forall key l it, In (key, l) mp -> In it l ->
     P (it_idx it)
       (if Qlt_bool NUMERICAL_TOLERANCE (total_reduced l)
        then it_reduced it / total_reduced l * flow_on fd (fst key) (snd key)
        else 0)) ->
  forall i, P i (nth i (original_edge_flows fd mp n) 0).
Proof.
  intros H0 Hw. unfold original_edge_flows.
  assert (Hinit : forall i, P i (nth i (repeat 0 n) 0)).
  { intro i. rewrite nth_repeat. apply H0. }
  revert Hinit. generalize (repeat 0 n) as fl.
  induction mp as [|[key l] mp IH]; intros fl Hfl; simpl.
  - exact Hfl.
  - apply IH.
    + intros key' l' it Hin. apply Hw. now right.
    + apply apportion_group_inv; [exact Hfl|].
      intros it Hit. apply (Hw key l it); [now left | exact Hit].
Qed.

(** ** The list of flows *)

Lemma enumerate_from_In {A} (l : list A) (a i : nat) (x : A) :
  nth_error l i = Some x -> In ((a + i)%nat, x) (combine (seq a (List.length l)) l).
Proof.
  revert a i. induction l as [|y l IH]; intros a i H.
  - destruct i; discriminate.
  - destruct i as [|i]; simpl in *.
    + inversion H. left. f_equal. lia.
    + right. replace (a + S i)%nat with (S a + i)%nat by lia. now apply IH.
Qed.

Lemma enumerate_from_nth {A} (l : list A) (a j : nat) (x : A) :
  In (j, x) (combine (seq a (List.length l)) l) ->
  exists i, j = (a + i)%nat /\ nth_error l i = Some x.
Proof.
  revert a. induction l as [|y l IH]; intros a H; simpl in H.
  - destruct H.
  - destruct H as [H|H].
    + inversion H. exists 0%nat. split; [lia|reflexivity].
    + apply IH in H. destruct H as [i [-> H]]. exists (S i).
      split; [lia|exact H].
Qed.

Lemma enumerate_In {A} (l : list A) (i : nat) (x : A) :
  In (i, x) (enumerate l) <-> nth_error l i = Some x.
Proof.
  unfold enumerate. split.
  - intro H. apply enumerate_from_nth in H. destruct H as [i' [-> H]].
    exact H.
  - intro H. apply (enumerate_from_In l 0 i x H).
Qed.

Lemma final_flows_In (es : list edge) (orig : list Q) (fe : flow_entry) :
  In fe (final_flows es orig) <->
  exists i e, nth_error es i = Some e
              /\ NUMERICAL_TOLERANCE < lifted_flow orig i e
              /\ fe = mk_flow_entry (e_from e) (e_to e) (lifted_flow orig i e).
Proof.
  unfold final_flows. rewrite in_flat_map. split.
  - intros [[i e] [Hin Hfe]]. apply enumerate_In in Hin.
    destruct (Qlt_bool _ _) eqn:C; [|destruct Hfe].
    destruct Hfe as [<-|[]]. apply Qlt_bool_iff in C.
    exists i, e. auto.
  - intros (i & e & Hnth & Hlt & ->). exists (i, e).
    split; [now apply enumerate_In|].
    apply Qlt_bool_iff in Hlt. rewrite Hlt. now left.
Qed.

Lemma collect_edges_items0 (self : BeltsSolver) (mp : mapped_pairs) :
  collect_edges (fst (get_internal_node_maps self))
                (snd (get_internal_node_maps self)) 0
                (network_edges self) [] = inr mp ->
  items_ok (fst (get_internal_node_maps self))
           (snd (get_internal_node_maps self)) (network_edges self) mp.
Proof.
  intro H.
  apply (collect_edges_items _ _ (network_edges self) [] [] mp);
    [|exact H].
  intros key l it [].
Qed.

(** C8: on an [ok] answer the flow of an arc with [lo == hi] is that common
    value: its share of the reduced flow is zero, so the lifted flow is
    [lo]; and the arc is listed as soon as [lo] exceeds the tolerance. *)
Theorem C8_fixed_arc_carries_lo
    (maximum_flow : DiGraph -> string -> string -> string + (Q * flow_dict))
    (minimum_cut : DiGraph -> string -> string
                   -> string + (Q * (list string * list string)))
    (data : belts_data) (m : Q) (flows : list flow_entry) :
  solve maximum_flow minimum_cut (init data) = ret (BOk m flows) ->
  exists orig : list Q,
    flows = sorted flow_key_le (final_flows (network_edges (init data)) orig)
    /\ forall i e, nth_error (edges data) i = Some e ->
         lo_of e == e_hi e ->
         lifted_flow orig i (normalise e) == e_hi e
         /\ (NUMERICAL_TOLERANCE < lo_of e ->
             exists fe, In fe flows /\ fe_from fe = e_from e
                        /\ fe_to fe = e_to e /\ fe_flow fe == lo_of e).
Proof.
  intro Hsolve. apply solve_ok_inv in Hsolve.
  destruct Hsolve as (mp & G & D & v & fd & Hmp & _ & _ & _ & _ & Hflows).
  apply collect_edges_items0 in Hmp.
  set (es := network_edges (init data)) in *.
  set (orig := original_edge_flows fd mp (List.length es)) in *.
  exists orig. split; [exact Hflows|].
  assert (Hzero : forall i e, nth_error es i = Some e ->
                              lo_of e == e_hi e -> nth i orig 0 == 0).
  { intro i.
    apply (original_edge_flows_inv
             (fun i q => forall e, nth_error es i = Some e ->
                                   lo_of e == e_hi e -> q == 0)).
    - intros. reflexivity.
    - intros key l it Hin Hit e He Heq.
      destruct (Hmp key l it Hin Hit) as (e' & He' & Hitem & _).
      rewrite He in He'. inversion He'. subst e'.
      assert (Hred : it_reduced it == 0).
      { rewrite Hitem. simpl. lra. }
      destruct (Qlt_bool _ _); [|reflexivity].
      rewrite Hred. unfold Qdiv. ring. }
  intros i e Hnth Heq.
  assert (Hn : nth_error es i = Some (normalise e)).
  { unfold es. rewrite init_edges. now apply map_nth_error. }
  destruct (normalise_fields e) as (Hf & Ht & Hlo & Hhi).
  assert (Hlift : lifted_flow orig i (normalise e) == e_hi e).
  { unfold lifted_flow. rewrite (Hzero i (normalise e) Hn).
    - rewrite Hlo. lra.
    - rewrite Hlo, Hhi. exact Heq. }
  split; [exact Hlift|].
  intro Hpos.
  exists (mk_flow_entry (e_from e) (e_to e) (lifted_flow orig i (normalise e))).
  simpl. repeat split; [|lra].
  rewrite Hflows. apply sorted_In. apply final_flows_In.
  exists i, (normalise e). rewrite Hf, Ht. repeat split; [exact Hn|lra].
Qed.

(** ** Reserved names *)

Ltac peel_suffix n H :=
  repeat (destruct n as [|? n]; simpl in H;
          [discriminate H | injection H as _ H]);
  try (destruct n; discriminate H).

Lemma in_suffix_not_source (n : string) : (n ++ "__in")%string <> SUPER_SOURCE.
Proof. unfold SUPER_SOURCE. intro H. peel_suffix n H. Qed.

Lemma out_suffix_not_source (n : string) :
  (n ++ "__out")%string <> SUPER_SOURCE.
Proof. unfold SUPER_SOURCE. intro H. peel_suffix n H. Qed.

Lemma in_suffix_not_sink (n : string) : (n ++ "__in")%string <> SUPER_SINK.
Proof. unfold SUPER_SINK. intro H. peel_suffix n H. Qed.

Lemma out_suffix_not_sink (n : string) : (n ++ "__out")%string <> SUPER_SINK.
Proof. unfold SUPER_SINK. intro H. peel_suffix n H. Qed.

Lemma internal_name_reserved (self : BeltsSolver) (n r : string) :
  (r = SUPER_SOURCE \/ r = SUPER_SINK) -> n <> r -> internal_name self n <> r.
Proof.
  intros Hr Hn. unfold internal_name. destruct (is_split self n); [|exact Hn].
  destruct Hr as [->| ->];
    [apply in_suffix_not_source | apply in_suffix_not_sink].
Qed.

Lemma external_name_reserved (self : BeltsSolver) (n r : string) :
  (r = SUPER_SOURCE \/ r = SUPER_SINK) -> n <> r -> external_name self n <> r.
Proof.
  intros Hr Hn. unfold external_name. destruct (is_split self n); [|exact Hn].
  destruct Hr as [->| ->];
    [apply out_suffix_not_source | apply out_suffix_not_sink].
Qed.

(** ** The auxiliary network, step by step *)

Lemma g_arcs_add_node (G : DiGraph) (n : string) :
  g_arcs (add_node G n) = g_arcs G.
Proof. unfold add_node. destruct (str_in n (g_nodes G)); reflexivity. Qed.

Lemma g_arcs_add_edge (G : DiGraph) (u v : string) (c : Q) :
  g_arcs (add_edge G u v c) = pset (g_arcs G) (u, v) c.
Proof. unfold add_edge. simpl. now rewrite !g_arcs_add_node. Qed.

Lemma g_arcs_add_nodes (l : list string) (G : DiGraph) :
  g_arcs (fold_left add_node l G) = g_arcs G.
Proof.
  revert G. induction l as [|n l IH]; intro G; simpl; [reflexivity|].
  now rewrite IH, g_arcs_add_node.
Qed.

Lemma fold_sset_lookup {V} (f : string -> V) (ns : list string)
    (d0 : list (string * V)) (n : string) :
  sget (fold_left (fun d x => sset d x (f x)) ns d0) n
  = if str_in n ns then Some (f n) else sget d0 n.
Proof.
  revert d0. induction ns as [|x ns IH]; intro d0; simpl; [reflexivity|].
  rewrite IH. unfold sget, sset. rewrite (dict_get_set _ String.eqb_spec).
  destruct (String.eqb_spec n x) as [->|Hn]; simpl;
    destruct (str_in _ ns); reflexivity.
Qed.

Lemma requirement_lookup (self : BeltsSolver) (n : string) :
  In n (network_nodes self) ->
  sindex (node_requirement self) n = ret (R self n).
Proof.
  intro H. unfold sindex, node_requirement.
  rewrite (fold_sset_lookup
             (requirement_of self (node_imbalance (network_edges self)))).
  apply str_in_iff in H. now rewrite H.
Qed.

Lemma internal_index (self : BeltsSolver) (n : string) :
  In n (network_nodes self) ->
  sindex (fst (get_internal_node_maps self)) n = ret (internal_name self n).
Proof.
  intro H. unfold sindex. rewrite internal_lookup.
  apply str_in_iff in H. now rewrite H.
Qed.

Lemma external_index (self : BeltsSolver) (n : string) :
  In n (network_nodes self) ->
  sindex (snd (get_internal_node_maps self)) n = ret (external_name self n).
Proof.
  intro H. unfold sindex. rewrite external_lookup.
  apply str_in_iff in H. now rewrite H.
Qed.

Lemma add_node_cap_arcs_pure (self : BeltsSolver) (caps : list (string * Q))
    (G : DiGraph) :
  (forall nc, In nc caps -> In (fst nc) (network_nodes self)) ->
  add_node_cap_arcs (fst (get_internal_node_maps self))
                    (snd (get_internal_node_maps self)) caps G
  = ret (fold_left (cap_step self) caps G).
Proof.
  revert G. induction caps as [|[n c] caps IH]; intros G H; simpl.
  - reflexivity.
  - assert (Hn : In n (network_nodes self)) by (apply (H (n, c)); now left).
    rewrite (internal_index self n Hn), (external_index self n Hn).
    cbn [bind ret]. rewrite IH by (intros nc Hnc; apply H; now right).
    reflexivity.
Qed.

Lemma add_requirement_arcs_pure (self : BeltsSolver) (ns : list string)
    (st : DiGraph * Q) :
  (forall n, In n ns -> In n (network_nodes self)) ->
  add_requirement_arcs (fst (get_internal_node_maps self))
                       (snd (get_internal_node_maps self))
                       (node_requirement self) ns st
  = ret (fold_left (requirement_step self) ns st).
Proof.
  revert st. induction ns as [|n ns IH]; intros [G D] H; simpl.
  - reflexivity.
  - assert (Hn : In n (network_nodes self)) by (apply H; now left).
    rewrite (requirement_lookup self n Hn), (internal_index self n Hn),
      (external_index self n Hn).
    cbn [bind ret]. rewrite IH by (intros n' Hn'; apply H; now right).
    unfold requirement_step. cbn [fst snd].
    destruct (Qlt_bool NUMERICAL_TOLERANCE (R self n)); [reflexivity|].
    destruct (Qlt_bool (R self n) (- NUMERICAL_TOLERANCE)); reflexivity.
Qed.

Lemma build_flow_graph_pure (self : BeltsSolver) (mp : mapped_pairs) :
  caps_in_nodes self ->
  build_flow_graph self (fst (get_internal_node_maps self))
                   (snd (get_internal_node_maps self)) mp
  = ret (flow_graph self mp).
Proof.
  intro Hcaps. unfold build_flow_graph.
  rewrite add_node_cap_arcs_pure by exact Hcaps. cbn [bind ret].
  rewrite add_requirement_arcs_pure by auto. reflexivity.
Qed.

Lemma build_flow_graph_caps (self : BeltsSolver) (mp : mapped_pairs)
    (r : DiGraph * Q) :
  build_flow_graph self (fst (get_internal_node_maps self))
                   (snd (get_internal_node_maps self)) mp = ret r ->
  caps_in_nodes self.
Proof.
  unfold build_flow_graph, caps_in_nodes.
  generalize (fold_left add_node
                (map snd (fst (get_internal_node_maps self)) ++
                 map snd (snd (get_internal_node_maps self))) empty_graph).
  induction (node_capacity_map self) as [|[n c] caps IH]; intros G H nc Hnc.
  - destruct Hnc.
  - simpl in H. unfold sindex in H at 1. rewrite internal_lookup in H.
    destruct (str_in n (network_nodes self)) eqn:E; [|discriminate].
    destruct Hnc as [<-|Hnc]; [now apply str_in_iff|].
    cbn [bind ret] in H. unfold sindex in H at 1.
    rewrite external_lookup, E in H. cbn [bind ret] in H.
    eapply IH; [exact H | exact Hnc].
Qed.

Lemma collect_edges_keys (Pk : string * string -> Prop)
    (imap emap : list (string * string)) (es : list edge) (idx : nat)
    (acc mp : mapped_pairs) :
  (forall u v ms mt, sget emap u = Some ms -> sget imap v = Some mt ->
                     Pk (ms, mt)) ->
  (forall key l, In (key, l) acc -> Pk key) ->
  collect_edges imap emap idx es acc = inr mp ->
  forall key l, In (key, l) mp -> Pk key.
Proof.
  intro Hmaps. revert idx acc.
  induction es as [|e es IH]; intros idx acc Hacc; simpl.
  - intro H. inversion H. subst. exact Hacc.
  - destruct (Qlt_bool _ _); [discriminate|].
    destruct (sget emap (e_from e)) as [ms|] eqn:Ems; [|discriminate].
    destruct (sget imap (e_to e)) as [mt|] eqn:Emt; [|discriminate].
    apply IH. intros key l Hin. unfold dict_update in Hin.
    apply (dict_set_In _ pair_eqb_spec) in Hin.
    destruct Hin as [[-> _]|Hin]; [eapply Hmaps; eassumption|].
    eapply Hacc; eassumption.
Qed.

(** Keys of the groups never use the reserved names when the declared
    nodes do not. *)
Lemma mapped_keys_unreserved (self : BeltsSolver) (mp : mapped_pairs) :
  ~ In SUPER_SOURCE (network_nodes self) ->
  ~ In SUPER_SINK (network_nodes self) ->
  collect_edges (fst (get_internal_node_maps self))
                (snd (get_internal_node_maps self)) 0
                (network_edges self) [] = inr mp ->
  forall key l, In (key, l) mp ->
                fst key <> SUPER_SOURCE /\ snd key <> SUPER_SINK.
Proof.
  intros Hs Ht.
  apply (collect_edges_keys
           (fun key => fst key <> SUPER_SOURCE /\ snd key <> SUPER_SINK)).
  - intros u v ms mt Hu Hv. rewrite external_lookup in Hu.
    rewrite internal_lookup in Hv.
    destruct (str_in u (network_nodes self)) eqn:Eu; [|discriminate].
    destruct (str_in v (network_nodes self)) eqn:Ev; [|discriminate].
    inversion Hu. inversion Hv. apply str_in_iff in Eu, Ev. simpl. split.
    + apply external_name_reserved; [now left|]. intros ->. contradiction.
    + apply internal_name_reserved; [now right|]. intros ->. contradiction.
  - intros key l [].
Qed.





(** ** Bounds of the lifted flows *)

Lemma checked_flow_sound
    (k : DiGraph -> string -> string -> string + (Q * flow_dict)) :
  flow_kernel_sound (checked_flow k).
Proof.
  intros G s t v fd. unfold checked_flow.
  destruct (k G s t) as [msg|[v' fd']]; [discriminate|].
  destruct (valid_flow G s t v' fd') eqn:E; [|discriminate].
  intro H. inversion H. subst. exact E.
Qed.




(** ** Capacity leaving the super-source *)

Lemma usable_nonneg (c : Q) : 0 <= usable c.
Proof. apply Qmax_ge_l. Qed.

Lemma scap_cons (a : (string * string) * Q)
    (d : list ((string * string) * Q)) (s : string) :
  scap (a :: d) s
  == (if (fst (fst a) =? s)%string then usable (snd a) else 0) + scap d s.
Proof.
  unfold scap. simpl. destruct (fst (fst a) =? s)%string; simpl.
  - apply Qsum_cons.
  - lra.
Qed.

Lemma scap_pset_same (d : list ((string * string) * Q))
    (k : string * string) (c : Q) (s : string) :
  fst k = s -> scap (pset d k c) s <= scap d s + usable c.
Proof.
  intro Hk. induction d as [|[k0 c0] d IH]; simpl.
  - rewrite scap_cons. simpl. rewrite Hk, String.eqb_refl.
    unfold scap. simpl. lra.
  - destruct (pair_eqb_spec k k0) as [->|Hne].
    + rewrite !scap_cons. simpl. rewrite Hk, String.eqb_refl.
      pose proof (usable_nonneg c0). lra.
    + rewrite !scap_cons. fold (pset d k c). simpl. lra.
Qed.

Lemma scap_pset_other (d : list ((string * string) * Q))
    (k : string * string) (c : Q) (s : string) :
  fst k <> s -> scap (pset d k c) s == scap d s.
Proof.
  intro Hk. apply String.eqb_neq in Hk.
  induction d as [|[k0 c0] d IH]; simpl.
  - rewrite scap_cons. simpl. rewrite Hk. lra.
  - destruct (pair_eqb_spec k k0) as [->|Hne].
    + rewrite !scap_cons. simpl. rewrite Hk. lra.
    + rewrite !scap_cons. fold (pset d k c). rewrite IH. reflexivity.
Qed.

Lemma no_arc_from_scap (d : list ((string * string) * Q)) (s : string) :
  no_arc_from s d -> scap d s == 0.
Proof.
  induction d as [|a d IH]; intro H.
  - reflexivity.
  - rewrite scap_cons.
    assert (Ha : (fst (fst a) =? s)%string = false)
      by (apply String.eqb_neq, H; now left).
    rewrite Ha, IH; [lra|]. intros b Hb. apply H. now right.
Qed.

Lemma no_arc_from_pset (d : list ((string * string) * Q))
    (k : string * string) (c : Q) (s : string) :
  fst k <> s -> no_arc_from s d -> no_arc_from s (pset d k c).
Proof.
  intros Hk Hd [k' c'] Hin. apply (dict_set_In _ pair_eqb_spec) in Hin.
  destruct Hin as [[-> _]|Hin]; [exact Hk | exact (Hd _ Hin)].
Qed.

Lemma cap_steps_no_source (self : BeltsSolver) (caps : list (string * Q))
    (G : DiGraph) :
  no_arc_from SUPER_SOURCE (g_arcs G) ->
  no_arc_from SUPER_SOURCE (g_arcs (fold_left (cap_step self) caps G)).
Proof.
  revert G. induction caps as [|[n c] caps IH]; intros G HG; simpl.
  - exact HG.
  - apply IH. unfold cap_step. cbn [fst snd].
    destruct (internal_name self n =? external_name self n)%string eqn:E;
      cbn [negb]; [exact HG|].
    rewrite g_arcs_add_edge. apply no_arc_from_pset; [|exact HG].
    cbn [fst].
    unfold internal_name, external_name in *.
    destruct (is_split self n).
    + apply in_suffix_not_source.
    + rewrite String.eqb_refl in E. discriminate.
Qed.

Lemma mapped_arcs_no_source (mp : mapped_pairs) (G : DiGraph) :
  (forall key l, In (key, l) mp -> fst key <> SUPER_SOURCE) ->
  no_arc_from SUPER_SOURCE (g_arcs G) ->
  no_arc_from SUPER_SOURCE (g_arcs (add_mapped_arcs mp G)).
Proof.
  unfold add_mapped_arcs. revert G.
  induction mp as [|[[ms mt] l] mp IH]; intros G Hk HG; simpl.
  - exact HG.
  - apply IH.
    + intros key l' Hin. apply (Hk key l'). now right.
    + rewrite g_arcs_add_edge. apply no_arc_from_pset; [|exact HG].
      apply (Hk (ms, mt) l). now left.
Qed.

Lemma requirement_steps_scap (self : BeltsSolver) (ns : list string)
    (st : DiGraph * Q) :
  ~ In SUPER_SOURCE ns ->
  scap (g_arcs (fst st)) SUPER_SOURCE <= snd st ->
  scap (g_arcs (fst (fold_left (requirement_step self) ns st))) SUPER_SOURCE
  <= snd (fold_left (requirement_step self) ns st).
Proof.
  revert st. induction ns as [|n ns IH]; intros st Hns Hst; simpl.
  - exact Hst.
  - apply IH; [intro; apply Hns; now right|].
    unfold requirement_step.
    destruct (Qlt_bool NUMERICAL_TOLERANCE (R self n)) eqn:C.
    + cbn [fst snd]. rewrite g_arcs_add_edge.
      apply Qlt_bool_iff in C. unfold NUMERICAL_TOLERANCE in C.
      pose proof (scap_pset_same (g_arcs (fst st))
                    (SUPER_SOURCE, internal_name self n) (R self n)
                    SUPER_SOURCE eq_refl) as Hle.
      unfold usable in Hle. rewrite Qmax_pos in Hle by lra. lra.
    + destruct (Qlt_bool (R self n) (- NUMERICAL_TOLERANCE)); [|exact Hst].
      cbn [fst snd]. rewrite g_arcs_add_edge.
      rewrite scap_pset_other; [exact Hst|]. simpl.
      apply external_name_reserved; [now left|].
      intros ->. apply Hns. now left.
Qed.

Lemma flow_graph_source_capacity (self : BeltsSolver) (mp : mapped_pairs) :
  ~ In SUPER_SOURCE (network_nodes self) ->
  (forall key l, In (key, l) mp -> fst key <> SUPER_SOURCE) ->
  source_capacity (fst (flow_graph self mp)) SUPER_SOURCE
  <= snd (flow_graph self mp).
Proof.
  intros Hs Hkeys. unfold flow_graph.
  apply (requirement_steps_scap self); [exact Hs|]. cbn [fst snd].
  rewrite !g_arcs_add_node. rewrite no_arc_from_scap; [lra|].
  apply mapped_arcs_no_source; [exact Hkeys|].
  apply cap_steps_no_source. rewrite g_arcs_add_nodes. intros a [].
Qed.

(** A feasible flow is worth at most the capacity that leaves its source. *)
Lemma valid_flow_value_le (G : DiGraph) (s t : string) (v : Q)
    (fd : flow_dict) :
  valid_flow G s t v fd = true -> v <= source_capacity G s.
Proof.
  unfold valid_flow. intro H.
  apply andb_true_iff in H. destruct H as [H Hv].
  apply andb_true_iff in H. destruct H as [Hcap _].
  apply Qeq_bool_iff in Hv.
  unfold within_capacity in Hcap. rewrite forallb_forall in Hcap.
  assert (Hin : 0 <= inflow G fd s).
  { unfold inflow. apply Qsum_nonneg. intros x Hx. apply in_map_iff in Hx.
    destruct Hx as (a & <- & Ha). apply filter_In in Ha.
    destruct Ha as [Ha _]. apply Hcap in Ha. simpl in Ha.
    apply andb_true_iff in Ha. destruct Ha as [Ha _].
    now apply Qle_bool_iff. }
  assert (Hout : outflow G fd s <= source_capacity G s).
  { unfold outflow, source_capacity. apply Qsum_map_le. intros a Ha.
    apply filter_In in Ha. destruct Ha as [Ha _]. apply Hcap in Ha.
    simpl in Ha. apply andb_true_iff in Ha. destruct Ha as [_ Ha].
    now apply Qle_bool_iff. }
  lra.
Qed.

(** ** The infeasibility report *)

Lemma reachable_original_In (side_s : list string) (n : string) :
  In n (sorted_set (reachable_original side_s)) <->
  exists m, In m side_s /\ m <> SUPER_SOURCE /\ m <> SUPER_SINK
            /\ base_name m = n.
Proof.
  rewrite sorted_set_In. unfold reachable_original. rewrite in_map_iff.
  split.
  - intros (m & Hb & Hm). apply filter_In in Hm. destruct Hm as [Hm Hf].
    apply negb_true_iff, orb_false_iff in Hf. destruct Hf as [Hs Ht].
    apply String.eqb_neq in Hs, Ht. exists m. auto.
  - intros (m & Hm & Hs & Ht & Hb). exists m. split; [exact Hb|].
    apply filter_In. split; [exact Hm|].
    apply String.eqb_neq in Hs, Ht. now rewrite Hs, Ht.
Qed.

(** C2, as the code has it: on an [infeasible] answer, with a sound flow
    kernel and declared nodes that avoid the two reserved names, the
    deficit exceeds the tolerance, hence is strictly positive; and
    [cut_reachable] holds exactly the base names of the nodes on the source
    side of the kernel's cut, the super endpoints left out. (Whether a
    source or the sink is listed is decided by that cut alone.) *)
Theorem C2_infeasible_report
    (maximum_flow : DiGraph -> string -> string -> string + (Q * flow_dict))
    (minimum_cut : DiGraph -> string -> string
                   -> string + (Q * (list string * list string)))
    (data : belts_data) (cr : list string) (d : Q) (tn : list string)
    (te : list tight_edge) :
  flow_kernel_sound maximum_flow ->
  reserved_free data ->
  solve maximum_flow minimum_cut (init data) = ret (BInfeasible cr d tn te) ->
  NUMERICAL_TOLERANCE < d /\ 0 < d
  /\ exists cv side_s side_t,
       minimum_cut (aux_network (init data)) SUPER_SOURCE SUPER_SINK
       = inr (cv, (side_s, side_t))
       /\ forall n, In n cr <->
                    exists m, In m side_s /\ m <> SUPER_SOURCE
                              /\ m <> SUPER_SINK /\ base_name m = n.
Proof.
  intros Hsound [Hrs Hrt] Hsolve. apply solve_infeasible_inv in Hsolve.
  destruct Hsolve
    as (mp & G & D & v & fd & cv & side_s & side_t
        & Hmp & Hbuild & Hk & Hc & Hgap & -> & ->).
  pose proof (build_flow_graph_caps _ _ _ Hbuild) as Hcaps.
  rewrite (build_flow_graph_pure _ _ Hcaps) in Hbuild.
  assert (Hmo : mapped_of (init data) = mp)
    by (unfold mapped_of; now rewrite Hmp).
  assert (HG : G = aux_network (init data)).
  { unfold aux_network. rewrite Hmo. inversion Hbuild as [HGD].
    now rewrite HGD. }
  assert (HD : D = snd (flow_graph (init data) mp)).
  { inversion Hbuild as [HGD]. now rewrite HGD. }
  assert (Hle : v <= D).
  { apply Hsound, valid_flow_value_le in Hk.
    eapply Qle_trans; [exact Hk|].
    rewrite HD, HG. unfold aux_network. rewrite Hmo.
    apply flow_graph_source_capacity; [exact Hrs|].
    intros key l Hin.
    apply (mapped_keys_unreserved (init data) mp Hrs Hrt Hmp key l Hin). }
  assert (Hd : NUMERICAL_TOLERANCE < D - v).
  { revert Hgap. apply Qabs_case; intros; lra. }
  split; [exact Hd|]. split; [unfold NUMERICAL_TOLERANCE in Hd; lra|].
  exists cv, side_s, side_t. rewrite <- HG.
  split; [exact Hc|]. intro n. apply reachable_original_In.
Qed.

(** ** The feasibility test *)

Lemma collect_edges_ok (imap emap : list (string * string))
    (es : list edge) (idx : nat) (acc : mapped_pairs) :
  (forall e, In e es -> hi_below_lo e = false
                        /\ sget emap (e_from e) <> None
                        /\ sget imap (e_to e) <> None) ->
  exists mp, collect_edges imap emap idx es acc = inr mp.
Proof.
  revert idx acc. induction es as [|e es IH]; intros idx acc H; simpl.
  - eauto.
  - destruct (H e (or_introl eq_refl)) as (Hb & Hf & Ht).
    unfold hi_below_lo in Hb. rewrite Hb.
    destruct (sget emap (e_from e)); [|congruence].
    destruct (sget imap (e_to e)); [|congruence].
    apply IH. intros e' He'. apply H. now right.
Qed.

Lemma requirement_steps_total (self : BeltsSolver) (ns : list string)
    (st : DiGraph * Q) :
  snd (fold_left (requirement_step self) ns st)
  == snd st + Qsum (map (R self)
                        (filter (fun v => Qlt_bool NUMERICAL_TOLERANCE
                                                   (R self v)) ns)).
Proof.
  revert st. induction ns as [|n ns IH]; intro st; simpl.
  - rewrite Qsum_nil. lra.
  - rewrite IH. unfold requirement_step.
    destruct (Qlt_bool NUMERICAL_TOLERANCE (R self n)); simpl.
    + rewrite Qsum_cons. lra.
    + destruct (Qlt_bool (R self n) (- NUMERICAL_TOLERANCE)); simpl; lra.
Qed.

Lemma total_demand_is_demand_above (self : BeltsSolver) :
  total_demand self == demand_above NUMERICAL_TOLERANCE self.
Proof.
  unfold total_demand, flow_graph, demand_above.
  rewrite requirement_steps_total. simpl. lra.
Qed.

Lemma tight_nodes_of_ok (self : BeltsSolver) (G : DiGraph) (fd : flow_dict)
    (reach ns : list string) :
  (forall n, In n ns -> In n (network_nodes self)) ->
  exists tn, tight_nodes_of G fd (fst (get_internal_node_maps self))
                            (snd (get_internal_node_maps self)) reach ns
             = ret tn.
Proof.
  induction ns as [|n ns IH]; intro H; simpl.
  - eauto.
  - destruct IH as [tn Htn]; [intros; apply H; now right|].
    destruct (negb (str_in n reach)); [eauto|].
    assert (Hn : In n (network_nodes self)) by (apply H; now left).
    rewrite (internal_index self n Hn), (external_index self n Hn), Htn.
    cbn [bind ret].
    destruct (internal_name self n =? external_name self n)%string; [eauto|].
    destruct (Qle_bool _ _); eauto.
Qed.

Lemma node_capacity_map_keys (data : belts_data) :
  caps_known data -> caps_in_nodes (init data).
Proof.
  unfold caps_known, caps_in_nodes. simpl.
  assert (Hgen : forall l d0 nc,
            In nc (fold_left (fun d c => sset d (nc_name c) (nc_cap c)) l d0)
            -> In nc d0 \/ exists c, In c l /\ nc_name c = fst nc).
  { induction l as [|c l IH]; intros d0 nc Hin; simpl in Hin; [now left|].
    apply IH in Hin. destruct Hin as [Hin|(c' & Hc' & E)].
    - destruct nc as [k v]. apply (dict_set_In _ String.eqb_spec) in Hin.
      destruct Hin as [[-> _]|Hin]; [|now left].
      right. exists c. split; [now left|reflexivity].
    - right. exists c'. split; [now right|exact E]. }
  intros H nc Hnc. apply Hgen in Hnc. destruct Hnc as [[]|(c & Hc & <-)].
  now apply H.
Qed.

Section SolveEvaluation.
Variable maximum_flow :
  DiGraph -> string -> string -> string + (Q * flow_dict).
Variable minimum_cut :
  DiGraph -> string -> string -> string + (Q * (list string * list string)).

Lemma solve_unfold (self : BeltsSolver) (mp : mapped_pairs) :
  collect_edges (fst (get_internal_node_maps self))
                (snd (get_internal_node_maps self)) 0
                (network_edges self) [] = inr mp ->
  caps_in_nodes self ->
  solve maximum_flow minimum_cut self
  = match maximum_flow (fst (flow_graph self mp)) SUPER_SOURCE SUPER_SINK with
    | inl exc => ret (BError ("maxflow error: " ++ exc)%string)
    | inr (v, fd) =>
        if Qlt_bool NUMERICAL_TOLERANCE (Qabs (v - snd (flow_graph self mp)))
        then format_infeasible minimum_cut self (fst (flow_graph self mp)) v
               (snd (flow_graph self mp)) fd
               (fst (get_internal_node_maps self))
               (snd (get_internal_node_maps self)) mp
        else ret (BOk (total_supply_amount self)
                      (sorted flow_key_le
                         (final_flows (network_edges self)
                            (original_edge_flows fd mp
                               (List.length (network_edges self))))))
    end.
Proof.
  intros Hmp Hcaps. unfold solve.
  pose proof (build_flow_graph_pure self mp Hcaps) as Hb.
  destruct (get_internal_node_maps self) as [imap emap].
  cbn [fst snd] in *. rewrite Hmp, Hb. cbn [bind ret].
  destruct (flow_graph self mp) as [G D]. reflexivity.
Qed.

Lemma format_infeasible_ok (self : BeltsSolver) (G : DiGraph) (v D : Q)
    (fd : flow_dict) (mp : mapped_pairs)
    (cut : Q * (list string * list string)) :
  minimum_cut G SUPER_SOURCE SUPER_SINK = inr cut ->
  exists cr d tn te,
    format_infeasible minimum_cut self G v D fd
      (fst (get_internal_node_maps self)) (snd (get_internal_node_maps self))
      mp = ret (BInfeasible cr d tn te).
Proof.
  intro Hc. unfold format_infeasible. rewrite Hc.
  destruct cut as [cv [side_s side_t]].
  destruct (tight_nodes_of_ok self G fd (reachable_original side_s)
              (sorted_strings (network_nodes self))) as [tn Htn].
  { intros n Hn. now apply sorted_In in Hn. }
  rewrite Htn. cbn [bind ret]. eauto.
Qed.

End SolveEvaluation.

Lemma validation_passes (data : belts_data) :
  endpoints_known data ->
  (forall e, In e (edges data) -> lo_of e <= e_hi e) ->
  collect_edges (fst (get_internal_node_maps (init data)))
                (snd (get_internal_node_maps (init data))) 0
                (network_edges (init data)) []
  = inr (mapped_of (init data)).
Proof.
  intros Hknown Hbounds. unfold mapped_of.
  destruct (collect_edges_ok (fst (get_internal_node_maps (init data)))
              (snd (get_internal_node_maps (init data)))
              (network_edges (init data)) 0 []) as [mp Hmp].
  - intros e He. rewrite init_edges in He. apply in_map_iff in He.
    destruct He as (e0 & <- & He0).
    rewrite hi_below_lo_normalise.
    destruct (normalise_fields e0) as (-> & -> & _).
    destruct (Hknown e0 He0) as [Hf Ht].
    rewrite external_lookup, internal_lookup. simpl.
    apply str_in_iff in Hf, Ht. rewrite Hf, Ht.
    split; [|split; discriminate].
    apply Qlt_bool_false_iff. specialize (Hbounds e0 He0).
    unfold NUMERICAL_TOLERANCE. lra.
  - now rewrite Hmp.
Qed.

(** C4, as the code has it: with [lo <= hi] on every arc (and endpoints and
    capped nodes declared), [total_demand] is the sum of the requirements
    [R(v)] over the nodes with [R(v) > 1e-9]; [solve] answers [ok] exactly
    when the kernel's flow value is within [1e-9] of it, and [infeasible]
    exactly when it is not (the cut kernel having answered). *)
Theorem C4_ok_iff_flow_meets_demand
    (maximum_flow : DiGraph -> string -> string -> string + (Q * flow_dict))
    (minimum_cut : DiGraph -> string -> string
                   -> string + (Q * (list string * list string)))
    (data : belts_data) (v : Q) (fd : flow_dict)
    (cut : Q * (list string * list string)) :
  endpoints_known data ->
  caps_known data ->
  (forall e, In e (edges data) -> lo_of e <= e_hi e) ->
  maximum_flow (aux_network (init data)) SUPER_SOURCE SUPER_SINK
  = inr (v, fd) ->
  minimum_cut (aux_network (init data)) SUPER_SOURCE SUPER_SINK = inr cut ->
  total_demand (init data) == demand_above NUMERICAL_TOLERANCE (init data)
  /\ ((exists m flows,
         solve maximum_flow minimum_cut (init data) = ret (BOk m flows))
      <-> Qabs (v - demand_above NUMERICAL_TOLERANCE (init data))
          <= NUMERICAL_TOLERANCE)
  /\ ((exists cr d tn te,
         solve maximum_flow minimum_cut (init data)
         = ret (BInfeasible cr d tn te))
      <-> ~ Qabs (v - demand_above NUMERICAL_TOLERANCE (init data))
            <= NUMERICAL_TOLERANCE).
Proof.
  intros Hknown Hcaps Hbounds Hk Hc.
  pose proof (total_demand_is_demand_above (init data)) as HD.
  split; [exact HD|].
  rewrite (solve_unfold maximum_flow minimum_cut (init data)
             (mapped_of (init data))
             (validation_passes data Hknown Hbounds)
             (node_capacity_map_keys data Hcaps)).
  fold (aux_network (init data)). fold (total_demand (init data)).
  rewrite Hk.
  assert (E : Qabs (v - total_demand (init data))
              == Qabs (v - demand_above NUMERICAL_TOLERANCE (init data)))
    by (now rewrite HD).
  destruct (Qlt_bool NUMERICAL_TOLERANCE
                     (Qabs (v - total_demand (init data)))) eqn:C.
  - apply Qlt_bool_iff in C. rewrite E in C.
    destruct (format_infeasible_ok minimum_cut (init data)
                (aux_network (init data)) v (total_demand (init data)) fd
                (mapped_of (init data)) cut Hc)
      as (cr & d & tn & te & Hfi).
    rewrite Hfi. split; split.
    + intros (m & flows & H). discriminate.
    + intro H. lra.
    + intros _ H. lra.
    + intros _. eauto.
  - apply Qlt_bool_false_iff in C. rewrite E in C. split; split.
    + intros _. exact C.
    + intros _. eauto.
    + intros (cr & d & tn & te & H). discriminate.
    + intro H. contradiction.
Qed.

(** ** When a minimum cut keeps a node on the sink side *)

Lemma Qmax_ge_r (a b : Q) : b <= Qmax a b.
Proof.
  unfold Qmax. destruct (Qle_bool a b) eqn:E; [lra|].
  assert (H : ~ a <= b) by (intro H; apply Qle_bool_iff in H; congruence).
  lra.
Qed.

Lemma cut_capacity_arc (G : DiGraph) (side : list string) (u v : string)
    (c : Q) :
  In ((u, v), c) (g_arcs G) ->
  str_in u side = true -> str_in v side = false ->
  usable c <= cut_capacity G side.
Proof.
  unfold cut_capacity. intros Hin Hu Hv.
  induction (g_arcs G) as [|a l IH]; [destruct Hin|].
  simpl map. rewrite Qsum_cons.
  assert (Hrest : 0 <= Qsum (map (fun a0 =>
                     if str_in (fst (fst a0)) side
                        && negb (str_in (snd (fst a0)) side)
                     then usable (snd a0) else 0) l)).
  { apply Qsum_nonneg. intros x Hx. apply in_map_iff in Hx.
    destruct Hx as (a0 & <- & _).
    destruct (_ && _); [apply usable_nonneg | lra]. }
  destruct Hin as [->|Hin].
  - simpl. rewrite Hu, Hv. simpl. lra.
  - specialize (IH Hin).
    assert (0 <= (if str_in (fst (fst a)) side
                     && negb (str_in (snd (fst a)) side)
                  then usable (snd a) else 0))
      by (destruct (_ && _); [apply usable_nonneg | lra]).
    lra.
Qed.

(** A node whose arc into [t] has more capacity than the flow value is
    not on the source side of any cut of that value: this is how the sink
    stays out of [cut_reachable] when its own demand is the unmet one. *)
Lemma unsaturated_node_off_source_side (G : DiGraph) (s t : string)
    (v cv : Q) (side_s side_t : list string) (u : string) (c : Q) :
  valid_min_cut G s t v (cv, (side_s, side_t)) = true ->
  In ((u, t), c) (g_arcs G) -> v < c -> ~ In u side_s.
Proof.
  unfold valid_min_cut. rewrite !andb_true_iff.
  intros [[[[_ Ht] _] Hcv] Hv] Hin Hlt Hu.
  apply negb_true_iff in Ht. apply Qeq_bool_iff in Hcv, Hv.
  apply str_in_iff in Hu.
  pose proof (cut_capacity_arc G side_s u t c Hin Hu Ht) as Hle.
  pose proof (Qmax_ge_r 0 c) as Hc. unfold usable in Hle. lra.
Qed.

(** ** The statements at sample problems *)

Import BeltsSamples.

Lemma C7_witness :
  find hi_below_lo (edges inverted) = Some inverted_arc
  /\ endpoints_known inverted
  /\ solve no_flow_kernel no_cut_kernel (init inverted)
     = ret (BError "edge a->sink has hi < lo").
Proof.
  assert (Hk : endpoints_known inverted).
  { intros e [<-|[]]; simpl; auto. }
  split; [reflexivity|]. split; [exact Hk|].
  exact (C7_hi_below_lo_is_error no_flow_kernel no_cut_kernel inverted
           inverted_arc eq_refl Hk).
Defined.

(** C7 as stated fails: this arc has [hi < lo], the difference is within
    the tolerance, and [solve] answers [ok] with a flow on that arc. *)
Lemma C7_counterexample :
  In near_arc (edges near_inverted)
  /\ e_hi near_arc < lo_of near_arc
  /\ endpoints_known near_inverted
  /\ valid_flow (aux_network (init near_inverted)) SUPER_SOURCE SUPER_SINK
                0 [] = true
  /\ solve (const_flow 0 []) no_cut_kernel (init near_inverted)
     = ret (BOk 1 [mk_flow_entry "a" "sink" 1]).
Proof.
  split; [now left|]. split; [reflexivity|].
  split; [intros e [<-|[]]; simpl; auto|].
  split; vm_compute; reflexivity.
Qed.

Lemma C8_witness :
  exists m flows,
    solve (const_flow 10 forced_flow) no_cut_kernel (init forced)
    = ret (BOk m flows)
    /\ exists orig : list Q,
         flows = sorted flow_key_le
                   (final_flows (network_edges (init forced)) orig)
         /\ forall i e, nth_error (edges forced) i = Some e ->
              lo_of e == e_hi e ->
              lifted_flow orig i (normalise e) == e_hi e
              /\ (NUMERICAL_TOLERANCE < lo_of e ->
                  exists fe, In fe flows /\ fe_from fe = e_from e
                             /\ fe_to fe = e_to e /\ fe_flow fe == lo_of e).
Proof.
  eexists. eexists. split.
  - vm_compute. reflexivity.
  - eapply (C8_fixed_arc_carries_lo (const_flow 10 forced_flow) no_cut_kernel
              forced).
    vm_compute. reflexivity.
Defined.




Lemma C2_witness :
  exists cr d tn te,
    solve (checked_flow (const_flow 20 bottleneck_flow))
          (const_cut 20 bottleneck_side_s bottleneck_side_t)
          (init bottleneck) = ret (BInfeasible cr d tn te)
    /\ NUMERICAL_TOLERANCE < d /\ 0 < d
    /\ exists cv side_s side_t,
         const_cut 20 bottleneck_side_s bottleneck_side_t
                   (aux_network (init bottleneck)) SUPER_SOURCE SUPER_SINK
         = inr (cv, (side_s, side_t))
         /\ forall n, In n cr <->
                      exists m, In m side_s /\ m <> SUPER_SOURCE
                                /\ m <> SUPER_SINK /\ base_name m = n.
Proof.
  eexists. eexists. eexists. eexists. split.
  - vm_compute. reflexivity.
  - eapply (C2_infeasible_report
             (checked_flow (const_flow 20 bottleneck_flow))
             (const_cut 20 bottleneck_side_s bottleneck_side_t)
             bottleneck _ _ _ _ (checked_flow_sound _)).
    + split; intros [H|[H|[H|[]]]]; discriminate H.
    + vm_compute. reflexivity.
Defined.

Lemma forced_well_formed :
  endpoints_known forced /\ caps_known forced
  /\ (forall e, In e (edges forced) -> lo_of e <= e_hi e).
Proof.
  split; [|split].
  - intros e [<-|[<-|[]]]; simpl; auto.
  - intros nc [<-|[]]; simpl; auto.
  - intros e [<-|[<-|[]]]; vm_compute; discriminate.
Qed.

Lemma C4_witness :
  total_demand (init forced) == demand_above NUMERICAL_TOLERANCE (init forced)
  /\ ((exists m flows,
         solve (const_flow 10 forced_flow) (const_cut 0 [] [])
               (init forced) = ret (BOk m flows))
      <-> Qabs (10 - demand_above NUMERICAL_TOLERANCE (init forced))
          <= NUMERICAL_TOLERANCE)
  /\ ((exists cr d tn te,
         solve (const_flow 10 forced_flow) (const_cut 0 [] [])
               (init forced) = ret (BInfeasible cr d tn te))
      <-> ~ Qabs (10 - demand_above NUMERICAL_TOLERANCE (init forced))
            <= NUMERICAL_TOLERANCE).
Proof.
  exact (C4_ok_iff_flow_meets_demand
           (const_flow 10 forced_flow) (const_cut 0 [] []) forced
           10 forced_flow (0, ([], []))
           (proj1 forced_well_formed)
           (proj1 (proj2 forced_well_formed))
           (proj2 (proj2 forced_well_formed))
           eq_refl eq_refl).
Defined.

(** C4 as stated fails: no capacity leaves the super-source, so the
    maximum flow is 0; the requirements above 0 add up to one and a half
    tolerances; yet [solve] answers [ok]. *)
Lemma C4_counterexample :
  source_capacity (aux_network (init trickle)) SUPER_SOURCE == 0
  /\ valid_flow (aux_network (init trickle)) SUPER_SOURCE SUPER_SINK 0 []
     = true
  /\ (exists m flows,
        solve (const_flow 0 []) no_cut_kernel (init trickle)
        = ret (BOk m flows))
  /\ ~ Qabs (0 - demand_above 0 (init trickle)) <= NUMERICAL_TOLERANCE.
Proof.
  split; [vm_compute; reflexivity|]. split; [vm_compute; reflexivity|].
  split.
  - eexists. eexists. vm_compute. reflexivity.
  - intro H. vm_compute in H. now apply H.
Qed.

Ltac evaluate_network data :=
  let g := eval vm_compute in (aux_network (init data)) in
  change (aux_network (init data)) with g in *.

(** C2 as stated fails: the sink is listed in [cut_reachable]; and every
    cut of this network that is as small as the maximum flow has the sink
    on its source side, so no other sound kernel would leave it out. *)
Lemma C2_counterexample :
  valid_flow (aux_network (init starved)) SUPER_SOURCE SUPER_SINK
             5 starved_flow = true
  /\ valid_min_cut (aux_network (init starved)) SUPER_SOURCE SUPER_SINK 5
                   (5, (starved_side_s, starved_side_t)) = true
  /\ solve (checked_flow (const_flow 5 starved_flow))
           (const_cut 5 starved_side_s starved_side_t) (init starved)
     = ret (BInfeasible ["s"; "sink"] 5 [] [])
  /\ In (sink starved) ["s"; "sink"]
  /\ (forall side : list string,
        str_in SUPER_SOURCE side = true -> str_in SUPER_SINK side = false ->
        cut_capacity (aux_network (init starved)) side <= 5 ->
        In "sink" side).
Proof.
  split; [vm_compute; reflexivity|]. split; [vm_compute; reflexivity|].
  split; [vm_compute; reflexivity|]. split; [right; now left|].
  intros side Hs Ht Hcut. apply str_in_iff.
  evaluate_network starved. unfold cut_capacity in Hcut.
  cbn [g_arcs map fst snd] in Hcut.
  change "__SUPER_SRC__" with SUPER_SOURCE in Hcut.
  change "__SUPER_SNK__" with SUPER_SINK in Hcut.
  rewrite Hs, Ht in Hcut.
  destruct (str_in "sink" side); [reflexivity|]. exfalso.
  destruct (str_in "s" side); destruct (str_in "d" side);
    vm_compute in Hcut; now apply Hcut.
Qed.

(** The same for a source: [v] has a positive supply and no path to the
    sink, and it is not listed; every cut as small as the maximum flow
    leaves it on the sink side. *)
Lemma absorbed_source_left_out :
  valid_flow (aux_network (init absorbed)) SUPER_SOURCE SUPER_SINK
             10 absorbed_flow = true
  /\ valid_min_cut (aux_network (init absorbed)) SUPER_SOURCE SUPER_SINK 10
                   (10, (absorbed_side_s, absorbed_side_t)) = true
  /\ solve (checked_flow (const_flow 10 absorbed_flow))
           (const_cut 10 absorbed_side_s absorbed_side_t) (init absorbed)
     = ret (BInfeasible ["e"; "x"] 25 [] [])
  /\ (forall side : list string,
        str_in SUPER_SOURCE side = true -> str_in SUPER_SINK side = false ->
        cut_capacity (aux_network (init absorbed)) side <= 10 ->
        ~ In "v" side).
Proof.
  split; [vm_compute; reflexivity|]. split; [vm_compute; reflexivity|].
  split; [vm_compute; reflexivity|].
  intros side Hs Ht Hcut. apply str_in_false_iff.
  evaluate_network absorbed. unfold cut_capacity in Hcut.
  cbn [g_arcs map fst snd] in Hcut.
  change "__SUPER_SRC__" with SUPER_SOURCE in Hcut.
  change "__SUPER_SNK__" with SUPER_SINK in Hcut.
  rewrite Hs, Ht in Hcut.
  destruct (str_in "v" side); [|reflexivity]. exfalso.
  destruct (str_in "d" side); destruct (str_in "e" side);
    destruct (str_in "x" side); destruct (str_in "sink" side);
    vm_compute in Hcut; now apply Hcut.
Qed.

(** Why the statements ask that the declared nodes avoid the reserved
    names and that the endpoints be declared. *)
Lemma reserved_name_breaks_bounds :
  valid_flow (aux_network (init shadowed)) SUPER_SOURCE SUPER_SINK
             5 shadowed_flow = true
  /\ exists m flows fe,
       solve (checked_flow (const_flow 5 shadowed_flow)) no_cut_kernel
             (init shadowed) = ret (BOk m flows)
       /\ In fe flows /\ fe_from fe = SUPER_SOURCE /\ fe_to fe = "a"
       /\ ~ fe_flow fe <= 1.
Proof.
  split; [vm_compute; reflexivity|].
  eexists. eexists. eexists.
  split; [vm_compute; reflexivity|]. split; [now left|].
  split; [reflexivity|]. split; [reflexivity|].
  intro H. vm_compute in H. now apply H.
Qed.

Lemma reserved_name_negative_deficit :
  valid_flow (aux_network (init ghost_supply)) SUPER_SOURCE SUPER_SINK
             5 ghost_flow = true
  /\ exists cr d tn te,
       solve (checked_flow (const_flow 5 ghost_flow))
             (const_cut 5 ["__SUPER_SRC__"; "sink"] ["__SUPER_SNK__"])
             (init ghost_supply) = ret (BInfeasible cr d tn te)
       /\ d < 0.
Proof.
  split; [vm_compute; reflexivity|].
  eexists. eexists. eexists. eexists.
  split; [vm_compute; reflexivity|]. reflexivity.
Qed.

Lemma undeclared_endpoint_raises_first :
  find hi_below_lo (edges undeclared) = Some inverted_arc
  /\ solve no_flow_kernel no_cut_kernel (init undeclared)
     = raise (KeyError "x").
Proof. split; reflexivity. Qed.

End BeltsProps.

(* ================================================================== *)
(** * Properties of the factory core *)

Module FactoryProps.
Import Factory.

(** ** Effective crafts and the zero time *)

Lemma crafts_fold_raised (d : factory_data) (l : list (string * recipe))
    (e : exn) :
  fold_left (crafts_step d) l (inl e) = inl e.
Proof. induction l as [|nr l IH]; simpl; [reflexivity | exact IH]. Qed.

Lemma crafts_fold_zero_time (d : factory_data) (l : list (string * recipe))
    (name : string) (r : recipe) :
  In (name, r) l -> r_time_s r == 0 ->
  forall acc,
    (forall e, acc = inl e -> raised_at_init e) ->
    exists e, fold_left (crafts_step d) l acc = inl e /\ raised_at_init e.
Proof.
  intros Hin Hzero. induction l as [|nr l IH]; [destruct Hin|].
  intros acc Hacc. simpl.
  destruct Hin as [->|Hin].
  - assert (Hstep : exists e, crafts_step d acc (name, r) = inl e
                              /\ raised_at_init e).
    { unfold crafts_step. destruct acc as [e|ec]; simpl; [eauto|].
      unfold sindex. destruct (sget (machines d) (r_machine r)); simpl.
      - unfold div_py. apply Qeq_bool_iff in Hzero. rewrite Hzero.
        exists ZeroDivisionError. split; [reflexivity | now left].
      - eexists. split; [reflexivity|]. right. eauto. }
    destruct Hstep as (e & -> & He). rewrite crafts_fold_raised. eauto.
  - apply IH; [exact Hin|].
    intros e He. unfold crafts_step in He.
    destruct acc as [e0|ec]; simpl in He.
    + inversion He. subst. now apply Hacc.
    + unfold sindex in He.
      destruct (sget (machines d) (r_machine (snd nr))); simpl in He.
      * unfold div_py in He. destruct (Qeq_bool _ _); simpl in He.
        -- inversion He. now left.
        -- discriminate.
      * inversion He. right. eauto.
Qed.

(** C10: a recipe with [time_s = 0] makes [__init__] raise (the division
    by zero, or the [KeyError] of an unknown machine met before it), and
    [main] turns that into an error response: never [ok], never
    [infeasible], whatever the LP kernel is. *)
Theorem C10_zero_time_is_error (linprog : lp_kernel) (d : factory_data)
    (name : string) (r : recipe) :
  In (name, r) (recipes d) -> r_time_s r == 0 ->
  exists msg, main linprog d = FError msg
              /\ (msg = "float division by zero"
                  \/ exists k, msg = ("'" ++ k ++ "'")%string).
Proof.
  intros Hin Hzero.
  destruct (crafts_fold_zero_time d (recipes d) name r Hin Hzero (ret []))
    as (e & He & Hr); [discriminate|].
  unfold main, init.
  unfold calculate_effective_crafts. rewrite He. cbn [bind]. exists (exn_message e). split; [reflexivity|].
  destruct Hr as [->|[k ->]]; simpl; eauto.
Qed.

(** ** Sums over the recipes *)

Lemma combine_map_map {A B C} (f : A -> B) (g : A -> C) (l : list A) :
  combine (map f l) (map g l) = map (fun a => (f a, g a)) l.
Proof. induction l as [|a l IH]; simpl; [reflexivity | now rewrite IH]. Qed.

Lemma dot_cons (a x : Q) (row xs : list Q) :
  dot (a :: row) (x :: xs) == a * x + dot row xs.
Proof. unfold dot. simpl. apply Qsum_cons. Qed.

Lemma dot_indexed (coef : string -> Q) (l : list string) (pre xs : list Q) :
  List.length xs = List.length l ->
  dot (map coef l) xs
  == Qsum (map (fun ir => coef (snd ir) * nth (fst ir) (pre ++ xs) 0)
               (combine (seq (List.length pre) (List.length l)) l)).
Proof.
  revert pre xs. induction l as [|r l IH]; intros pre xs Hlen.
  - reflexivity.
  - destruct xs as [|x xs]; [discriminate|]. simpl in Hlen.
    simpl map. simpl combine. rewrite dot_cons. simpl map.
    rewrite Qsum_cons. simpl fst. simpl snd.
    rewrite app_nth2 by lia. rewrite Nat.sub_diag. simpl nth.
    rewrite (IH (pre ++ [x]) xs) by lia.
    rewrite <- app_assoc. simpl app.
    replace (List.length (pre ++ [x])) with (S (List.length pre))
      by (rewrite length_app; simpl; lia).
    reflexivity.
Qed.

Lemma dot_weighted (self : FactorySolver) (coef : string -> Q)
    (xs : list Q) :
  List.length xs = List.length (recipe_list self) ->
  dot (map coef (recipe_list self)) xs == weighted self coef xs.
Proof. intro H. apply (dot_indexed coef (recipe_list self) [] xs H). Qed.

Lemma Qsum_map_ext {A} (f g : A -> Q) (l : list A) :
  (forall a, In a l -> f a == g a) -> Qsum (map f l) == Qsum (map g l).
Proof.
  intro H. apply Qle_antisym; apply Qsum_map_le; intros a Ha;
    rewrite (H a Ha); lra.
Qed.

Lemma Qsum_map_opp {A} (f : A -> Q) (l : list A) :
  Qsum (map (fun a => - f a) l) == - Qsum (map f l).
Proof.
  induction l as [|a l IH]; simpl.
  - reflexivity.
  - rewrite !Qsum_cons, IH. lra.
Qed.

Lemma weighted_ext (self : FactorySolver) (f g : string -> Q)
    (xs : list Q) :
  (forall r, f r == g r) -> weighted self f xs == weighted self g xs.
Proof.
  intro H. unfold weighted. apply Qsum_map_ext. intros ir _.
  now rewrite H.
Qed.

Lemma weighted_opp (self : FactorySolver) (f : string -> Q) (xs : list Q) :
  weighted self (fun r => - f r) xs == - weighted self f xs.
Proof.
  unfold weighted. rewrite <- Qsum_map_opp. apply Qsum_map_ext.
  intros ir _. lra.
Qed.


(** ** Loops that may raise *)

Lemma mapM_inv {A B} (f : A -> result B) (l : list A) (l' : list B) :
  mapM f l = ret l' -> Forall2 (fun a b => f a = ret b) l l'.
Proof.
  revert l'. induction l as [|a l IH]; intros l' H; simpl in H.
  - inversion H. constructor.
  - destruct (f a) as [e|b] eqn:Ea; [discriminate|]. cbn [bind] in H.
    destruct (mapM f l) as [e|bs]; [discriminate|]. cbn [bind] in H.
    inversion H. constructor; [exact Ea | now apply IH].
Qed.

Lemma mapM_inv_map {A B} (f : A -> result B) (g : A -> B) (l : list A)
    (l' : list B) :
  (forall a b, In a l -> f a = ret b -> b = g a) ->
  mapM f l = ret l' -> l' = map g l.
Proof.
  intros Hg H. apply mapM_inv in H.
  induction H as [|a b l l' Hab _ IH]; [reflexivity|].
  simpl. f_equal.
  - apply Hg; [now left | exact Hab].
  - apply IH. intros a' b' Ha'. apply Hg. now right.
Qed.

Lemma mapM_length {A B} (f : A -> result B) (l : list A) (l' : list B) :
  mapM f l = ret l' -> List.length l' = List.length l.
Proof.
  intro H. apply mapM_inv in H. symmetry. exact (Forall2_length H).
Qed.

(** ** The inequality rows and what they say *)

Lemma le_boundb_iff (q : Q) (b : bound) :
  le_boundb q b = true <-> le_bound q b.
Proof.
  destruct b as [x|]; simpl; [apply Qle_bool_iff | intuition].
Qed.

Lemma le_bound_eq (q q' : Q) (b : bound) :
  q == q' -> le_bound q b -> le_bound q' b.
Proof. intros E. destruct b as [x|]; simpl; [lra | auto]. Qed.

Lemma machines_per_craft_value (self : FactorySolver) (r : string) (q : Q) :
  machines_per_craft self r = ret q ->
  q = 1 / effective_crafts self r /\ ~ effective_crafts self r == 0.
Proof.
  unfold machines_per_craft, sindex, effective_crafts, sget_or, dict_get_or.
  fold (@sget Q). destruct (sget (effective_crafts_per_min self) r) as [e|];
    [|discriminate].
  cbn [bind ret]. unfold div_py. destruct (Qeq_bool e 0) eqn:E; [discriminate|].
  intro H. inversion H. split; [reflexivity|].
  intro Hz. apply Qeq_bool_iff in Hz. congruence.
Qed.

Lemma machine_cap_rows_value (self : FactorySolver)
    (mrows : list constraint_row) :
  machine_cap_rows self = ret mrows ->
  mrows = map (machine_row self) (machine_type_list self).
Proof.
  unfold machine_cap_rows. apply mapM_inv_map.
  intros M row _ H.
  destruct (mapM _ (recipe_list self)) as [e|coefs] eqn:E; [discriminate|].
  cbn [bind ret] in H. inversion H. unfold machine_row. f_equal. f_equal.
  revert E. apply mapM_inv_map. intros r q _ Hq.
  unfold machine_coefficient.
  destruct (r_machine (recipe_of self r) =? M)%string.
  - now apply machines_per_craft_value in Hq.
  - now inversion Hq.
Qed.

Lemma build_inequality_constraints_value (self : FactorySolver)
    (A_ub : matrix) (b_ub : list bound) (infos : list constraint_info) :
  build_inequality_constraints self = ret (A_ub, b_ub, infos) ->
  A_ub = map (fun r => fst (fst r)) (inequality_rows self)
  /\ b_ub = map (fun r => snd (fst r)) (inequality_rows self)
  /\ infos = map snd (inequality_rows self).
Proof.
  unfold build_inequality_constraints.
  destruct (machine_cap_rows self) as [e|mrows] eqn:E; [discriminate|].
  cbn [bind ret]. apply machine_cap_rows_value in E. subst mrows.
  intro H. inversion H. auto.
Qed.

Lemma rows_hold_iff (rows : list constraint_row) (xs : list Q) :
  rows_hold (map (fun r => fst (fst r)) rows)
            (map (fun r => snd (fst r)) rows) xs = true
  <-> forall r, In r rows -> le_bound (dot (fst (fst r)) xs) (snd (fst r)).
Proof.
  unfold rows_hold. rewrite combine_map_map, forallb_forall. split.
  - intros H r Hr. apply le_boundb_iff.
    apply (H (fst (fst r), snd (fst r))). apply in_map_iff. eauto.
  - intros H rb Hrb. apply in_map_iff in Hrb. destruct Hrb as (r & <- & Hr).
    apply le_boundb_iff. simpl. now apply H.
Qed.

Lemma inequality_rows_hold (self : FactorySolver) (xs : list Q) :
  List.length xs = List.length (recipe_list self) ->
  (forall r, In r (inequality_rows self) ->
             le_bound (dot (fst (fst r)) xs) (snd (fst r)))
  <-> caps_hold self xs.
Proof.
  intro Hlen. unfold inequality_rows, caps_hold. split.
  - intro H. split.
    + intros M HM.
      assert (Hin : In (machine_row self M)
                       (map (machine_row self) (machine_type_list self)
                        ++ raw_supply_rows self
                        ++ raw_nonproduction_rows self))
        by (apply in_or_app; left; now apply in_map).
      apply H in Hin. simpl in Hin.
      eapply le_bound_eq; [|exact Hin]. now apply dot_weighted.
    + intros m Hm. split.
      * assert (Hin : In (map (fun r => input_amount self r m
                                        - output_amount self r m)
                              (recipe_list self),
                          limit_of (raw_supply_per_min (data self)) m,
                          mk_info "raw_net_nonpos" m)
                         (map (machine_row self) (machine_type_list self)
                          ++ raw_supply_rows self
                          ++ raw_nonproduction_rows self)).
        { apply in_or_app; right. apply in_or_app; left.
          unfold raw_supply_rows. apply in_map_iff. eauto. }
        apply H in Hin. simpl in Hin.
        eapply le_bound_eq; [|exact Hin]. now apply dot_weighted.
      * assert (Hin : In (map (fun r => output_amount self r m
                                        - input_amount self r m)
                              (recipe_list self),
                          Fin 0, mk_info "raw_cap" m)
                         (map (machine_row self) (machine_type_list self)
                          ++ raw_supply_rows self
                          ++ raw_nonproduction_rows self)).
        { apply in_or_app; right. apply in_or_app; right.
          unfold raw_nonproduction_rows. apply in_map_iff. eauto. }
        apply H in Hin. simpl in Hin.
        rewrite (dot_weighted self _ xs Hlen) in Hin. exact Hin.
  - intros [HM Hraw] r Hr.
    apply in_app_or in Hr. destruct Hr as [Hr|Hr].
    + apply in_map_iff in Hr. destruct Hr as (M & <- & HM'). simpl.
      eapply le_bound_eq; [|exact (HM M HM')].
      symmetry. now apply dot_weighted.
    + apply in_app_or in Hr. destruct Hr as [Hr|Hr].
      * unfold raw_supply_rows in Hr. apply in_map_iff in Hr.
        destruct Hr as (m & <- & Hm). simpl.
        eapply le_bound_eq; [|exact (proj1 (Hraw m Hm))].
        symmetry. now apply dot_weighted.
      * unfold raw_nonproduction_rows in Hr. apply in_map_iff in Hr.
        destruct Hr as (m & <- & Hm). simpl.
        rewrite (dot_weighted self _ xs Hlen). exact (proj2 (Hraw m Hm)).
Qed.

(** ** The [ok] answer *)

Lemma factory_solve_ok_inv (linprog : lp_kernel) (self : FactorySolver)
    (pr pm rc : list (string * Q)) :
  solve linprog self = ret (FOk pr pm rc) ->
  exists c A_ub b_ub infos r xs,
    build_objective_function self = ret c
    /\ build_inequality_constraints self = ret (A_ub, b_ub, infos)
    /\ linprog c A_ub b_ub (Some (fst (build_equality_constraints self)))
               (Some (snd (build_equality_constraints self))) = inr r
    /\ lp_success r = true /\ lp_x r = Some xs
    /\ FOk pr pm rc = format_success_output self xs.
Proof.
  unfold solve.
  destruct (build_objective_function self) as [e|c]; [discriminate|].
  cbn [bind].
  destruct (build_inequality_constraints self) as [e|[[A_ub b_ub] infos]];
    [discriminate|].
  cbn [bind].
  destruct (build_equality_constraints self) as [A_eq b_eq]. cbn [fst snd].
  unfold call_linprog.
  destruct (linprog c A_ub b_ub (Some A_eq) (Some b_eq)) as [msg|r] eqn:K;
    [discriminate|].
  cbn [bind ret].
  destruct (lp_success r) eqn:S.
  - destruct (lp_x r) as [xs|] eqn:X; [|discriminate].
    intro H.
    assert (H' : FOk pr pm rc = format_success_output self xs)
      by (unfold ret in H; congruence).
    exists c, A_ub, b_ub, infos, r, xs.
    split; [reflexivity|]. split; [reflexivity|]. split; [exact K|].
    split; [exact S|]. split; [exact X | exact H'].
  - destruct (maximize_target linprog self A_ub b_ub) as [e|[[mt fr]|]];
      cbn [bind]; discriminate.
Qed.

Lemma factory_main_ok_inv (linprog : lp_kernel) (d : factory_data)
    (pr pm rc : list (string * Q)) :
  main linprog d = FOk pr pm rc ->
  exists self, init d = ret self /\ solve linprog self = ret (FOk pr pm rc).
Proof.
  unfold main. destruct (init d) as [e|self]; cbn [bind]; [discriminate|].
  destruct (solve linprog self) as [e|out] eqn:E; [discriminate|].
  intros ->. exists self. split; [reflexivity | exact E].
Qed.

Lemma init_data (d : factory_data) (self : FactorySolver) :
  init d = ret self -> data self = d.
Proof.
  unfold init. destruct (calculate_effective_crafts d); [discriminate|].
  cbn [bind ret]. intro H. inversion H. reflexivity.
Qed.


Lemma lp_feasible_parts (n : nat) (A_ub : matrix) (b_ub : list bound)
    (A_eq : option matrix) (b_eq : option (list Q)) (xs : list Q) :
  lp_feasible n A_ub b_ub A_eq b_eq xs = true <->
  List.length xs = n /\ (forall x, In x xs -> 0 <= x)
  /\ rows_hold A_ub b_ub xs = true /\ rows_equal A_eq b_eq xs = true.
Proof.
  unfold lp_feasible. rewrite !andb_true_iff, Nat.eqb_eq, forallb_forall.
  split.
  - intros [[[Hl Hx] Hr] He]. repeat split; auto.
    intros x Hin. apply Qle_bool_iff. auto.
  - intros (Hl & Hx & Hr & He). repeat split; auto.
    intros x Hin. apply Qle_bool_iff. auto.
Qed.



(** ** The classes of materials *)

Lemma init_fields (d : factory_data) (self : FactorySolver) :
  init d = ret self ->
  data self = d
  /\ recipe_list self = sorted_strings (map fst (recipes d))
  /\ raw_materials self
     = sorted_set (filter (fun m => negb (str_in m (all_output_materials d)))
                          (all_input_materials d))
  /\ intermediate_materials self
     = sorted_set (filter (fun m => str_in m (all_output_materials d))
                          (all_input_materials d))
  /\ all_materials self
     = sorted_set (all_input_materials d ++ all_output_materials d).
Proof.
  unfold init. destruct (calculate_effective_crafts d); [discriminate|].
  cbn [bind ret]. intro H. inversion H. simpl. auto.
Qed.

Lemma raw_materials_iff (d : factory_data) (self : FactorySolver)
    (m : string) :
  init d = ret self ->
  (In m (raw_materials self) <->
   In m (all_input_materials d) /\ ~ In m (all_output_materials d)).
Proof.
  intro H. destruct (init_fields d self H) as (_ & _ & -> & _).
  rewrite sorted_set_In, filter_In, negb_true_iff, str_in_false_iff.
  reflexivity.
Qed.

Lemma intermediate_materials_iff (d : factory_data) (self : FactorySolver)
    (m : string) :
  init d = ret self ->
  (In m (intermediate_materials self) <->
   In m (all_input_materials d) /\ In m (all_output_materials d)).
Proof.
  intro H. destruct (init_fields d self H) as (_ & _ & _ & -> & _).
  rewrite sorted_set_In, filter_In, str_in_iff. reflexivity.
Qed.

Lemma all_materials_iff (d : factory_data) (self : FactorySolver)
    (m : string) :
  init d = ret self ->
  (In m (all_materials self) <->
   In m (all_input_materials d) \/ In m (all_output_materials d)).
Proof.
  intro H. destruct (init_fields d self H) as (_ & _ & _ & _ & ->).
  rewrite sorted_set_In. apply in_app_iff.
Qed.


(** ** The equality rows of the fallback LP *)

Lemma nonempty_rows_equal {A} (f : A -> list Q) (g : A -> Q) (l : list A)
    (xs : list Q) :
  rows_equal (nonempty (map f l)) (nonempty (map g l)) xs = true
  <-> forall a, In a l -> dot (f a) xs == g a.
Proof.
  destruct l as [|a0 l].
  - simpl. split; [intros _ a [] | reflexivity].
  - change (nonempty (map f (a0 :: l))) with (Some (map f (a0 :: l))).
    change (nonempty (map g (a0 :: l))) with (Some (map g (a0 :: l))).
    unfold rows_equal. rewrite combine_map_map, forallb_forall. split.
    + intros H a Ha. apply Qeq_bool_iff.
      apply (H (f a, g a)). apply in_map_iff. eauto.
    + intros H rb Hrb. apply in_map_iff in Hrb.
      destruct Hrb as (a & <- & Ha). apply Qeq_bool_iff. simpl. auto.
Qed.

Lemma fallback_rows_equal (self : FactorySolver) (xs : list Q) :
  List.length xs = List.length (recipe_list self) ->
  (rows_equal (nonempty (fallback_equality_rows self))
              (nonempty (fallback_equality_rhs self)) xs = true
   <-> balanced self (fallback_materials self) xs).
Proof.
  intro Hlen. unfold fallback_equality_rows, fallback_equality_rhs, balanced.
  rewrite nonempty_rows_equal. split; intros H m Hm.
  - rewrite <- (H m Hm). symmetry. now apply dot_weighted.
  - rewrite <- (H m Hm). now apply dot_weighted.
Qed.


(** ** The fallback LP *)

Lemma achieved_target_value (self : FactorySolver) (xs : list Q) :
  achieved_target self xs
  == net_production self (target_item (data self)) xs.
Proof.
  unfold achieved_target, net_production, weighted.
  assert (E : forall l a,
             fold_left
               (fun acc '(recipe_idx, recipe_name) =>
                  acc + net_target_coefficient self recipe_name
                        * nth recipe_idx xs 0) l a
             == a + Qsum (map (fun ir : nat * string =>
                                 net_out self (snd ir)
                                         (target_item (data self))
                                 * nth (fst ir) xs 0) l)).
  { induction l as [|[i r] l IH]; intro a; simpl.
    - rewrite Qsum_nil. lra.
    - rewrite IH, Qsum_cons. simpl. unfold net_target_coefficient, net_out.
      lra. }
  rewrite E. lra.
Qed.

Lemma fallback_objective_value (self : FactorySolver) (xs : list Q) :
  List.length xs = List.length (recipe_list self) ->
  dot (fallback_objective self) xs
  == - net_production self (target_item (data self)) xs.
Proof.
  intro Hlen. unfold fallback_objective.
  rewrite (dot_weighted self _ xs Hlen). unfold net_production.
  rewrite <- weighted_opp. apply weighted_ext. intro r.
  unfold net_target_coefficient, net_out. lra.
Qed.

Lemma fallback_objective_length (self : FactorySolver) :
  List.length (fallback_objective self) = List.length (recipe_list self).
Proof. unfold fallback_objective. apply length_map. Qed.

(** The rows handed to the kernel say exactly [fallback_feasible]. *)
Lemma fallback_lp_feasible (self : FactorySolver) (A_ub : matrix)
    (b_ub : list bound) (infos : list constraint_info) (xs : list Q) :
  build_inequality_constraints self = ret (A_ub, b_ub, infos) ->
  (lp_feasible (List.length (fallback_objective self)) A_ub b_ub
               (nonempty (fallback_equality_rows self))
               (nonempty (fallback_equality_rhs self)) xs = true
   <-> fallback_feasible self xs).
Proof.
  intro Hineq. rewrite lp_feasible_parts, fallback_objective_length.
  apply build_inequality_constraints_value in Hineq.
  destruct Hineq as (-> & -> & _). unfold fallback_feasible, activities.
  split.
  - intros (Hl & Hx & Hr & He). split; [split; assumption|]. split.
    + apply inequality_rows_hold; [exact Hl|]. now apply rows_hold_iff.
    + now apply fallback_rows_equal.
  - intros ((Hl & Hx) & Hc & Hb). split; [exact Hl|]. split; [exact Hx|].
    split.
    + apply rows_hold_iff. now apply inequality_rows_hold.
    + now apply fallback_rows_equal.
Qed.

Lemma solve_fallback (linprog : lp_kernel) (self : FactorySolver)
    (c : list Q) (A_ub : matrix) (b_ub : list bound)
    (infos : list constraint_info) (primary fallback : lp_result)
    (xs : list Q) :
  build_objective_function self = ret c ->
  build_inequality_constraints self = ret (A_ub, b_ub, infos) ->
  linprog c A_ub b_ub (Some (fst (build_equality_constraints self)))
          (Some (snd (build_equality_constraints self))) = inr primary ->
  lp_success primary = false ->
  target_item (data self) <> EmptyString ->
  linprog (fallback_objective self) A_ub b_ub
          (nonempty (fallback_equality_rows self))
          (nonempty (fallback_equality_rhs self)) = inr fallback ->
  lp_success fallback = true -> lp_x fallback = Some xs ->
  solve linprog self
  = ret (FInfeasible (achieved_target self xs)
           (get_bottleneck_hints self fallback infos A_ub b_ub)).
Proof.
  intros Hobj Hineq Hp Hps Ht Hf Hfs Hfx. unfold solve.
  rewrite Hobj, Hineq. cbn [bind ret].
  destruct (build_equality_constraints self) as [A_eq b_eq].
  cbn [fst snd] in Hp. unfold call_linprog. rewrite Hp. cbn [bind ret].
  rewrite Hps. unfold maximize_target.
  apply String.eqb_neq in Ht. rewrite Ht.
  unfold call_linprog. rewrite Hf. cbn [bind ret].
  rewrite Hfs, Hfx. reflexivity.
Qed.

(** C3, as the code has it: when the primary LP fails and the target is
    named, the secondary LP keeps the inequality rows and balances every
    material that is neither raw nor the target (intermediates and
    by-products alike); it maximises the net production of the target, and
    the reported [max_feasible_target_per_min] is the net target production
    of the kernel's optimum, the largest over that feasible set. *)
Theorem C3_fallback_maximises (linprog : lp_kernel) (self : FactorySolver)
    (c : list Q) (A_ub : matrix) (b_ub : list bound)
    (infos : list constraint_info) (primary fallback : lp_result)
    (xs : list Q) :
  build_objective_function self = ret c ->
  build_inequality_constraints self = ret (A_ub, b_ub, infos) ->
  linprog c A_ub b_ub (Some (fst (build_equality_constraints self)))
          (Some (snd (build_equality_constraints self))) = inr primary ->
  lp_success primary = false ->
  target_item (data self) <> EmptyString ->
  linprog (fallback_objective self) A_ub b_ub
          (nonempty (fallback_equality_rows self))
          (nonempty (fallback_equality_rhs self)) = inr fallback ->
  lp_success fallback = true -> lp_x fallback = Some xs ->
  lp_optimum (fallback_objective self) A_ub b_ub
             (nonempty (fallback_equality_rows self))
             (nonempty (fallback_equality_rhs self)) xs ->
  exists hints,
    solve linprog self = ret (FInfeasible (achieved_target self xs) hints)
    /\ achieved_target self xs
       == net_production self (target_item (data self)) xs
    /\ fallback_feasible self xs
    /\ forall ys, fallback_feasible self ys ->
         net_production self (target_item (data self)) ys
         <= achieved_target self xs.
Proof.
  intros Hobj Hineq Hp Hps Ht Hf Hfs Hfx [Hfeas Hopt].
  exists (get_bottleneck_hints self fallback infos A_ub b_ub).
  split; [now apply (solve_fallback linprog self c A_ub b_ub infos
                       primary fallback xs)|].
  split; [apply achieved_target_value|].
  pose proof (proj1 (fallback_lp_feasible self A_ub b_ub infos xs Hineq)
                    Hfeas) as Hxs.
  split; [exact Hxs|].
  intros ys Hys.
  pose proof (proj2 (fallback_lp_feasible self A_ub b_ub infos ys Hineq)
                    Hys) as Hys'.
  apply Hopt in Hys'.
  rewrite (fallback_objective_value self xs (proj1 (proj1 Hxs))) in Hys'.
  rewrite (fallback_objective_value self ys (proj1 (proj1 Hys))) in Hys'.
  rewrite achieved_target_value. lra.
Qed.

(** ** The hints and the rows they label *)

Lemma checked_lp_sound (k : lp_kernel) : lp_kernel_sound (checked_lp k).
Proof.
  intros c A_ub b_ub A_eq b_eq r xs. unfold checked_lp.
  destruct (k c A_ub b_ub A_eq b_eq) as [msg|r']; [discriminate|].
  destruct (lp_success r') eqn:S.
  - destruct (lp_x r') as [xs'|] eqn:X.
    + destruct (lp_feasible _ _ _ _ _ xs') eqn:F; [|discriminate].
      intros H Hs Hx. inversion H. subst r'. rewrite X in Hx.
      inversion Hx. subst. exact F.
    + intros H Hs Hx. inversion H. subst r'. congruence.
  - intros H Hs Hx. inversion H. subst r'. congruence.
Qed.

(** What each kind of row is called when it binds: the supply row of a raw
    material carries the type [raw_net_nonpos] and so the words "production
    restriction"; its non-production row carries [raw_cap] and so the word
    "supply". *)
Lemma row_hints (self : FactorySolver) :
  (forall M, hint_of (snd (machine_row self M)) = (M ++ " cap")%string)
  /\ (forall r, In r (raw_supply_rows self) ->
        exists m, In m (raw_materials self)
                  /\ snd (fst r)
                     = limit_of (raw_supply_per_min (data self)) m
                  /\ hint_of (snd r) = (m ++ " production restriction")%string)
  /\ (forall r, In r (raw_nonproduction_rows self) ->
        exists m, In m (raw_materials self)
                  /\ snd (fst r) = Fin 0
                  /\ hint_of (snd r) = (m ++ " supply")%string).
Proof.
  split; [intro M; reflexivity|]. split; intros r Hr.
  - unfold raw_supply_rows in Hr. apply in_map_iff in Hr.
    destruct Hr as (m & <- & Hm). exists m. auto.
  - unfold raw_nonproduction_rows in Hr. apply in_map_iff in Hr.
    destruct Hr as (m & <- & Hm). exists m. auto.
Qed.

Lemma unique_in_order_In (h : string) (l : list string) :
  In h (unique_in_order l) <-> In h l.
Proof.
  unfold unique_in_order. rewrite <- in_rev.
  assert (Hgen : forall l seen,
            In h (fold_left (fun seen hint =>
                               if str_in hint seen then seen
                               else hint :: seen) l seen)
            <-> In h seen \/ In h l).
  { clear l. induction l as [|x l IH]; intro seen; simpl.
    - tauto.
    - rewrite IH. destruct (str_in x seen) eqn:E.
      + apply str_in_iff in E. split; [tauto|].
        intros [H|[<-|H]]; auto.
      + simpl. tauto. }
  rewrite Hgen. simpl. tauto.
Qed.

(** A row whose computed slack is within the tolerance yields its hint. *)
Lemma binding_row_hint (self : FactorySolver) (res : lp_result)
    (xs : list Q) (rows : list constraint_row) (r : constraint_row) :
  lp_x res = Some xs -> lp_slack res = None ->
  In r rows ->
  bound_leb (bound_sub (snd (fst r)) (dot (fst (fst r)) xs))
            (Qmax (numerical_tolerance self) (1 # 1000000)) = true ->
  In (hint_of (snd r))
     (get_bottleneck_hints self res (map snd rows)
        (map (fun r => fst (fst r)) rows) (map (fun r => snd (fst r)) rows)).
Proof.
  intros Hx Hs Hr Hb. unfold get_bottleneck_hints. rewrite Hx, Hs.
  apply unique_in_order_In. rewrite combine_map_map, map_map.
  rewrite combine_map_map. apply in_flat_map.
  exists (bound_sub (snd (fst r)) (dot (fst (fst r)) xs), snd r).
  split.
  - apply in_map_iff. exists r. auto.
  - rewrite Hb. now left.
Qed.

(** ** The statements at sample problems *)

Import FactorySamples.

Lemma C10_witness :
  In ("iron_gear", mk_recipe "assembler" 0 [("iron_plate", 2)]
                             [("iron_gear", 1)]) (recipes instant)
  /\ exists msg, main (const_lp lp_failure) instant = FError msg
                 /\ (msg = "float division by zero"
                     \/ exists k, msg = ("'" ++ k ++ "'")%string).
Proof.
  split; [now left|].
  apply (C10_zero_time_is_error (const_lp lp_failure) instant "iron_gear"
           (mk_recipe "assembler" 0 [("iron_plate", 2)] [("iron_gear", 1)])).
  - now left.
  - reflexivity.
Defined.



Ltac one_activity H ys y :=
  apply lp_feasible_parts in H;
  let Hl := fresh "Hl" in
  let Hx := fresh "Hx" in
  let Hr := fresh "Hr" in
  let He := fresh "He" in
  destruct H as (Hl & Hx & Hr & He);
  destruct ys as [|y [|? ?]]; try discriminate Hl;
  pose proof (Hx y (or_introl eq_refl)) as Hy0;
  unfold rows_hold in Hr; cbn [combine forallb fst snd] in Hr;
  unfold rows_equal in He; cbn [combine forallb fst snd] in He;
  repeat rewrite andb_true_iff in Hr;
  repeat rewrite andb_true_iff in He;
  unfold le_boundb, dot, Qsum in *;
  cbn [combine map fold_left fst snd] in *;
  repeat rewrite Qle_bool_iff in Hr;
  repeat rewrite Qeq_bool_iff in He.

Lemma capped_optimum :
  lp_optimum [-1] [[1 # 7200]; [2]; [-2]] [Fin 1; Fin 200; Fin 0]
             None None [100].
Proof.
  split; [vm_compute; reflexivity|].
  intros ys H. one_activity H ys y. lra.
Qed.

Lemma C3_witness :
  exists self,
    init capped = ret self
    /\ exists hints,
         solve (two_answers lp_failure capped_answer) self
         = ret (FInfeasible (achieved_target self [100]) hints)
         /\ achieved_target self [100]
            == net_production self (target_item (data self)) [100]
         /\ fallback_feasible self [100]
         /\ forall ys, fallback_feasible self ys ->
              net_production self (target_item (data self)) ys
              <= achieved_target self [100].
Proof.
  eexists. split; [vm_compute; reflexivity|].
  eapply (C3_fallback_maximises (two_answers lp_failure capped_answer)
            _ [1 # 7200] [[1 # 7200]; [2]; [-2]] [Fin 1; Fin 200; Fin 0]
            _ lp_failure capped_answer [100]).
  - vm_compute. reflexivity.
  - vm_compute. reflexivity.
  - reflexivity.
  - reflexivity.
  - discriminate.
  - reflexivity.
  - reflexivity.
  - reflexivity.
  - exact capped_optimum.
Defined.

Ltac by_computation :=
  vm_compute; try reflexivity; try (let Hc := fresh in intro Hc; discriminate Hc).

(** C3 as stated fails: with slag as a by-product, the vector [[100]]
    satisfies every constraint the specification lists for the secondary LP
    and yields 100 of the target, while the LP the code hands to the kernel
    also balances slag, has 0 as its optimum, and 0 is reported. *)
Lemma C3_counterexample :
  exists self,
    init slag_plant = ret self
    /\ build_inequality_constraints self
       = ret ([[1 # 3600]; [1]; [-1]], [Fin 1; Fin 100; Fin 0],
              [mk_info "machine_cap" "furnace";
               mk_info "raw_net_nonpos" "ore"; mk_info "raw_cap" "ore"])
    /\ fallback_equality_rows self = [[1]]
    /\ (forall ys, lp_feasible 1 [[1 # 3600]; [1]; [-1]]
                               [Fin 1; Fin 100; Fin 0]
                               (Some [[1]]) (Some [1000]) ys = false)
    /\ lp_optimum [-1] [[1 # 3600]; [1]; [-1]] [Fin 1; Fin 100; Fin 0]
                  (Some [[1]]) (Some [0]) [0]
    /\ main (checked_lp (by_objective lp_failure slag_answer)) slag_plant
       = FInfeasible 0 ["ore supply"]
    /\ spec_fallback_feasible self [100]
    /\ net_production self (target_item slag_plant) [100] == 100.
Proof.
  eexists. split; [vm_compute; reflexivity|].
  split; [vm_compute; reflexivity|]. split; [vm_compute; reflexivity|].
  split.
  { intro ys. destruct (lp_feasible _ _ _ _ _ ys) eqn:H; [|reflexivity].
    exfalso. one_activity H ys y. lra. }
  split.
  { split; [vm_compute; reflexivity|].
    intros ys H. one_activity H ys y. lra. }
  split; [vm_compute; reflexivity|].
  split; [|vm_compute; reflexivity].
  split; [|split].
  - split; [reflexivity|]. intros x [<-|[]]. by_computation.
  - split.
    + intros M [<-|[]]. by_computation.
    + intros m [<-|[]]. split; by_computation.
  - intros m [].
Qed.

(** C1 at the failing input: nothing can run, so the optimum of the
    fallback LP is zero activity; there the non-production row of
    iron_plate has slack 0 and its supply row has slack 200; the hints name
    the cap and "iron_plate supply", not "iron_plate production
    restriction". *)
Lemma C1_failing_input :
  main (two_answers lp_failure idle_answer) idle
  = FInfeasible 0 ["assembler cap"; "iron_plate supply"]
  /\ main (two_answers lp_failure idle_answer_no_slack) idle
     = FInfeasible 0 ["assembler cap"; "iron_plate supply"]
  /\ ~ In "iron_plate production restriction"
          ["assembler cap"; "iron_plate supply"]
  /\ exists self,
       init idle = ret self
       /\ build_inequality_constraints self
          = ret ([[1 # 7200]; [2]; [-2]], [Fin 0; Fin 200; Fin 0],
                 [mk_info "machine_cap" "assembler";
                  mk_info "raw_net_nonpos" "iron_plate";
                  mk_info "raw_cap" "iron_plate"])
       /\ In "iron_plate" (raw_materials self)
       /\ net_production self "iron_plate" [0] == 0
       /\ net_consumption self "iron_plate" [0] == 0
       /\ limit_of (raw_supply_per_min idle) "iron_plate" = Fin 200
       /\ (forall ys, lp_feasible 1 [[1 # 7200]; [2]; [-2]]
                                  [Fin 0; Fin 200; Fin 0]
                                  (Some [[1]]) (Some [10]) ys = false)
       /\ lp_optimum [-1] [[1 # 7200]; [2]; [-2]] [Fin 0; Fin 200; Fin 0]
                     None None [0]
       /\ (forall ys, lp_feasible 1 [[1 # 7200]; [2]; [-2]]
                                  [Fin 0; Fin 200; Fin 0] None None ys = true
                      -> exists y, ys = [y] /\ y == 0).
Proof.
  split; [vm_compute; reflexivity|]. split; [vm_compute; reflexivity|].
  split; [intros [H|[H|[]]]; discriminate H|].
  eexists. split; [vm_compute; reflexivity|].
  split; [vm_compute; reflexivity|]. split; [now left|].
  split; [vm_compute; reflexivity|]. split; [vm_compute; reflexivity|].
  split; [reflexivity|]. split.
  { intro ys. destruct (lp_feasible _ _ _ _ _ ys) eqn:H; [|reflexivity].
    exfalso. one_activity H ys y. lra. }
  split.
  { split; [vm_compute; reflexivity|].
    intros ys H. one_activity H ys y. lra. }
  intros ys H. one_activity H ys y. exists y. split; [reflexivity|]. lra.
Qed.

End FactoryProps.

(* ================================================================== *)
(** * Further properties of the belts core *)

Module BeltsMore.
Import Belts MoreNotions BeltsProps.

(** ** Sorted outputs *)

Section InsertionSort.
Context {A : Type} (le : A -> A -> bool).
Hypothesis le_total : forall a b, le a b = false -> le b a = true.

Lemma insert_sorted_Sorted (x : A) (l : list A) :
  Sorted (fun a b => le a b = true) l ->
  Sorted (fun a b => le a b = true) (insert_sorted le x l).
Proof.
  induction l as [|y l IH]; intro Hs; simpl.
  - repeat constructor.
  - destruct (le x y) eqn:E.
    + constructor; [exact Hs | constructor; exact E].
    + inversion Hs as [|? ? Hs' Hhd]. subst.
      constructor; [now apply IH|].
      destruct l as [|z l]; simpl.
      * constructor. now apply le_total.
      * destruct (le x z); constructor.
        -- now apply le_total.
        -- now inversion Hhd.
Qed.

Lemma sorted_Sorted (l : list A) :
  Sorted (fun a b => le a b = true) (sorted le l).
Proof.
  induction l as [|x l IH]; simpl; [constructor|].
  now apply insert_sorted_Sorted.
Qed.
End InsertionSort.

Lemma string_leb_total (a b : string) :
  String.leb a b = false -> String.leb b a = true.
Proof.
  intro H. destruct (String.leb_total a b) as [H'|H']; congruence.
Qed.

Lemma flow_key_le_total (a b : flow_entry) :
  flow_key_le a b = false -> flow_key_le b a = true.
Proof.
  unfold flow_key_le. rewrite (String.compare_antisym (fe_from a) (fe_from b)).
  destruct (String.compare (fe_from b) (fe_from a)); simpl.
  - apply string_leb_total.
  - reflexivity.
  - discriminate.
Qed.

Lemma sorted_strings_Sorted (l : list string) :
  Sorted string_order (sorted_strings l).
Proof. apply (sorted_Sorted String.leb string_leb_total). Qed.

Lemma sorted_set_NoDup (l : list string) : NoDup (sorted_set l).
Proof.
  unfold sorted_set, sorted_strings.
  apply (Permutation_NoDup (l := nodup string_dec l)).
  - apply Permutation_sym, sorted_perm.
  - apply NoDup_nodup.
Qed.

Lemma flat_map_length_le {A B} (f : A -> list B) (l : list A) :
  (forall a, (List.length (f a) <= 1)%nat) ->
  (List.length (flat_map f l) <= List.length l)%nat.
Proof.
  intro H. induction l as [|a l IH]; [simpl; lia|].
  cbn [flat_map]. rewrite length_app. specialize (H a). cbn [List.length].
  lia.
Qed.

Lemma final_flows_length (es : list edge) (orig : list Q) :
  (List.length (final_flows es orig) <= List.length es)%nat.
Proof.
  unfold final_flows, enumerate.
  eapply Nat.le_trans.
  - apply flat_map_length_le. intros [i e]. destruct (Qlt_bool _ _); simpl; lia.
  - rewrite length_combine, length_seq. lia.
Qed.

(** X1: On an [ok] answer the list of flows is in non-decreasing order of
    [(from, to)], every listed flow exceeds the tolerance [1e-9], and there
    are at most as many entries as arcs. *)
Theorem ok_flows_sorted_and_positive
    (maximum_flow : DiGraph -> string -> string -> string + (Q * flow_dict))
    (minimum_cut : DiGraph -> string -> string
                   -> string + (Q * (list string * list string)))
    (data : belts_data) (m : Q) (flows : list flow_entry) :
  solve maximum_flow minimum_cut (init data) = ret (BOk m flows) ->
  Sorted flow_key_order flows
  /\ (forall fe, In fe flows -> NUMERICAL_TOLERANCE < fe_flow fe)
  /\ (List.length flows <= List.length (edges data))%nat.
Proof.
  intro H. apply solve_ok_inv in H.
  destruct H as (mp & G & D & v & fd & _ & _ & _ & _ & _ & ->).
  split; [apply (sorted_Sorted flow_key_le flow_key_le_total)|]. split.
  - intros fe Hfe. apply sorted_In, final_flows_In in Hfe.
    destruct Hfe as (i & e & _ & Hlt & ->). exact Hlt.
  - rewrite (Permutation_length (sorted_perm flow_key_le _)).
    eapply Nat.le_trans; [apply final_flows_length|].
    rewrite init_edges, length_map. lia.
Qed.

(** X2: On an [infeasible] answer [cut_reachable] is in non-decreasing order
    and holds no name twice. *)
Theorem cut_reachable_sorted_nodup
    (maximum_flow : DiGraph -> string -> string -> string + (Q * flow_dict))
    (minimum_cut : DiGraph -> string -> string
                   -> string + (Q * (list string * list string)))
    (data : belts_data) (cr : list string) (d : Q) (tn : list string)
    (te : list tight_edge) :
  solve maximum_flow minimum_cut (init data) = ret (BInfeasible cr d tn te) ->
  Sorted string_order cr /\ NoDup cr.
Proof.
  intro H. apply solve_infeasible_inv in H.
  destruct H as (mp & G & D & v & fd & cv & side_s & side_t
                 & _ & _ & _ & _ & _ & -> & _).
  split; [apply sorted_strings_Sorted | apply sorted_set_NoDup].
Qed.

(** ** The reported total *)

Lemma sset_fresh {V} (d : list (string * V)) (k : string) (v : V) :
  ~ In k (map fst d) -> sset d k v = d ++ [(k, v)].
Proof.
  induction d as [|[k0 v0] d IH]; intro H; simpl; [reflexivity|].
  destruct (String.eqb_spec k k0) as [->|Hk].
  - exfalso. apply H. now left.
  - f_equal. apply IH. intro Hin. apply H. now right.
Qed.

Lemma fold_sset_fresh {A V} (name : A -> string) (val : A -> V)
    (l : list A) (d0 : list (string * V)) :
  NoDup (map name l) ->
  (forall a, In a l -> ~ In (name a) (map fst d0)) ->
  fold_left (fun d a => sset d (name a) (val a)) l d0
  = d0 ++ map (fun a => (name a, val a)) l.
Proof.
  revert d0. induction l as [|a l IH]; intros d0 Hnd Hfresh; simpl.
  - now rewrite app_nil_r.
  - inversion Hnd as [|? ? Hnin Hnd']. subst.
    rewrite IH.
    + rewrite sset_fresh by (apply Hfresh; now left).
      rewrite <- app_assoc. reflexivity.
    + exact Hnd'.
    + intros b Hb. rewrite sset_fresh by (apply Hfresh; now left).
      rewrite map_app, in_app_iff. simpl.
      intros [Hin|[Heq|[]]].
      * apply (Hfresh b); [now right | exact Hin].
      * apply Hnin. rewrite Heq. now apply in_map.
Qed.

(** X3: On an [ok] answer [max_flow_per_min] is the sum of the declared
    supplies (source names being distinct), not the kernel's flow value. *)
Theorem ok_reports_total_supply
    (maximum_flow : DiGraph -> string -> string -> string + (Q * flow_dict))
    (minimum_cut : DiGraph -> string -> string
                   -> string + (Q * (list string * list string)))
    (data : belts_data) (m : Q) (flows : list flow_entry) :
  NoDup (map src_name (sources data)) ->
  solve maximum_flow minimum_cut (init data) = ret (BOk m flows) ->
  m = Qsum (map src_supply (sources data)).
Proof.
  intros Hnd H. apply solve_ok_inv in H.
  destruct H as (mp & G & D & v & fd & _ & _ & _ & _ & -> & _).
  unfold init. cbn [total_supply_amount].
  rewrite (fold_sset_fresh src_name src_supply (sources data) [] Hnd)
    by (intros a _ []).
  simpl. now rewrite map_map.
Qed.

(** ** Apportioning the aggregated flow *)

Lemma all_items_update (acc : mapped_pairs) (key : string * string)
    (it : item) :
  Permutation
    (all_items (dict_update pair_eqb acc key [] (fun l => l ++ [it])))
    (it :: all_items acc).
Proof.
  unfold dict_update, all_items.
  induction acc as [|[k0 l0] acc IH]; simpl.
  - apply Permutation_refl.
  - unfold dict_get_or. simpl.
    destruct (pair_eqb_spec key k0) as [->|Hk]; simpl.
    + rewrite <- app_assoc. simpl.
      apply Permutation_sym, Permutation_middle.
    + fold (dict_get_or pair_eqb acc key []).
      eapply Permutation_trans; [apply Permutation_app_head, IH|].
      apply Permutation_sym, Permutation_middle.
Qed.

(** Every arc index lies in exactly one group. *)
Lemma collect_edges_indices (imap emap : list (string * string))
    (es : list edge) (idx : nat) (acc mp : mapped_pairs) :
  collect_edges imap emap idx es acc = inr mp ->
  Permutation (map it_idx (all_items mp))
              (map it_idx (all_items acc) ++ seq idx (List.length es)).
Proof.
  revert idx acc. induction es as [|e es IH]; intros idx acc; simpl.
  - intro H. inversion H. subst. now rewrite app_nil_r.
  - destruct (Qlt_bool _ _); [discriminate|].
    destruct (sget emap (e_from e)) as [ms|]; [|discriminate].
    destruct (sget imap (e_to e)) as [mt|]; [|discriminate].
    intro H. apply IH in H.
    eapply Permutation_trans; [exact H|].
    eapply Permutation_trans.
    + apply Permutation_app_tail. apply Permutation_map.
      apply all_items_update.
    + simpl. apply Permutation_middle.
Qed.



Lemma list_set_length {A} (l : list A) (i : nat) (v : A) :
  List.length (list_set l i v) = List.length l.
Proof.
  revert i. induction l as [|x l IH]; intro i; [reflexivity|].
  destruct i; simpl; [reflexivity | now rewrite IH].
Qed.




Lemma writes_length (W : list (nat * Q)) (fl : list Q) :
  List.length (fold_left write_slot W fl) = List.length fl.
Proof.
  revert fl. induction W as [|w W IH]; intro fl; simpl; [reflexivity|].
  rewrite IH. apply list_set_length.
Qed.





(** ** Where [solve] stops *)

Lemma collect_edges_first_stop (self : BeltsSolver) (es : list edge)
    (idx : nat) (acc : mapped_pairs) (e : edge) :
  find (stops_validation (network_nodes self)) es = Some e ->
  collect_edges (fst (get_internal_node_maps self))
                (snd (get_internal_node_maps self)) idx es acc
  = inl (if hi_below_lo e
         then ret (BError (hi_lt_lo_message (e_from e) (e_to e)))
         else if negb (str_in (e_from e) (network_nodes self))
              then raise (KeyError (e_from e))
              else raise (KeyError (e_to e))).
Proof.
  revert idx acc. induction es as [|e0 es IH]; intros idx acc; simpl;
    [discriminate|].
  unfold stops_validation at 1.
  rewrite external_lookup, internal_lookup.
  fold (hi_below_lo e0).
  destruct (hi_below_lo e0) eqn:Hb; simpl.
  - intro H. inversion H. subst. now rewrite Hb.
  - destruct (str_in (e_from e0) (network_nodes self)) eqn:Hf; simpl.
    + destruct (str_in (e_to e0) (network_nodes self)) eqn:Ht; simpl.
      * apply IH.
      * intro H. inversion H. subst. now rewrite Hb, Hf.
    + intro H. inversion H. subst. now rewrite Hb, Hf.
Qed.

Lemma solve_at_first_offender
    (maximum_flow : DiGraph -> string -> string -> string + (Q * flow_dict))
    (minimum_cut : DiGraph -> string -> string
                   -> string + (Q * (list string * list string)))
    (data : belts_data) (e : edge) :
  find (stops_validation (nodes data)) (edges data) = Some e ->
  solve maximum_flow minimum_cut (init data)
  = if hi_below_lo e
    then ret (BError (hi_lt_lo_message (e_from e) (e_to e)))
    else if negb (str_in (e_from e) (nodes data))
         then raise (KeyError (e_from e))
         else raise (KeyError (e_to e)).
Proof.
  intro H.
  assert (H' : find (stops_validation (network_nodes (init data)))
                    (network_edges (init data)) = Some (normalise e)).
  { rewrite init_edges. change (network_nodes (init data)) with (nodes data).
    revert H. induction (edges data) as [|e0 es IH]; simpl; [discriminate|].
    unfold stops_validation at 1 3.
    rewrite hi_below_lo_normalise.
    destruct (normalise_fields e0) as (-> & -> & _ & _).
    destruct (_ || _ || _); [|exact IH].
    intro E. inversion E. reflexivity. }
  pose proof (collect_edges_first_stop (init data) _ 0 [] _ H') as Hc.
  rewrite hi_below_lo_normalise in Hc.
  destruct (normalise_fields e) as (Hf & Ht & _ & _).
  rewrite Hf, Ht in Hc.
  unfold solve.
  destruct (get_internal_node_maps (init data)) as [imap emap].
  cbn [fst snd] in Hc. rewrite Hc. reflexivity.
Qed.

(** X5: The first loop of [solve] stops at the first arc whose bounds are
    inverted or whose endpoint is no declared node: with the error
    response for inverted bounds, else with [KeyError] on the tail, else
    with [KeyError] on the head; no later arc and no kernel is looked at,
    and [main] answers with an error in each case. *)
Theorem validation_stops_at_first_offender
    (maximum_flow : DiGraph -> string -> string -> string + (Q * flow_dict))
    (minimum_cut : DiGraph -> string -> string
                   -> string + (Q * (list string * list string)))
    (data : belts_data) (e : edge) :
  find (stops_validation (nodes data)) (edges data) = Some e ->
  solve maximum_flow minimum_cut (init data)
  = (if hi_below_lo e
     then ret (BError (hi_lt_lo_message (e_from e) (e_to e)))
     else if negb (str_in (e_from e) (nodes data))
          then raise (KeyError (e_from e))
          else raise (KeyError (e_to e)))
  /\ main maximum_flow minimum_cut data
     = BError (if hi_below_lo e
               then hi_lt_lo_message (e_from e) (e_to e)
               else if negb (str_in (e_from e) (nodes data))
                    then "'" ++ e_from e ++ "'"
                    else "'" ++ e_to e ++ "'")%string.
Proof.
  intro H. pose proof (solve_at_first_offender maximum_flow minimum_cut
                         data e H) as Hs.
  split; [exact Hs|]. unfold main. rewrite Hs.
  destruct (hi_below_lo e); [reflexivity|].
  destruct (negb _); reflexivity.
Qed.

Lemma first_key_sset {V} (p : string -> bool) (d : list (string * V))
    (k : string) (v : V) :
  option_map fst (find (fun kv => p (fst kv)) (sset d k v))
  = match option_map fst (find (fun kv => p (fst kv)) d) with
    | Some k' => Some k'
    | None => if p k then Some k else None
    end.
Proof.
  induction d as [|[k' v'] d IH]; simpl.
  - destruct (p k); reflexivity.
  - destruct (String.eqb_spec k k') as [->|Hk]; simpl.
    + destruct (p k') eqn:Hp; simpl; [reflexivity|].
      destruct (option_map fst (find _ d)); reflexivity.
    + destruct (p k'); [reflexivity | exact IH].
Qed.

Lemma first_key_caps (p : string -> bool) (l : list node_cap)
    (acc : list (string * Q)) :
  option_map fst
    (find (fun kv => p (fst kv))
          (fold_left (fun d nc => sset d (nc_name nc) (nc_cap nc)) l acc))
  = match option_map fst (find (fun kv => p (fst kv)) acc) with
    | Some k' => Some k'
    | None => option_map nc_name (find (fun nc => p (nc_name nc)) l)
    end.
Proof.
  revert acc. induction l as [|nc l IH]; intro acc; simpl.
  - destruct (option_map _ _); reflexivity.
  - rewrite IH, first_key_sset.
    destruct (option_map fst (find _ acc)); [reflexivity|].
    destruct (p (nc_name nc)); reflexivity.
Qed.

Lemma add_node_cap_arcs_first_unknown (self : BeltsSolver)
    (caps : list (string * Q)) (G : DiGraph) (k : string) :
  option_map fst
    (find (fun kv => negb (str_in (fst kv) (network_nodes self))) caps)
  = Some k ->
  add_node_cap_arcs (fst (get_internal_node_maps self))
                    (snd (get_internal_node_maps self)) caps G
  = raise (KeyError k).
Proof.
  revert G. induction caps as [|[node c] caps IH]; intro G; simpl;
    [discriminate|].
  unfold sindex. rewrite internal_lookup, external_lookup.
  destruct (str_in node (network_nodes self)); simpl.
  - apply IH.
  - intro H. inversion H. reflexivity.
Qed.

Lemma solve_at_undeclared_cap
    (maximum_flow : DiGraph -> string -> string -> string + (Q * flow_dict))
    (minimum_cut : DiGraph -> string -> string
                   -> string + (Q * (list string * list string)))
    (data : belts_data) (nc : node_cap) :
  find (stops_validation (nodes data)) (edges data) = None ->
  find (undeclared_cap (nodes data)) (node_caps data) = Some nc ->
  solve maximum_flow minimum_cut (init data) = raise (KeyError (nc_name nc)).
Proof.
  intros Hv Hc.
  { assert (Hall : forall e, In e (network_edges (init data)) ->
              hi_below_lo e = false
              /\ sget (snd (get_internal_node_maps (init data))) (e_from e)
                 <> None
              /\ sget (fst (get_internal_node_maps (init data))) (e_to e)
                 <> None).
    { intros e He. rewrite init_edges in He. apply in_map_iff in He.
      destruct He as (e0 & <- & He0).
      pose proof (find_none _ _ Hv e0 He0) as Hn.
      unfold stops_validation in Hn.
      apply orb_false_iff in Hn. destruct Hn as [Hn Hto].
      apply orb_false_iff in Hn. destruct Hn as [Hb Hfrom].
      apply negb_false_iff in Hto, Hfrom.
      rewrite hi_below_lo_normalise, external_lookup, internal_lookup.
      destruct (normalise_fields e0) as (-> & -> & _ & _).
      change (network_nodes (init data)) with (nodes data).
      rewrite Hto, Hfrom. repeat split; [exact Hb | discriminate ..]. }
    destruct (collect_edges_ok _ _ _ 0 [] Hall) as [mp Hmp].
    assert (Hk : option_map fst
              (find (fun kv => negb (str_in (fst kv)
                                       (network_nodes (init data))))
                    (node_capacity_map (init data)))
              = Some (nc_name nc)).
    { change (network_nodes (init data)) with (nodes data).
      change (node_capacity_map (init data))
        with (fold_left (fun d nc => sset d (nc_name nc) (nc_cap nc))
                        (node_caps data) []).
      rewrite (first_key_caps (fun k => negb (str_in k (nodes data)))).
      simpl. unfold undeclared_cap in Hc. now rewrite Hc. }
    unfold solve.
    pose proof (add_node_cap_arcs_first_unknown (init data)
                  (node_capacity_map (init data))) as Hadd.
    destruct (get_internal_node_maps (init data)) as [imap emap].
    cbn [fst snd] in Hmp, Hadd. rewrite Hmp.
    unfold build_flow_graph. rewrite (Hadd _ _ Hk). reflexivity. }
Qed.

(** X6: When every arc passes the first loop and some capacity entry names an
    undeclared node, [solve] raises [KeyError] on the first such name
    before any kernel is called, and [main] answers with an error whose
    message is that name in quotes. *)
Theorem undeclared_capped_node_raises
    (maximum_flow : DiGraph -> string -> string -> string + (Q * flow_dict))
    (minimum_cut : DiGraph -> string -> string
                   -> string + (Q * (list string * list string)))
    (data : belts_data) (nc : node_cap) :
  find (stops_validation (nodes data)) (edges data) = None ->
  find (undeclared_cap (nodes data)) (node_caps data) = Some nc ->
  solve maximum_flow minimum_cut (init data) = raise (KeyError (nc_name nc))
  /\ main maximum_flow minimum_cut data
     = BError ("'" ++ nc_name nc ++ "'")%string.
Proof.
  intros Hv Hc.
  pose proof (solve_at_undeclared_cap maximum_flow minimum_cut data nc Hv Hc)
    as Hs.
  split; [exact Hs|]. unfold main. rewrite Hs. reflexivity.
Qed.

Lemma checks_pass (data : belts_data) :
  find (stops_validation (nodes data)) (edges data) = None ->
  find (undeclared_cap (nodes data)) (node_caps data) = None ->
  collect_edges (fst (get_internal_node_maps (init data)))
                (snd (get_internal_node_maps (init data))) 0
                (network_edges (init data)) []
  = inr (mapped_of (init data))
  /\ caps_in_nodes (init data).
Proof.
  intros Hv Hc. split.
  - assert (Hall : forall e, In e (network_edges (init data)) ->
              hi_below_lo e = false
              /\ sget (snd (get_internal_node_maps (init data))) (e_from e)
                 <> None
              /\ sget (fst (get_internal_node_maps (init data))) (e_to e)
                 <> None).
    { intros e He. rewrite init_edges in He. apply in_map_iff in He.
      destruct He as (e0 & <- & He0).
      pose proof (find_none _ _ Hv e0 He0) as Hn.
      unfold stops_validation in Hn.
      apply orb_false_iff in Hn. destruct Hn as [Hn Hto].
      apply orb_false_iff in Hn. destruct Hn as [Hb Hfrom].
      apply negb_false_iff in Hto, Hfrom.
      rewrite hi_below_lo_normalise, external_lookup, internal_lookup.
      destruct (normalise_fields e0) as (-> & -> & _ & _).
      change (network_nodes (init data)) with (nodes data).
      rewrite Hto, Hfrom. repeat split; [exact Hb | discriminate ..]. }
    destruct (collect_edges_ok _ _ _ 0 [] Hall) as [mp Hmp].
    unfold mapped_of. now rewrite Hmp.
  - apply node_capacity_map_keys. intros nc Hnc.
    pose proof (find_none _ _ Hc nc Hnc) as Hn. unfold undeclared_cap in Hn.
    apply negb_false_iff in Hn. now apply str_in_iff.
Qed.

(** X7: The two kernels fail differently.  An exception of the max-flow
    kernel is caught inside [solve] and becomes an error response with the
    prefix "maxflow error: "; it is the answer for every input that passes
    the checks before the call. *)
Theorem maxflow_failure_is_reported
    (maximum_flow : DiGraph -> string -> string -> string + (Q * flow_dict))
    (minimum_cut : DiGraph -> string -> string
                   -> string + (Q * (list string * list string)))
    (data : belts_data) (exc : string) :
  find (stops_validation (nodes data)) (edges data) = None ->
  find (undeclared_cap (nodes data)) (node_caps data) = None ->
  maximum_flow (aux_network (init data)) SUPER_SOURCE SUPER_SINK = inl exc ->
  solve maximum_flow minimum_cut (init data)
  = ret (BError ("maxflow error: " ++ exc)%string).
Proof.
  intros Hv Hc Hk. destruct (checks_pass data Hv Hc) as [Hmp Hcaps].
  rewrite (solve_unfold _ _ _ _ Hmp Hcaps).
  fold (aux_network (init data)). now rewrite Hk.
Qed.

(** X8: An exception of the min-cut kernel is not caught inside [solve]: when
    the flow value misses the demand by more than [1e-9] and the min-cut
    kernel fails, [solve] raises, and [main] turns the exception into an
    error response that carries its text without any prefix. *)
Theorem mincut_failure_escapes_solve
    (maximum_flow : DiGraph -> string -> string -> string + (Q * flow_dict))
    (minimum_cut : DiGraph -> string -> string
                   -> string + (Q * (list string * list string)))
    (data : belts_data) (v : Q) (fd : flow_dict) (msg : string) :
  find (stops_validation (nodes data)) (edges data) = None ->
  find (undeclared_cap (nodes data)) (node_caps data) = None ->
  maximum_flow (aux_network (init data)) SUPER_SOURCE SUPER_SINK
  = inr (v, fd) ->
  NUMERICAL_TOLERANCE < Qabs (v - total_demand (init data)) ->
  minimum_cut (aux_network (init data)) SUPER_SOURCE SUPER_SINK = inl msg ->
  solve maximum_flow minimum_cut (init data) = raise (KernelError msg)
  /\ main maximum_flow minimum_cut data = BError msg.
Proof.
  intros Hv Hc Hk Hgap Hcut. destruct (checks_pass data Hv Hc) as [Hmp Hcaps].
  assert (Hs : solve maximum_flow minimum_cut (init data)
               = raise (KernelError msg)).
  { rewrite (solve_unfold _ _ _ _ Hmp Hcaps).
    fold (aux_network (init data)). fold (total_demand (init data)).
    rewrite Hk. apply Qlt_bool_iff in Hgap. rewrite Hgap.
    unfold format_infeasible. now rewrite Hcut. }
  split; [exact Hs|]. unfold main. now rewrite Hs.
Qed.

(** X9: The only exceptions that leave [solve] are a [KeyError] on a name that
    is no declared node and the exception of the min-cut kernel. *)
Theorem solve_raises_only_keyerror_or_cut_failure
    (maximum_flow : DiGraph -> string -> string -> string + (Q * flow_dict))
    (minimum_cut : DiGraph -> string -> string
                   -> string + (Q * (list string * list string)))
    (data : belts_data) (e : exn) :
  solve maximum_flow minimum_cut (init data) = raise e ->
  (exists k, e = KeyError k /\ ~ In k (nodes data))
  \/ (exists msg, e = KernelError msg
        /\ minimum_cut (aux_network (init data)) SUPER_SOURCE SUPER_SINK
           = inl msg).
Proof.
  destruct (find (stops_validation (nodes data)) (edges data))
    as [bad|] eqn:Hv.
  - rewrite (solve_at_first_offender _ _ _ _ Hv).
    apply find_some in Hv. destruct Hv as [_ Hv].
    unfold stops_validation in Hv.
    destruct (hi_below_lo bad); [discriminate|]. simpl in Hv.
    destruct (str_in (e_from bad) (nodes data)) eqn:Hf; simpl in *.
    + intro H. inversion H. left. exists (e_to bad). split; [reflexivity|].
      intro Hin. apply str_in_iff in Hin. rewrite Hin in Hv. discriminate.
    + intro H. inversion H. left. exists (e_from bad). split; [reflexivity|].
      intro Hin. apply str_in_iff in Hin. rewrite Hin in Hf. discriminate.
  - destruct (find (undeclared_cap (nodes data)) (node_caps data))
      as [nc|] eqn:Hc.
    + rewrite (solve_at_undeclared_cap maximum_flow minimum_cut _ _ Hv Hc).
      apply find_some in Hc. destruct Hc as [_ Hc]. unfold undeclared_cap in Hc.
      intro H. inversion H. left. exists (nc_name nc). split; [reflexivity|].
      intro Hin. apply str_in_iff in Hin. rewrite Hin in Hc. discriminate.
    + destruct (checks_pass data Hv Hc) as [Hmp Hcaps].
      rewrite (solve_unfold _ _ _ _ Hmp Hcaps).
      fold (aux_network (init data)).
      destruct (maximum_flow _ _ _) as [exc|[v fd]]; [discriminate|].
      destruct (Qlt_bool _ _); [|discriminate].
      destruct (minimum_cut (aux_network (init data)) SUPER_SOURCE SUPER_SINK)
        as [msg|cut] eqn:Hcut.
      * unfold format_infeasible. rewrite Hcut. intro H. inversion H.
        right. exists msg. auto.
      * destruct (format_infeasible_ok minimum_cut (init data) _ v
                    (snd (flow_graph (init data) (mapped_of (init data))))
                    fd (mapped_of (init data)) _ Hcut)
          as (cr & d & tn & te & ->).
        discriminate.
Qed.

(** ** The infeasibility report *)

Section Report.
Variable maximum_flow :
  DiGraph -> string -> string -> string + (Q * flow_dict).
Variable minimum_cut :
  DiGraph -> string -> string -> string + (Q * (list string * list string)).

Lemma infeasible_parts (data : belts_data) (cr : list string) (d : Q)
    (tn : list string) (te : list tight_edge) :
  solve maximum_flow minimum_cut (init data) = ret (BInfeasible cr d tn te) ->
  exists v fd cv side_s side_t tn0,
    collect_edges (fst (get_internal_node_maps (init data)))
                  (snd (get_internal_node_maps (init data))) 0
                  (network_edges (init data)) []
    = inr (mapped_of (init data))
    /\ maximum_flow (aux_network (init data)) SUPER_SOURCE SUPER_SINK
       = inr (v, fd)
    /\ minimum_cut (aux_network (init data)) SUPER_SOURCE SUPER_SINK
       = inr (cv, (side_s, side_t))
    /\ tight_nodes_of (aux_network (init data)) fd
         (fst (get_internal_node_maps (init data)))
         (snd (get_internal_node_maps (init data)))
         (reachable_original side_s) (sorted_strings (nodes data))
       = ret tn0
    /\ cr = sorted_set (reachable_original side_s)
    /\ d = total_demand (init data) - v
    /\ tn = sorted_strings tn0
    /\ te = tight_edges_of (aux_network (init data)) fd side_s d
                           (mapped_of (init data)).
Proof.
  intro H.
  assert (Hex : exists mp,
            collect_edges (fst (get_internal_node_maps (init data)))
                          (snd (get_internal_node_maps (init data))) 0
                          (network_edges (init data)) [] = inr mp
            /\ caps_in_nodes (init data)).
  { apply solve_infeasible_inv in H.
    destruct H as (mp & G & D & _ & _ & _ & _ & _ & Hmp & Hb & _).
    exists mp. split; [exact Hmp|]. exact (build_flow_graph_caps _ _ _ Hb). }
  destruct Hex as (mp & Hmp & Hcaps).
  assert (Hmo : mapped_of (init data) = mp)
    by (unfold mapped_of; now rewrite Hmp).
  rewrite (solve_unfold _ _ _ _ Hmp Hcaps) in H. rewrite <- Hmo in H, Hmp.
  fold (aux_network (init data)) in H. fold (total_demand (init data)) in H.
  destruct (maximum_flow (aux_network (init data)) SUPER_SOURCE SUPER_SINK)
    as [exc|[v fd]]; [discriminate|].
  destruct (Qlt_bool _ _); [|discriminate].
  unfold format_infeasible in H.
  destruct (minimum_cut (aux_network (init data)) SUPER_SOURCE SUPER_SINK)
    as [msg|[cv [side_s side_t]]]; [discriminate|].
  change (network_nodes (init data)) with (nodes data) in H.
  destruct (tight_nodes_of _ _ _ _ _ _) as [e|tn0] eqn:Htn;
    [discriminate|].
  cbn [bind] in H. unfold ret in H. inversion H. subst.
  exists v, fd, cv, side_s, side_t, tn0.
  repeat (split; [reflexivity || assumption|]). reflexivity.
Qed.

End Report.

Lemma split_names_differ (n : string) :
  ((n ++ "__in") =? (n ++ "__out"))%string = false.
Proof.
  induction n as [|c n IH]; [reflexivity|].
  simpl. now rewrite Ascii.eqb_refl.
Qed.

Lemma tight_nodes_of_filter (self : BeltsSolver) (G : DiGraph)
    (fd : flow_dict) (reach ns : list string) :
  (forall n, In n ns -> In n (network_nodes self)) ->
  tight_nodes_of G fd (fst (get_internal_node_maps self))
                 (snd (get_internal_node_maps self)) reach ns
  = ret (filter (tight_node self G fd reach) ns).
Proof.
  induction ns as [|n ns IH]; intro Hns; [reflexivity|].
  assert (Hn : str_in n (network_nodes self) = true)
    by (apply str_in_iff, Hns; now left).
  cbn [tight_nodes_of filter].
  rewrite IH by (intros m Hm; apply Hns; now right).
  assert (Ht : tight_node self G fd reach n
               = str_in n reach && is_split self n
                 && Qle_bool (arc_capacity G (n ++ "__in") (n ++ "__out")
                              - flow_on fd (n ++ "__in") (n ++ "__out"))
                             NUMERICAL_TOLERANCE) by reflexivity.
  rewrite Ht. clear Ht.
  destruct (str_in n reach); cbn [negb andb]; [|reflexivity].
  unfold sindex. rewrite internal_lookup, external_lookup, Hn.
  cbn [bind ret]. unfold internal_name, external_name.
  destruct (is_split self n); cbn [andb].
  - rewrite split_names_differ.
    destruct (Qle_bool _ _); reflexivity.
  - rewrite String.eqb_refl. reflexivity.
Qed.

(** X10: In an [infeasible] answer [tight_nodes] is sorted and lists exactly
    the declared nodes that are split, that appear in [cut_reachable], and
    whose capacity arc [n__in -> n__out] has at most [1e-9] of slack under
    the flow the kernel returned. *)
Theorem tight_nodes_are_saturated_split_nodes
    (maximum_flow : DiGraph -> string -> string -> string + (Q * flow_dict))
    (minimum_cut : DiGraph -> string -> string
                   -> string + (Q * (list string * list string)))
    (data : belts_data) (cr : list string) (d : Q) (tn : list string)
    (te : list tight_edge) :
  solve maximum_flow minimum_cut (init data) = ret (BInfeasible cr d tn te) ->
  exists v fd,
    maximum_flow (aux_network (init data)) SUPER_SOURCE SUPER_SINK
    = inr (v, fd)
    /\ Sorted string_order tn
    /\ forall n, In n tn <->
         In n (nodes data) /\ In n cr /\ is_split (init data) n = true
         /\ arc_capacity (aux_network (init data)) (n ++ "__in") (n ++ "__out")
            - flow_on fd (n ++ "__in") (n ++ "__out")
            <= NUMERICAL_TOLERANCE.
Proof.
  intro H. apply infeasible_parts in H.
  destruct H as (v & fd & cv & side_s & side_t & tn0
                 & _ & Hk & _ & Htn & -> & _ & -> & _).
  exists v, fd. split; [exact Hk|]. split; [apply sorted_strings_Sorted|].
  rewrite tight_nodes_of_filter in Htn
    by (intros n Hn; now apply sorted_In in Hn).
  unfold ret in Htn. inversion Htn as [E]. clear Htn E.
  intro n. unfold sorted_strings at 1. rewrite sorted_In, filter_In.
  unfold sorted_strings. rewrite sorted_In, sorted_set_In.
  unfold tight_node. rewrite !andb_true_iff, str_in_iff, Qle_bool_iff.
  tauto.
Qed.

Lemma tight_edges_of_In (G : DiGraph) (fd : flow_dict)
    (side_s : list string) (d : Q) (mp : mapped_pairs) (t : tight_edge) :
  In t (tight_edges_of G fd side_s d mp) <->
  exists key l it,
    In (key, l) mp /\ In it l
    /\ str_in (fst key) side_s && negb (str_in (snd key) side_s)
       && Qle_bool (arc_capacity G (fst key) (snd key)
                    - flow_on fd (fst key) (snd key)) NUMERICAL_TOLERANCE
       = true
    /\ t = mk_tight_edge (it_from it) (it_to it) d.
Proof.
  unfold tight_edges_of. rewrite in_flat_map. split.
  - intros ([[ms mt] l] & Hin & Ht). cbn [fst snd].
    destruct (str_in ms side_s && negb (str_in mt side_s)) eqn:Hc;
      [|destruct Ht].
    destruct (Qle_bool _ _) eqn:Hq; [|destruct Ht].
    apply in_map_iff in Ht. destruct Ht as (it & <- & Hit).
    exists (ms, mt), l, it. cbn [fst snd]. rewrite Hc, Hq. auto.
  - intros ([ms mt] & l & it & Hin & Hit & Hc & ->). cbn [fst snd] in Hc.
    exists ((ms, mt), l). split; [exact Hin|].
    apply andb_true_iff in Hc. destruct Hc as [Hc Hq]. rewrite Hc, Hq.
    apply in_map_iff. exists it. auto.
Qed.

Lemma group_of_arc (data : belts_data) :
  collect_edges (fst (get_internal_node_maps (init data)))
                (snd (get_internal_node_maps (init data))) 0
                (network_edges (init data)) []
  = inr (mapped_of (init data)) ->
  (forall key l it, In (key, l) (mapped_of (init data)) -> In it l ->
     exists e, In e (edges data)
               /\ it_from it = e_from e /\ it_to it = e_to e
               /\ key = (external_name (init data) (e_from e),
                         internal_name (init data) (e_to e)))
  /\ (forall e, In e (edges data) ->
        exists l it,
          In ((external_name (init data) (e_from e),
               internal_name (init data) (e_to e)), l) (mapped_of (init data))
          /\ In it l /\ it_from it = e_from e /\ it_to it = e_to e).
Proof.
  intro Hmp.
  assert (Hok : items_ok (fst (get_internal_node_maps (init data)))
                         (snd (get_internal_node_maps (init data)))
                         (network_edges (init data)) (mapped_of (init data))).
  { apply (collect_edges_items _ _ (network_edges (init data)) [] []);
      [|exact Hmp].
    intros key l it []. }
  assert (Hkey : forall key l it e0 i,
            In (key, l) (mapped_of (init data)) -> In it l ->
            it_idx it = i -> nth_error (edges data) i = Some e0 ->
            it_from it = e_from e0 /\ it_to it = e_to e0
            /\ key = (external_name (init data) (e_from e0),
                      internal_name (init data) (e_to e0))).
  { intros key l it e0 i Hin Hit Hi Hn.
    destruct (Hok key l it Hin Hit) as (e & He & Hitem & Hs & Ht).
    rewrite Hi, init_edges, nth_error_map, Hn in He. simpl in He.
    inversion He. subst e. clear He.
    destruct (normalise_fields e0) as (Hf & Hto & _ & _).
    rewrite Hf, external_lookup in Hs. rewrite Hto, internal_lookup in Ht.
    destruct (str_in (e_from e0) _); [|discriminate].
    destruct (str_in (e_to e0) _); [|discriminate].
    destruct key as [ks kt]. cbn [fst snd] in Hs, Ht.
    inversion Hs. inversion Ht. rewrite Hitem. unfold item_of.
    cbn [it_from it_to]. rewrite Hf, Hto. auto. }
  split.
  - intros key l it Hin Hit.
    destruct (Hok key l it Hin Hit) as (e & He & _).
    rewrite init_edges, nth_error_map in He.
    destruct (nth_error (edges data) (it_idx it)) as [e0|] eqn:Hn;
      [|discriminate].
    exists e0. split; [exact (nth_error_In _ _ Hn)|].
    exact (Hkey key l it e0 _ Hin Hit eq_refl Hn).
  - intros e0 He0. apply In_nth_error in He0. destruct He0 as [i Hn].
    pose proof (collect_edges_indices _ _ _ _ _ _ Hmp) as Hperm.
    assert (Hi : In i (map it_idx (all_items (mapped_of (init data))))).
    { apply (Permutation_in _ (Permutation_sym Hperm)). apply in_seq.
      rewrite init_edges, length_map.
      assert (i < List.length (edges data))%nat
        by (apply nth_error_Some; congruence).
      lia. }
    apply in_map_iff in Hi. destruct Hi as (it & Hi & Hit).
    unfold all_items in Hit. apply in_flat_map in Hit.
    destruct Hit as ([key l] & Hin & Hit). cbn [snd] in Hit.
    destruct (Hkey key l it e0 i Hin Hit Hi Hn) as (Hf & Ht & ->).
    exists l, it. auto.
Qed.

(** X11: In an [infeasible] answer [tight_edges] lists exactly the declared
    arcs whose group of parallel arcs leaves the source side of the cut
    the kernel returned and has at most [1e-9] of slack on its aggregated
    arc; every entry carries the whole deficit as [flow_needed]. *)
Theorem tight_edges_are_saturated_cut_arcs
    (maximum_flow : DiGraph -> string -> string -> string + (Q * flow_dict))
    (minimum_cut : DiGraph -> string -> string
                   -> string + (Q * (list string * list string)))
    (data : belts_data) (cr : list string) (d : Q) (tn : list string)
    (te : list tight_edge) :
  solve maximum_flow minimum_cut (init data) = ret (BInfeasible cr d tn te) ->
  exists v fd cv side_s side_t,
    maximum_flow (aux_network (init data)) SUPER_SOURCE SUPER_SINK
    = inr (v, fd)
    /\ minimum_cut (aux_network (init data)) SUPER_SOURCE SUPER_SINK
       = inr (cv, (side_s, side_t))
    /\ d = total_demand (init data) - v
    /\ forall t, In t te <->
         exists e, In e (edges data)
                   /\ crossing_saturated (init data) (aux_network (init data))
                                         fd side_s e = true
                   /\ t = mk_tight_edge (e_from e) (e_to e) d.
Proof.
  intro H. apply infeasible_parts in H.
  destruct H as (v & fd & cv & side_s & side_t & tn0
                 & Hmp & Hk & Hc & _ & _ & Hd & _ & ->).
  exists v, fd, cv, side_s, side_t.
  split; [exact Hk|]. split; [exact Hc|]. split; [exact Hd|].
  destruct (group_of_arc data Hmp) as [Hfwd Hbwd].
  intro t. rewrite tight_edges_of_In. unfold crossing_saturated. split.
  - intros (key & l & it & Hin & Hit & Hcond & ->).
    destruct (Hfwd key l it Hin Hit) as (e & He & Hf & Ht & ->).
    cbn [fst snd] in Hcond. exists e. rewrite Hf, Ht. auto.
  - intros (e & He & Hcond & ->).
    destruct (Hbwd e He) as (l & it & Hin & Hit & Hf & Ht).
    exists (external_name (init data) (e_from e),
            internal_name (init data) (e_to e)), l, it.
    cbn [fst snd]. rewrite Hf, Ht. auto.
Qed.

(** ** Names of split nodes *)

Lemma prefix_double_underscore (c : ascii) (s : string) :
  String.prefix "__" (String c s)
  = Ascii.eqb c "_"
    && match s with
       | String c' _ => Ascii.eqb c' "_"
       | EmptyString => false
       end.
Proof.
  cbn [String.prefix].
  destruct (Ascii.eqb_spec c "_") as [->|Hc].
  - destruct (ascii_dec "_" "_") as [_|N]; [|now destruct N].
    destruct s as [|c' s']; [reflexivity|]. cbn [String.prefix andb].
    destruct (Ascii.eqb_spec c' "_") as [->|Hc'].
    + destruct (ascii_dec "_" "_") as [_|N]; [|now destruct N].
      destruct s'; reflexivity.
    + destruct (ascii_dec "_" c') as [<-|_]; [now destruct Hc'|reflexivity].
  - destruct (ascii_dec "_" c) as [<-|_]; [now destruct Hc|reflexivity].
Qed.

Lemma plain_name_step (c : ascii) (r : string) :
  plain_name (String c r) = true ->
  plain_name r = true
  /\ Ascii.eqb c "_"
     && match r with
        | String c' _ => Ascii.eqb c' "_"
        | EmptyString => false
        end = false
  /\ (Ascii.eqb c "_" = true -> r <> EmptyString).
Proof.
  cbn [plain_name]. destruct (Ascii.eqb c "_"); cbn [andb].
  - destruct r as [|c' r']; [discriminate|].
    intro H. apply andb_true_iff in H. destruct H as [Hc' Hr].
    apply negb_true_iff in Hc'. rewrite Hc'.
    split; [exact Hr|]. split; [reflexivity | discriminate].
  - intro H. split; [exact H|]. split; [reflexivity | discriminate].
Qed.

Lemma base_name_before_suffix (n t : string) :
  plain_name n = true ->
  base_name (n ++ String "_" (String "_" t)) = n.
Proof.
  induction n as [|c r IH]; intro Hp.
  { destruct t; reflexivity. }
  destruct (plain_name_step c r Hp) as (Hr & Hpre & Hne).
  assert (Hf : Ascii.eqb c "_"
               && match (r ++ String "_" (String "_" t))%string with
                  | String c' _ => Ascii.eqb c' "_"
                  | EmptyString => false
                  end = false).
  { destruct r as [|c' r']; [|exact Hpre].
    destruct (Ascii.eqb c "_"); [now destruct (Hne eq_refl) | reflexivity]. }
  cbn [append base_name]. rewrite prefix_double_underscore, Hf, (IH Hr).
  reflexivity.
Qed.

Lemma base_name_plain (n : string) : plain_name n = true -> base_name n = n.
Proof.
  induction n as [|c r IH]; intro Hp; [reflexivity|].
  destruct (plain_name_step c r Hp) as (Hr & Hpre & _).
  cbn [base_name]. rewrite prefix_double_underscore, Hpre. now rewrite IH.
Qed.

(** X12: Splitting a node and reading the name back is the identity on names
    without "__" that do not end in "_": [_format_infeasible] recovers the
    declared name from both copies of a split node and from an unsplit
    node, whatever the solver's maps say about it. *)
Theorem split_name_round_trip (self : BeltsSolver) (n : string) :
  plain_name n = true ->
  base_name (internal_name self n) = n
  /\ base_name (external_name self n) = n.
Proof.
  intro Hp. unfold internal_name, external_name.
  destruct (is_split self n).
  - split; apply base_name_before_suffix; exact Hp.
  - split; apply base_name_plain; exact Hp.
Qed.

Lemma string_app_assoc (a b c : string) :
  ((a ++ b) ++ c)%string = (a ++ (b ++ c))%string.
Proof. induction a as [|x a IH]; simpl; [reflexivity | now rewrite IH]. Qed.

(** X13: A name that contains "__" is not recovered: the name is cut at its
    first "__", so a node declared as [a__b] is reported as [a]. *)
Theorem double_underscore_name_is_cut (self : BeltsSolver) (a b : string) :
  plain_name a = true ->
  base_name (internal_name self (a ++ "__" ++ b)) = a
  /\ base_name (external_name self (a ++ "__" ++ b)) = a
  /\ base_name (a ++ "__" ++ b) = a.
Proof.
  intros Hp. unfold internal_name, external_name.
  assert (H : base_name (a ++ "__" ++ b) = a)
    by (apply (base_name_before_suffix a b Hp)).
  destruct (is_split self _); [|auto].
  rewrite !string_app_assoc.
  split; [apply (base_name_before_suffix a (b ++ "__in") Hp)|].
  split; [apply (base_name_before_suffix a (b ++ "__out") Hp) | exact H].
Qed.

Lemma smem_fold_sset {A V} (key : A -> string) (g : A -> V) (l : list A)
    (acc : list (string * V)) (k : string) :
  smem (fold_left (fun d x => sset d (key x) (g x)) l acc) k
  = str_in k (map key l) || smem acc k.
Proof.
  revert acc. induction l as [|x l IH]; intro acc; [reflexivity|].
  cbn [fold_left map]. rewrite IH. unfold smem, dict_mem, sset.
  rewrite (dict_get_set _ String.eqb_spec). unfold str_in. cbn [existsb].
  destruct (String.eqb k (key x)); cbn [orb].
  - now rewrite orb_true_r.
  - reflexivity.
Qed.

(** X14: A declared node is split exactly when it has an entry in [node_caps],
    is no source and is not the sink; a split node [n] is mapped to
    [n__in] and [n__out], every other declared node to itself, and a name
    that is not declared has no entry in either map. *)
Theorem node_split_rule (data : belts_data) (n : string) :
  is_split (init data) n
  = str_in n (map nc_name (node_caps data))
    && negb (str_in n (map src_name (sources data)))
    && negb (n =? sink data)%string
  /\ sget (fst (get_internal_node_maps (init data))) n
     = (if str_in n (nodes data)
        then Some (if is_split (init data) n then n ++ "__in" else n)
        else None)%string
  /\ sget (snd (get_internal_node_maps (init data))) n
     = (if str_in n (nodes data)
        then Some (if is_split (init data) n then n ++ "__out" else n)
        else None)%string.
Proof.
  split; [|split].
  - unfold is_split, init. cbn [node_capacity_map source_supply_map sink_node].
    rewrite !smem_fold_sset. cbn [smem dict_mem dict_get].
    now rewrite !orb_false_r.
  - rewrite internal_lookup. reflexivity.
  - rewrite external_lookup. reflexivity.
Qed.

(** ** The statements above at sample problems *)

Import BeltsSamples.

Lemma ok_flows_sorted_and_positive_witness :
  exists m flows,
    solve (const_flow 4 parallel_flow) no_cut_kernel (init parallel)
    = ret (BOk m flows)
    /\ Sorted flow_key_order flows
    /\ (forall fe, In fe flows -> NUMERICAL_TOLERANCE < fe_flow fe)
    /\ (List.length flows <= List.length (edges parallel))%nat.
Proof.
  eexists. eexists. split.
  - vm_compute. reflexivity.
  - eapply (ok_flows_sorted_and_positive (const_flow 4 parallel_flow)
              no_cut_kernel parallel).
    vm_compute. reflexivity.
Defined.

Lemma cut_reachable_sorted_nodup_witness :
  exists cr d tn te,
    solve (const_flow 20 bottleneck_flow)
          (const_cut 20 bottleneck_side_s bottleneck_side_t)
          (init bottleneck) = ret (BInfeasible cr d tn te)
    /\ Sorted string_order cr /\ NoDup cr.
Proof.
  eexists. eexists. eexists. eexists. split.
  - vm_compute. reflexivity.
  - eapply (cut_reachable_sorted_nodup (const_flow 20 bottleneck_flow)
              (const_cut 20 bottleneck_side_s bottleneck_side_t) bottleneck).
    vm_compute. reflexivity.
Defined.

Lemma ok_reports_total_supply_witness :
  NoDup (map src_name (sources parallel))
  /\ exists m flows,
       solve (const_flow 4 parallel_flow) no_cut_kernel (init parallel)
       = ret (BOk m flows)
       /\ m = Qsum (map src_supply (sources parallel)).
Proof.
  assert (Hnd : NoDup (map src_name (sources parallel))).
  { simpl. constructor; [intros []|constructor]. }
  split; [exact Hnd|]. eexists. eexists. split.
  - vm_compute. reflexivity.
  - eapply (ok_reports_total_supply (const_flow 4 parallel_flow)
              no_cut_kernel parallel _ _ Hnd).
    vm_compute. reflexivity.
Defined.


Lemma validation_stops_at_first_offender_witness :
  find (stops_validation (nodes undeclared)) (edges undeclared)
  = Some (mk_edge "x" "sink" None 1)
  /\ solve no_flow_kernel no_cut_kernel (init undeclared)
     = raise (KeyError "x")
  /\ main no_flow_kernel no_cut_kernel undeclared = BError "'x'".
Proof.
  split; [reflexivity|].
  exact (validation_stops_at_first_offender no_flow_kernel no_cut_kernel
           undeclared (mk_edge "x" "sink" None 1) eq_refl).
Defined.

Lemma undeclared_capped_node_raises_witness :
  find (stops_validation (nodes ghost_cap)) (edges ghost_cap) = None
  /\ find (undeclared_cap (nodes ghost_cap)) (node_caps ghost_cap)
     = Some (mk_node_cap "ghost" 5)
  /\ solve no_flow_kernel no_cut_kernel (init ghost_cap)
     = raise (KeyError "ghost")
  /\ main no_flow_kernel no_cut_kernel ghost_cap = BError "'ghost'".
Proof.
  split; [reflexivity|]. split; [reflexivity|].
  exact (undeclared_capped_node_raises no_flow_kernel no_cut_kernel
           ghost_cap (mk_node_cap "ghost" 5) eq_refl eq_refl).
Defined.

Lemma maxflow_failure_is_reported_witness :
  find (stops_validation (nodes bottleneck)) (edges bottleneck) = None
  /\ find (undeclared_cap (nodes bottleneck)) (node_caps bottleneck) = None
  /\ no_flow_kernel (aux_network (init bottleneck)) SUPER_SOURCE SUPER_SINK
     = inl "not called"
  /\ solve no_flow_kernel no_cut_kernel (init bottleneck)
     = ret (BError "maxflow error: not called").
Proof.
  split; [reflexivity|]. split; [reflexivity|]. split; [reflexivity|].
  exact (maxflow_failure_is_reported no_flow_kernel no_cut_kernel bottleneck
           "not called" eq_refl eq_refl eq_refl).
Defined.

Lemma mincut_failure_escapes_solve_witness :
  find (stops_validation (nodes bottleneck)) (edges bottleneck) = None
  /\ find (undeclared_cap (nodes bottleneck)) (node_caps bottleneck) = None
  /\ const_flow 20 bottleneck_flow (aux_network (init bottleneck))
                SUPER_SOURCE SUPER_SINK = inr (20, bottleneck_flow)
  /\ NUMERICAL_TOLERANCE < Qabs (20 - total_demand (init bottleneck))
  /\ no_cut_kernel (aux_network (init bottleneck)) SUPER_SOURCE SUPER_SINK
     = inl "not called"
  /\ solve (const_flow 20 bottleneck_flow) no_cut_kernel (init bottleneck)
     = raise (KernelError "not called")
  /\ main (const_flow 20 bottleneck_flow) no_cut_kernel bottleneck
     = BError "not called".
Proof.
  assert (Hgap : NUMERICAL_TOLERANCE
                 < Qabs (20 - total_demand (init bottleneck)))
    by (vm_compute; reflexivity).
  split; [reflexivity|]. split; [reflexivity|]. split; [reflexivity|].
  split; [exact Hgap|]. split; [reflexivity|].
  exact (mincut_failure_escapes_solve (const_flow 20 bottleneck_flow)
           no_cut_kernel bottleneck 20 bottleneck_flow "not called"
           eq_refl eq_refl eq_refl Hgap eq_refl).
Defined.

Lemma solve_raises_only_keyerror_or_cut_failure_witness :
  solve no_flow_kernel no_cut_kernel (init ghost_cap)
  = raise (KeyError "ghost")
  /\ ((exists k, KeyError "ghost" = KeyError k /\ ~ In k (nodes ghost_cap))
      \/ (exists msg, KeyError "ghost" = KernelError msg
            /\ no_cut_kernel (aux_network (init ghost_cap))
                             SUPER_SOURCE SUPER_SINK = inl msg)).
Proof.
  split; [reflexivity|].
  exact (solve_raises_only_keyerror_or_cut_failure no_flow_kernel
           no_cut_kernel ghost_cap (KeyError "ghost") eq_refl).
Defined.

Lemma tight_nodes_are_saturated_split_nodes_witness :
  exists cr d tn te,
    solve (const_flow 5 capped_junction_flow)
          (const_cut 5 capped_junction_side_s capped_junction_side_t)
          (init capped_junction) = ret (BInfeasible cr d tn te)
    /\ tn = ["a"]
    /\ exists v fd,
         const_flow 5 capped_junction_flow (aux_network (init capped_junction))
                    SUPER_SOURCE SUPER_SINK = inr (v, fd)
         /\ Sorted string_order tn
         /\ forall n, In n tn <->
              In n (nodes capped_junction) /\ In n cr
              /\ is_split (init capped_junction) n = true
              /\ arc_capacity (aux_network (init capped_junction))
                              (n ++ "__in") (n ++ "__out")
                 - flow_on fd (n ++ "__in") (n ++ "__out")
                 <= NUMERICAL_TOLERANCE.
Proof.
  eexists. eexists. eexists. eexists. split; [|split].
  - vm_compute. reflexivity.
  - reflexivity.
  - eapply (tight_nodes_are_saturated_split_nodes
              (const_flow 5 capped_junction_flow)
              (const_cut 5 capped_junction_side_s capped_junction_side_t)
              capped_junction).
    vm_compute. reflexivity.
Defined.

Lemma tight_edges_are_saturated_cut_arcs_witness :
  exists cr d tn te,
    solve (const_flow 20 bottleneck_flow)
          (const_cut 20 bottleneck_side_s bottleneck_side_t)
          (init bottleneck) = ret (BInfeasible cr d tn te)
    /\ te = [mk_tight_edge "a" "sink" d]
    /\ exists v fd cv side_s side_t,
         const_flow 20 bottleneck_flow (aux_network (init bottleneck))
                    SUPER_SOURCE SUPER_SINK = inr (v, fd)
         /\ const_cut 20 bottleneck_side_s bottleneck_side_t
                      (aux_network (init bottleneck)) SUPER_SOURCE SUPER_SINK
            = inr (cv, (side_s, side_t))
         /\ d = total_demand (init bottleneck) - v
         /\ forall t, In t te <->
              exists e, In e (edges bottleneck)
                        /\ crossing_saturated (init bottleneck)
                             (aux_network (init bottleneck)) fd side_s e
                           = true
                        /\ t = mk_tight_edge (e_from e) (e_to e) d.
Proof.
  eexists. eexists. eexists. eexists. split; [|split].
  - vm_compute. reflexivity.
  - reflexivity.
  - eapply (tight_edges_are_saturated_cut_arcs
              (const_flow 20 bottleneck_flow)
              (const_cut 20 bottleneck_side_s bottleneck_side_t)
              bottleneck).
    vm_compute. reflexivity.
Defined.

Lemma split_name_round_trip_witness :
  plain_name "a" = true
  /\ is_split (init forced) "a" = true
  /\ base_name (internal_name (init forced) "a") = "a"
  /\ base_name (external_name (init forced) "a") = "a".
Proof.
  split; [reflexivity|]. split; [reflexivity|].
  exact (split_name_round_trip (init forced) "a" eq_refl).
Defined.

Lemma double_underscore_name_is_cut_witness :
  plain_name "belt" = true
  /\ base_name (internal_name (init forced) ("belt" ++ "__" ++ "2")) = "belt"
  /\ base_name (external_name (init forced) ("belt" ++ "__" ++ "2")) = "belt"
  /\ base_name ("belt" ++ "__" ++ "2") = "belt".
Proof.
  split; [reflexivity|].
  exact (double_underscore_name_is_cut (init forced) "belt" "2" eq_refl).
Defined.

End BeltsMore.

(* ------------------------------------------------------------------ *)
(** ** More about the factory solver *)

Module FactoryMore.
Import Factory MoreNotions FactoryProps FactorySamples.

(** ** The materials *)

(** X15: [_identify_and_categorize_materials] leaves three sorted lists without
    repetitions; no material is both raw and intermediate, and a material is
    listed in [all_materials] exactly when it is raw, intermediate, or only
    ever an output. *)
Theorem materials_are_partitioned (d : factory_data) (self : FactorySolver) :
  init d = ret self ->
  (Sorted string_order (raw_materials self) /\ NoDup (raw_materials self))
  /\ (Sorted string_order (intermediate_materials self)
      /\ NoDup (intermediate_materials self))
  /\ (Sorted string_order (all_materials self) /\ NoDup (all_materials self))
  /\ (forall m, ~ (In m (raw_materials self)
                   /\ In m (intermediate_materials self)))
  /\ forall m, In m (all_materials self) <->
       In m (raw_materials self) \/ In m (intermediate_materials self)
       \/ (In m (all_output_materials d) /\ ~ In m (all_input_materials d)).
Proof.
  intro H. pose proof (init_fields d self H) as (_ & _ & Hraw & Hint & Hall).
  split; [rewrite Hraw; split;
          [apply BeltsMore.sorted_strings_Sorted
          |apply BeltsMore.sorted_set_NoDup]|].
  split; [rewrite Hint; split;
          [apply BeltsMore.sorted_strings_Sorted
          |apply BeltsMore.sorted_set_NoDup]|].
  split; [rewrite Hall; split;
          [apply BeltsMore.sorted_strings_Sorted
          |apply BeltsMore.sorted_set_NoDup]|].
  split.
  - intros m [Hr Hi]. apply (raw_materials_iff d self m H) in Hr.
    apply (intermediate_materials_iff d self m H) in Hi. tauto.
  - intro m. rewrite (all_materials_iff d self m H),
      (raw_materials_iff d self m H), (intermediate_materials_iff d self m H).
    destruct (str_in m (all_input_materials d)) eqn:Ei;
      destruct (str_in m (all_output_materials d)) eqn:Eo;
      repeat match goal with
             | E : str_in _ _ = true |- _ => apply str_in_iff in E
             | E : str_in ?x ?l = false |- _ =>
                 assert (~ In x l)
                   by (intro Hc; apply str_in_iff in Hc; congruence);
                 clear E
             end; tauto.
Qed.

(** ** The shape of the LP *)

Lemma inequality_rows_length (self : FactorySolver) :
  List.length (inequality_rows self)
  = (List.length (machine_type_list self)
     + 2 * List.length (raw_materials self))%nat.
Proof.
  unfold inequality_rows, raw_supply_rows, raw_nonproduction_rows.
  rewrite !length_app, !length_map. lia.
Qed.

(** X16: The arrays handed to the kernel have the shape of the source's
    [np.zeros] calls: one inequality row per machine type and two per raw
    material, one equality row per balanced material, every row and the
    objective with one entry per recipe. *)
Theorem lp_arrays_have_declared_shape (self : FactorySolver) (c : list Q)
    (A_ub : matrix) (b_ub : list bound) (infos : list constraint_info) :
  build_objective_function self = ret c ->
  build_inequality_constraints self = ret (A_ub, b_ub, infos) ->
  let n := List.length (recipe_list self) in
  let rows := (List.length (machine_type_list self)
               + 2 * List.length (raw_materials self))%nat in
  List.length c = n
  /\ List.length A_ub = rows /\ List.length b_ub = rows
  /\ List.length infos = rows
  /\ (forall row, In row A_ub -> List.length row = n)
  /\ List.length (fst (build_equality_constraints self))
     = List.length (materials_to_balance self)
  /\ List.length (snd (build_equality_constraints self))
     = List.length (materials_to_balance self)
  /\ forall row, In row (fst (build_equality_constraints self)) ->
       List.length row = n.
Proof.
  intros Hc Hb n rows.
  apply build_inequality_constraints_value in Hb.
  destruct Hb as (-> & -> & ->).
  split; [exact (mapM_length _ _ _ Hc)|].
  rewrite !length_map, inequality_rows_length.
  split; [reflexivity|]. split; [reflexivity|]. split; [reflexivity|].
  split.
  - intros row Hrow. apply in_map_iff in Hrow.
    destruct Hrow as (r & <- & Hr). unfold inequality_rows in Hr.
    rewrite !in_app_iff in Hr. unfold raw_supply_rows,
      raw_nonproduction_rows, machine_row in Hr.
    rewrite !in_map_iff in Hr.
    destruct Hr as [(M & <- & _)|[(m & <- & _)|(m & <- & _)]];
      cbn [fst]; apply length_map.
  - unfold build_equality_constraints. cbn [fst snd].
    rewrite !length_map. split; [reflexivity|]. split; [reflexivity|].
    intros row Hrow. apply in_map_iff in Hrow.
    destruct Hrow as (m & <- & _). apply length_map.
Qed.

(** ** An [ok] answer *)

Lemma ok_solution (linprog : lp_kernel) (d : factory_data)
    (pr pm rc : list (string * Q)) :
  lp_kernel_sound linprog ->
  main linprog d = FOk pr pm rc ->
  exists self c A_ub b_ub infos xs,
    init d = ret self
    /\ build_objective_function self = ret c
    /\ build_inequality_constraints self = ret (A_ub, b_ub, infos)
    /\ List.length c = List.length (recipe_list self)
    /\ lp_feasible (List.length c) A_ub b_ub
         (Some (fst (build_equality_constraints self)))
         (Some (snd (build_equality_constraints self))) xs = true
    /\ FOk pr pm rc = format_success_output self xs.
Proof.
  intros Hsound H. apply factory_main_ok_inv in H.
  destruct H as (self & Hinit & H). apply factory_solve_ok_inv in H.
  destruct H as (c & A_ub & b_ub & infos & r & xs
                 & Hc & Hb & Hk & Hs & Hx & Hout).
  exists self, c, A_ub, b_ub, infos, xs.
  split; [exact Hinit|]. split; [exact Hc|]. split; [exact Hb|].
  split; [exact (mapM_length _ _ _ Hc)|].
  split; [exact (Hsound _ _ _ _ _ _ _ Hk Hs Hx) | exact Hout].
Qed.

Lemma equality_rows_balance (self : FactorySolver) (xs : list Q) :
  List.length xs = List.length (recipe_list self) ->
  (rows_equal (Some (fst (build_equality_constraints self)))
              (Some (snd (build_equality_constraints self))) xs = true
   <-> forall m, In m (materials_to_balance self) ->
         net_production self m xs
         == if (m =? target_item (data self))%string
            then target_rate_per_min (data self) else 0).
Proof.
  intro Hlen. unfold build_equality_constraints, rows_equal. cbn [fst snd].
  rewrite combine_map_map, forallb_forall. split.
  - intros H m Hm.
    specialize (H _ (in_map _ _ _ Hm)). cbn [fst snd] in H.
    apply Qeq_bool_iff in H. rewrite <- H. unfold net_production.
    symmetry. apply (dot_weighted self (fun r => net_out self r m) xs Hlen).
  - intros H rb Hrb. apply in_map_iff in Hrb. destruct Hrb as (m & <- & Hm).
    cbn [fst snd]. apply Qeq_bool_iff. rewrite <- (H m Hm).
    apply (dot_weighted self (fun r => net_out self r m) xs Hlen).
Qed.

Lemma ok_balance (linprog : lp_kernel) (d : factory_data)
    (pr pm rc : list (string * Q)) :
  lp_kernel_sound linprog ->
  main linprog d = FOk pr pm rc ->
  exists self xs,
    init d = ret self
    /\ pr = combine (recipe_list self) xs
    /\ activities self xs
    /\ forall m, In m (materials_to_balance self) ->
         net_production self m xs
         == if (m =? target_item d)%string
            then target_rate_per_min d else 0.
Proof.
  intros Hsound H.
  destruct (ok_solution linprog d pr pm rc Hsound H)
    as (self & c & A_ub & b_ub & infos & xs
        & Hinit & Hc & Hb & Hlen & Hfeas & Hout).
  exists self, xs. split; [exact Hinit|].
  split; [unfold format_success_output in Hout; now inversion Hout|].
  apply lp_feasible_parts in Hfeas.
  destruct Hfeas as (Hl & Hpos & _ & Heq).
  split; [split; [congruence | exact Hpos]|].
  rewrite <- (init_data d self Hinit).
  apply equality_rows_balance; [congruence | exact Heq].
Qed.

(** X17: With a sound kernel an [ok] answer is a plan: one non-negative rate per
    recipe, in the order of the sorted recipe names, under which the target
    is produced at exactly the requested rate and every other intermediate
    is produced exactly as fast as it is consumed. *)
Theorem ok_plan_balances_materials (linprog : lp_kernel) (d : factory_data)
    (pr pm rc : list (string * Q)) :
  lp_kernel_sound linprog ->
  main linprog d = FOk pr pm rc ->
  exists self xs,
    init d = ret self
    /\ pr = combine (recipe_list self) xs
    /\ activities self xs
    /\ net_production self (target_item d) xs == target_rate_per_min d
    /\ forall m, In m (intermediate_materials self) -> m <> target_item d ->
         net_production self m xs == 0.
Proof.
  intros Hsound H.
  destruct (ok_balance linprog d pr pm rc Hsound H)
    as (self & xs & Hinit & Hpr & Hact & Hbal).
  exists self, xs. split; [exact Hinit|]. split; [exact Hpr|].
  split; [exact Hact|]. split.
  - rewrite (Hbal (target_item d)).
    + now rewrite String.eqb_refl.
    + unfold materials_to_balance. apply sorted_set_In, in_app_iff.
      right. left. now rewrite (init_data d self Hinit).
  - intros m Hm Hne. rewrite (Hbal m).
    + apply String.eqb_neq in Hne. now rewrite Hne.
    + unfold materials_to_balance. apply sorted_set_In, in_app_iff. now left.
Qed.

Lemma weighted_zero (self : FactorySolver) (f : string -> Q) (xs : list Q) :
  (forall r, In r (recipe_list self) -> f r == 0) ->
  weighted self f xs == 0.
Proof.
  intro H. unfold weighted.
  rewrite (Qsum_map_ext _ (fun _ => 0)).
  - induction (combine _ _) as [|a l IH]; simpl.
    + apply Qsum_nil.
    + rewrite Qsum_cons, IH. lra.
  - intros [i r] Hin. apply in_combine_r in Hin. cbn [fst snd].
    rewrite (H r Hin). lra.
Qed.

(** X18: The target always gets a balance row.  When no recipe has a net
    output of the target and the requested rate is not zero, that row reads
    [0 = rate], so no sound kernel leads to an [ok] answer. *)
Theorem unproducible_target_is_never_ok (linprog : lp_kernel)
    (d : factory_data) (self : FactorySolver) (pr pm rc : list (string * Q)) :
  lp_kernel_sound linprog ->
  init d = ret self ->
  (forall r, In r (recipe_list self) -> net_out self r (target_item d) == 0) ->
  ~ target_rate_per_min d == 0 ->
  main linprog d <> FOk pr pm rc.
Proof.
  intros Hsound Hinit Hzero Hrate H.
  destruct (ok_balance linprog d pr pm rc Hsound H)
    as (self' & xs & Hinit' & _ & _ & Hbal).
  assert (self' = self) by (unfold ret in *; congruence). subst self'.
  assert (E : net_production self (target_item d) xs
              == target_rate_per_min d).
  { rewrite (Hbal (target_item d)).
    - now rewrite String.eqb_refl.
    - unfold materials_to_balance. apply sorted_set_In, in_app_iff.
      right. left. now rewrite (init_data d self Hinit). }
  apply Hrate. rewrite <- E. unfold net_production.
  apply weighted_zero. exact Hzero.
Qed.




(** ** Building the solver *)

Lemma crafts_step_runs (d : factory_data) (acc : list (string * Q))
    (nr : string * recipe) :
  smem (machines d) (r_machine (snd nr)) = true ->
  ~ r_time_s (snd nr) == 0 ->
  crafts_step d (ret acc) nr
  = ret (sset acc (fst nr) (crafts_per_min_of d (snd nr))).
Proof.
  intros Hm Ht. unfold crafts_step, crafts_per_min_of, sindex, smem, dict_mem,
    sget_or, dict_get_or, sget in *. cbn [bind ret].
  destruct (dict_get String.eqb (machines d) (r_machine (snd nr)));
    [|discriminate].
  cbn [bind ret]. unfold div_py.
  destruct (Qeq_bool (r_time_s (snd nr)) 0) eqn:E.
  - apply Qeq_bool_iff in E. now destruct Ht.
  - reflexivity.
Qed.

Lemma crafts_step_inv (d : factory_data) (acc : result (list (string * Q)))
    (nr : string * recipe) (ec : list (string * Q)) :
  crafts_step d acc nr = ret ec ->
  exists a, acc = ret a
            /\ smem (machines d) (r_machine (snd nr)) = true
            /\ ~ r_time_s (snd nr) == 0.
Proof.
  unfold crafts_step. destruct acc as [e|a]; [discriminate|].
  cbn [bind]. unfold sindex, smem, dict_mem, sget.
  destruct (dict_get String.eqb (machines d) (r_machine (snd nr)));
    [|discriminate].
  cbn [bind ret]. unfold div_py.
  destruct (Qeq_bool (r_time_s (snd nr)) 0) eqn:E; [discriminate|].
  intros _. exists a. split; [reflexivity|]. split; [reflexivity|].
  intro Hz. apply Qeq_bool_iff in Hz. congruence.
Qed.

Lemma crafts_fold_runs (d : factory_data) (l : list (string * recipe))
    (acc : list (string * Q)) :
  (forall nr, In nr l ->
     smem (machines d) (r_machine (snd nr)) = true
     /\ ~ r_time_s (snd nr) == 0) ->
  fold_left (crafts_step d) l (ret acc) = ret (crafts_table d l acc).
Proof.
  revert acc. induction l as [|nr l IH]; intros acc H; [reflexivity|].
  cbn [fold_left]. unfold crafts_table. cbn [fold_left].
  destruct (H nr (or_introl eq_refl)) as [Hm Ht].
  rewrite (crafts_step_runs d acc nr Hm Ht).
  apply IH. intros nr' Hin. apply H. now right.
Qed.

Lemma crafts_fold_inv (d : factory_data) (l : list (string * recipe))
    (acc : result (list (string * Q))) (ec : list (string * Q)) :
  fold_left (crafts_step d) l acc = ret ec ->
  forall nr, In nr l ->
    smem (machines d) (r_machine (snd nr)) = true
    /\ ~ r_time_s (snd nr) == 0.
Proof.
  revert acc. induction l as [|nr0 l IH]; intros acc H nr Hin;
    [destruct Hin|].
  cbn [fold_left] in H. destruct Hin as [->|Hin].
  - destruct (crafts_step d acc nr) as [e|a] eqn:E.
    + rewrite crafts_fold_raised in H. discriminate.
    + apply crafts_step_inv in E. destruct E as (_ & _ & Hm & Ht). auto.
  - exact (IH _ H nr Hin).
Qed.

Lemma init_runnable (d : factory_data) (self : FactorySolver) :
  init d = ret self ->
  recipes_runnable d
  /\ effective_crafts_per_min self = crafts_table d (recipes d) []
  /\ productivity_multipliers self = get_productivity_multipliers d.
Proof.
  unfold init, recipes_runnable, calculate_effective_crafts. intro H.
  destruct (fold_left (crafts_step d) (recipes d) (ret [])) as [e|ec] eqn:E;
    [discriminate|].
  pose proof (crafts_fold_inv d _ _ _ E) as Hrun.
  rewrite (crafts_fold_runs d (recipes d) [] Hrun) in E.
  cbn [bind] in H. unfold ret in H, E. inversion H. inversion E.
  cbn. auto.
Qed.

(** X20: [FactorySolver(data)] is built exactly when every recipe names a
    declared machine and has a non-zero [time_s]; the table of effective
    crafts per minute is then [crafts_per_min * (1 + speed) * 60 / time_s],
    written recipe by recipe. *)
Theorem solver_is_built_iff_recipes_runnable (d : factory_data) :
  ((exists self, init d = ret self) <-> recipes_runnable d)
  /\ forall self, init d = ret self ->
       effective_crafts_per_min self = crafts_table d (recipes d) [].
Proof.
  split; [split|].
  - intros [self H]. exact (proj1 (init_runnable d self H)).
  - intro H. unfold init, calculate_effective_crafts.
    rewrite (crafts_fold_runs d (recipes d) [] H). cbn [bind].
    eexists. reflexivity.
  - intros self H. exact (proj1 (proj2 (init_runnable d self H))).
Qed.

Lemma fold_sset_untouched {A V} (key : A -> string) (g : A -> V)
    (l : list A) (acc : list (string * V)) (k : string) :
  ~ In k (map key l) ->
  sget (fold_left (fun a x => sset a (key x) (g x)) l acc) k = sget acc k.
Proof.
  revert acc. induction l as [|x l IH]; intros acc H; [reflexivity|].
  cbn [fold_left]. rewrite IH by (intro Hc; apply H; now right).
  unfold sget, sset. rewrite (dict_get_set _ String.eqb_spec).
  destruct (String.eqb_spec k (key x)) as [->|_]; [|reflexivity].
  destruct H. now left.
Qed.

Lemma fold_sset_unique {A V} (key : A -> string) (g : A -> V)
    (l : list A) (acc : list (string * V)) (a : A) :
  NoDup (map key l) -> In a l ->
  sget (fold_left (fun a x => sset a (key x) (g x)) l acc) (key a)
  = Some (g a).
Proof.
  revert acc. induction l as [|x l IH]; intros acc Hnd Hin; [destruct Hin|].
  cbn [map] in Hnd. inversion Hnd as [|? ? Hnin Hnd']. subst.
  cbn [fold_left]. destruct Hin as [->|Hin].
  - rewrite fold_sset_untouched by exact Hnin.
    unfold sget, sset. rewrite (dict_get_set _ String.eqb_spec).
    now rewrite String.eqb_refl.
  - now apply IH.
Qed.

Lemma sget_unique {V} (l : list (string * V)) (k : string) (v : V) :
  NoDup (map fst l) -> In (k, v) l -> sget l k = Some v.
Proof.
  induction l as [|[k0 v0] l IH]; intros Hnd Hin; [destruct Hin|].
  cbn [map fst] in Hnd. inversion Hnd as [|? ? Hnin Hnd']. subst.
  unfold sget. cbn [dict_get]. destruct Hin as [Hin|Hin].
  - inversion Hin. subst. now rewrite String.eqb_refl.
  - destruct (String.eqb_spec k k0) as [->|_].
    + destruct Hnin. apply in_map_iff. exists (k0, v). auto.
    + now apply IH.
Qed.

(** X21: With recipe names that do not repeat (they are the keys of a JSON
    object), the solver's tables hold for every recipe its own entry: the
    recipe itself, its effective crafts per minute and [1 + prod] of its
    machine's module, where a machine without a module entry, or an input
    without [modules], counts as speed 0 and productivity 0. *)
Theorem solver_tables_follow_recipes (d : factory_data)
    (self : FactorySolver) (name : string) (r : recipe) :
  init d = ret self ->
  NoDup (map fst (recipes d)) ->
  In (name, r) (recipes d) ->
  In name (recipe_list self)
  /\ recipe_of self name = r
  /\ sget (effective_crafts_per_min self) name
     = Some (crafts_per_min_of d r)
  /\ sget (productivity_multipliers self) name
     = Some (1 + prod_of d (r_machine r))
  /\ (modules d = None ->
      speed_of d (r_machine r) = 0 /\ prod_of d (r_machine r) = 0).
Proof.
  intros Hinit Hnd Hin.
  destruct (init_runnable d self Hinit) as (_ & Hec & Hpm).
  destruct (init_fields d self Hinit) as (Hd & Hrl & _).
  split; [rewrite Hrl; apply sorted_In, in_map_iff; exists (name, r); auto|].
  split; [unfold recipe_of, sget_or, dict_get_or; rewrite Hd;
          fold (@sget recipe (recipes d) name);
          now rewrite (sget_unique _ _ _ Hnd Hin)|].
  split; [rewrite Hec;
          exact (fold_sset_unique fst (fun nr => crafts_per_min_of d (snd nr))
                   (recipes d) [] (name, r) Hnd Hin)|].
  split; [rewrite Hpm;
          exact (fold_sset_unique fst
                   (fun nr => 1 + prod_of d (r_machine (snd nr)))
                   (recipes d) [] (name, r) Hnd Hin)|].
  intro Hm. unfold speed_of, prod_of, module_of. rewrite Hm. auto.
Qed.

(** ** Errors and kernel failures *)

Lemma mapM_raises {A B} (f : A -> result B) (l : list A) (e : exn) :
  (forall a, In a l -> f a = raise e \/ exists b, f a = ret b) ->
  (exists a, In a l /\ f a = raise e) ->
  mapM f l = raise e.
Proof.
  induction l as [|x l IH]; intros Hall (a & Hin & Ha); [destruct Hin|].
  cbn [mapM]. destruct (Hall x (or_introl eq_refl)) as [Hx|[b Hx]];
    rewrite Hx; [reflexivity|]. cbn [bind].
  destruct Hin as [->|Hin]; [unfold ret, raise in *; congruence|].
  rewrite IH; [reflexivity| |eauto].
  intros a' Ha'. apply Hall. now right.
Qed.

(** X22: A recipe whose effective crafts per minute are zero (a machine with
    [crafts_per_min] 0, or a speed module of -1) makes the objective's
    [1.0 / effective_crafts] divide by zero: the solver is built, no kernel
    is called, and [main] answers with the error of that division. *)
Theorem zero_effective_crafts_is_error (linprog : lp_kernel)
    (d : factory_data) (name : string) (r : recipe) :
  recipes_runnable d ->
  NoDup (map fst (recipes d)) ->
  In (name, r) (recipes d) ->
  crafts_per_min_of d r == 0 ->
  (exists self, init d = ret self
                /\ build_objective_function self = raise ZeroDivisionError)
  /\ main linprog d = FError "float division by zero".
Proof.
  intros Hrun Hnd Hin Hzero.
  assert (Hinit : exists self, init d = ret self).
  { unfold init, calculate_effective_crafts.
    rewrite (crafts_fold_runs d (recipes d) [] Hrun). cbn [bind].
    eexists. reflexivity. }
  destruct Hinit as [self Hinit].
  destruct (init_runnable d self Hinit) as (_ & Hec & _).
  destruct (init_fields d self Hinit) as (_ & Hrl & _).
  assert (Hval : forall n r', In (n, r') (recipes d) ->
            machines_per_craft self n
            = div_py 1 (crafts_per_min_of d r')).
  { intros n r' Hn. unfold machines_per_craft, sindex. rewrite Hec.
    unfold crafts_table.
    pose proof (fold_sset_unique fst (fun nr => crafts_per_min_of d (snd nr))
                  (recipes d) [] (n, r') Hnd Hn) as E.
    cbn [fst snd] in E. rewrite E. reflexivity. }
  assert (Hobj : build_objective_function self = raise ZeroDivisionError).
  { unfold build_objective_function. apply mapM_raises.
    - intros n Hn. rewrite Hrl in Hn. apply sorted_In, in_map_iff in Hn.
      destruct Hn as ([n' r'] & <- & Hn). cbn [fst].
      rewrite (Hval n' r' Hn). unfold div_py.
      destruct (Qeq_bool _ _); [now left | right; eauto].
    - exists name. split.
      + rewrite Hrl. apply sorted_In, in_map_iff. exists (name, r). auto.
      + rewrite (Hval name r Hin). unfold div_py.
        apply Qeq_bool_iff in Hzero. now rewrite Hzero. }
  split; [exists self; auto|].
  assert (Hs : solve linprog self = raise ZeroDivisionError)
    by (unfold solve; rewrite Hobj; reflexivity).
  unfold main. rewrite Hinit. cbn [bind ret]. now rewrite Hs.
Qed.

Lemma solve_with_builders (linprog : lp_kernel) (self : FactorySolver)
    (c : list Q) (A_ub : matrix) (b_ub : list bound)
    (infos : list constraint_info) :
  build_objective_function self = ret c ->
  build_inequality_constraints self = ret (A_ub, b_ub, infos) ->
  solve linprog self
  = (optimization_result <-
       call_linprog linprog c A_ub b_ub
         (Some (fst (build_equality_constraints self)))
         (Some (snd (build_equality_constraints self))) ;;
     if lp_success optimization_result then
       match lp_x optimization_result with
       | None => raise (TypeError "'NoneType' object is not iterable")
       | Some solution_vector =>
           ret (format_success_output self solution_vector)
       end
     else
       maximization <- maximize_target linprog self A_ub b_ub ;;
       match maximization with
       | None => ret (FInfeasible 0 [])
       | Some (max_target, fallback_result) =>
           ret (FInfeasible max_target
                  (get_bottleneck_hints self fallback_result infos
                                        A_ub b_ub))
       end).
Proof.
  intros Hc Hb. unfold solve. rewrite Hc, Hb. cbn [bind].
  destruct (build_equality_constraints self). reflexivity.
Qed.

(** X23: The solver has no [try] around [linprog]: an exception of the kernel,
    in the primary call or in the fallback call, leaves [solve] and [main]
    answers with an error that carries its text. *)
Theorem lp_exception_is_error (linprog : lp_kernel) (d : factory_data)
    (self : FactorySolver) (c : list Q) (A_ub : matrix) (b_ub : list bound)
    (infos : list constraint_info) (msg : string) :
  init d = ret self ->
  build_objective_function self = ret c ->
  build_inequality_constraints self = ret (A_ub, b_ub, infos) ->
  linprog c A_ub b_ub (Some (fst (build_equality_constraints self)))
          (Some (snd (build_equality_constraints self))) = inl msg
  \/ (exists primary,
        linprog c A_ub b_ub (Some (fst (build_equality_constraints self)))
                (Some (snd (build_equality_constraints self))) = inr primary
        /\ lp_success primary = false
        /\ target_item d <> EmptyString
        /\ linprog (fallback_objective self) A_ub b_ub
                   (nonempty (fallback_equality_rows self))
                   (nonempty (fallback_equality_rhs self)) = inl msg) ->
  solve linprog self = raise (KernelError msg)
  /\ main linprog d = FError msg.
Proof.
  intros Hinit Hc Hb Hk.
  assert (Hs : solve linprog self = raise (KernelError msg)).
  { rewrite (solve_with_builders linprog self c A_ub b_ub infos Hc Hb).
    unfold call_linprog.
    destruct Hk as [Hk|(primary & Hk & Hfail & Ht & Hf)]; rewrite Hk;
      [reflexivity|].
    cbn [bind ret]. rewrite Hfail. unfold maximize_target, call_linprog.
    rewrite (init_data d self Hinit).
    apply String.eqb_neq in Ht. rewrite Ht, Hf. reflexivity. }
  split; [exact Hs|]. unfold main. rewrite Hinit. cbn [bind ret]. now rewrite Hs.
Qed.

(** X24: When the primary LP fails and the fallback cannot be run (the target
    name is empty) or fails as well, the answer is [infeasible] with a
    maximum of 0 and no hints. *)
Theorem failed_fallback_reports_zero (linprog : lp_kernel) (d : factory_data)
    (self : FactorySolver) (c : list Q) (A_ub : matrix) (b_ub : list bound)
    (infos : list constraint_info) (primary : lp_result) :
  init d = ret self ->
  build_objective_function self = ret c ->
  build_inequality_constraints self = ret (A_ub, b_ub, infos) ->
  linprog c A_ub b_ub (Some (fst (build_equality_constraints self)))
          (Some (snd (build_equality_constraints self))) = inr primary ->
  lp_success primary = false ->
  target_item d = EmptyString
  \/ (exists fallback,
        linprog (fallback_objective self) A_ub b_ub
                (nonempty (fallback_equality_rows self))
                (nonempty (fallback_equality_rhs self)) = inr fallback
        /\ lp_success fallback = false) ->
  main linprog d = FInfeasible 0 [].
Proof.
  intros Hinit Hc Hb Hk Hfail Hf.
  unfold main. rewrite Hinit. cbn [bind ret].
  rewrite (solve_with_builders linprog self c A_ub b_ub infos Hc Hb).
  unfold call_linprog. rewrite Hk. cbn [bind ret]. rewrite Hfail.
  unfold maximize_target, call_linprog. rewrite (init_data d self Hinit).
  destruct Hf as [->|(fallback & Hf & Hff)]; [reflexivity|].
  destruct (target_item d =? "")%string; [reflexivity|].
  rewrite Hf. cbn [bind ret]. rewrite Hff. reflexivity.
Qed.

(** ** The hints of an [infeasible] answer *)

Lemma unique_in_order_NoDup (l : list string) : NoDup (unique_in_order l).
Proof.
  unfold unique_in_order. apply NoDup_rev.
  assert (H : forall seen, NoDup seen ->
            NoDup (fold_left (fun seen hint =>
                                if str_in hint seen then seen
                                else hint :: seen) l seen)).
  { induction l as [|h l IH]; intros seen Hs; [exact Hs|].
    cbn [fold_left]. apply IH. destruct (str_in h seen) eqn:E; [exact Hs|].
    constructor; [|exact Hs]. intro Hin. apply str_in_iff in Hin. congruence. }
  apply H. constructor.
Qed.

Lemma hints_from_infos (self : FactorySolver) (res : lp_result)
    (infos : list constraint_info) (A_ub : matrix) (b_ub : list bound)
    (h : string) :
  In h (get_bottleneck_hints self res infos A_ub b_ub) ->
  exists info, In info infos /\ h = hint_of info.
Proof.
  unfold get_bottleneck_hints. destruct (lp_x res) as [xs|]; [|intros []].
  rewrite unique_in_order_In, in_flat_map.
  intros ([sl info] & Hin & Hh). apply in_combine_r in Hin.
  destruct (bound_leb _ _); [|destruct Hh].
  destruct Hh as [<-|[]]. eauto.
Qed.

Lemma main_infeasible_inv (linprog : lp_kernel) (d : factory_data) (q : Q)
    (hints : list string) :
  main linprog d = FInfeasible q hints ->
  exists self,
    init d = ret self
    /\ (hints = []
        \/ exists res A_ub b_ub infos,
             build_inequality_constraints self = ret (A_ub, b_ub, infos)
             /\ hints = get_bottleneck_hints self res infos A_ub b_ub).
Proof.
  unfold main. destruct (init d) as [e|self]; [discriminate|].
  cbn [bind]. intro H. exists self. split; [reflexivity|].
  unfold solve in H.
  destruct (build_objective_function self) as [e|c]; [discriminate|].
  cbn [bind] in H.
  destruct (build_inequality_constraints self) as [e|[[A_ub b_ub] infos]];
    [discriminate|].
  cbn [bind] in H.
  destruct (build_equality_constraints self) as [A_eq b_eq].
  destruct (call_linprog linprog c A_ub b_ub (Some A_eq) (Some b_eq))
    as [e|r]; [discriminate|].
  cbn [bind] in H.
  destruct (lp_success r).
  - destruct (lp_x r); discriminate.
  - destruct (maximize_target linprog self A_ub b_ub) as [e|[[mt fr]|]];
      cbn [bind] in H; [discriminate| |].
    + unfold ret in H. inversion H. right. exists fr, A_ub, b_ub, infos. auto.
    + unfold ret in H. inversion H. now left.
Qed.

(** X25: The hints of an [infeasible] answer do not repeat, and each of them
    names a row of the inequality system: ["M cap"] for a declared machine
    type, or ["m supply"] or ["m production restriction"] for a raw
    material. *)
Theorem hints_are_distinct_and_declared (linprog : lp_kernel)
    (d : factory_data) (q : Q) (hints : list string) :
  main linprog d = FInfeasible q hints ->
  exists self,
    init d = ret self
    /\ NoDup hints
    /\ forall h, In h hints -> declared_hint self h.
Proof.
  intro H. apply main_infeasible_inv in H.
  destruct H as (self & Hinit & [->|(res & A_ub & b_ub & infos & Hb & ->)]);
    exists self; (split; [exact Hinit|]).
  - split; [constructor | intros h []].
  - split.
    + unfold get_bottleneck_hints. destruct (lp_x res); [|constructor].
      apply unique_in_order_NoDup.
    + intros h Hh. apply hints_from_infos in Hh.
      destruct Hh as (info & Hinfo & ->).
      apply build_inequality_constraints_value in Hb.
      destruct Hb as (_ & _ & ->). apply in_map_iff in Hinfo.
      destruct Hinfo as (row & <- & Hrow).
      destruct (row_hints self) as (Hm & Hs & Hn).
      unfold inequality_rows in Hrow. rewrite !in_app_iff in Hrow.
      destruct Hrow as [Hrow|[Hrow|Hrow]].
      * apply in_map_iff in Hrow. destruct Hrow as (M & <- & HM).
        left. exists M. split; [exact HM | apply Hm].
      * destruct (Hs row Hrow) as (m & Hm' & _ & ->).
        right. exists m. auto.
      * destruct (Hn row Hrow) as (m & Hm' & _ & ->).
        right. exists m. auto.
Qed.

Lemma init_tolerance (d : factory_data) (self : FactorySolver) :
  init d = ret self -> numerical_tolerance self = (1 # 1000000).
Proof.
  unfold init. destruct (calculate_effective_crafts d); [discriminate|].
  cbn [bind ret]. intro H. inversion H. reflexivity.
Qed.

Lemma binding_iff (bnd : bound) (q t : Q) :
  bound_leb (bound_sub bnd q) t = true
  <-> exists b, bnd = Fin b /\ b - q <= t.
Proof.
  destruct bnd as [b|]; cbn [bound_sub bound_leb].
  - rewrite Qle_bool_iff. split; [eauto|].
    intros (b' & E & H). inversion E. now subst.
  - split; [discriminate|]. intros (b & E & _). discriminate.
Qed.

(** X26: When the kernel's result carries no slack, the hints are computed from
    its vector: a row is named exactly when its bound is finite and exceeds
    the row's left-hand side by at most [1e-6].  A machine type without an
    entry in [max_machines], or a raw material without a supply cap, has an
    infinite bound and is never named through that row. *)
Theorem computed_slack_marks_binding_rows (d : factory_data)
    (self : FactorySolver) (A_ub : matrix) (b_ub : list bound)
    (infos : list constraint_info) (res : lp_result) (xs : list Q)
    (h : string) :
  init d = ret self ->
  build_inequality_constraints self = ret (A_ub, b_ub, infos) ->
  lp_x res = Some xs -> lp_slack res = None ->
  (In h (get_bottleneck_hints self res infos A_ub b_ub)
   <-> exists r, In r (inequality_rows self)
                 /\ h = hint_of (snd r)
                 /\ exists b, snd (fst r) = Fin b
                              /\ b - dot (fst (fst r)) xs <= 1 # 1000000).
Proof.
  intros Hinit Hb Hx Hs.
  apply build_inequality_constraints_value in Hb.
  destruct Hb as (-> & -> & ->).
  unfold get_bottleneck_hints. rewrite Hx, Hs, (init_tolerance d self Hinit).
  change (Qmax (1 # 1000000) (1 # 1000000)) with (1 # 1000000).
  rewrite unique_in_order_In, combine_map_map, map_map, combine_map_map.
  rewrite in_flat_map. split.
  - intros ([sl info] & Hin & Hh). apply in_map_iff in Hin.
    destruct Hin as (r & E & Hr). inversion E. subst sl info. clear E.
    destruct (bound_leb _ _) eqn:Hle; [|destruct Hh].
    destruct Hh as [<-|[]]. exists r. split; [exact Hr|].
    split; [reflexivity|]. now apply binding_iff.
  - intros (r & Hr & -> & Hbind). apply binding_iff in Hbind.
    exists (bound_sub (snd (fst r)) (dot (fst (fst r)) xs), snd r).
    split; [apply in_map_iff; exists r; auto|].
    rewrite Hbind. now left.
Qed.

(** ** The primary LP *)

Lemma objective_value (self : FactorySolver) (c xs : list Q) :
  build_objective_function self = ret c ->
  List.length xs = List.length (recipe_list self) ->
  dot c xs == total_machines self xs.
Proof.
  intros Hc Hlen. unfold build_objective_function in Hc.
  apply (mapM_inv_map _ (fun r => 1 / effective_crafts self r)) in Hc.
  - rewrite Hc. apply (dot_weighted self _ xs Hlen).
  - intros r q _ Hq. apply machines_per_craft_value in Hq. tauto.
Qed.

Lemma primary_lp_feasible (self : FactorySolver) (c : list Q)
    (A_ub : matrix) (b_ub : list bound) (infos : list constraint_info)
    (xs : list Q) :
  build_objective_function self = ret c ->
  build_inequality_constraints self = ret (A_ub, b_ub, infos) ->
  (lp_feasible (List.length c) A_ub b_ub
               (Some (fst (build_equality_constraints self)))
               (Some (snd (build_equality_constraints self))) xs = true
   <-> primary_feasible self xs).
Proof.
  intros Hc Hineq. rewrite lp_feasible_parts, (mapM_length _ _ _ Hc).
  apply build_inequality_constraints_value in Hineq.
  destruct Hineq as (-> & -> & _). unfold primary_feasible, activities.
  split.
  - intros (Hl & Hx & Hr & He). split; [split; assumption|]. split.
    + apply inequality_rows_hold; [exact Hl|]. now apply rows_hold_iff.
    + now apply equality_rows_balance.
  - intros ((Hl & Hx) & Hcap & Hb). split; [exact Hl|]. split; [exact Hx|].
    split.
    + apply rows_hold_iff. now apply inequality_rows_hold.
    + now apply equality_rows_balance.
Qed.

(** X27: The primary LP minimises the machines in use: when the kernel returns
    an optimum, the [ok] answer formats a plan that meets the target, the
    balances and the caps, and no plan that meets them keeps fewer machines
    busy. *)
Theorem ok_plan_minimises_machines (linprog : lp_kernel)
    (self : FactorySolver) (c : list Q) (A_ub : matrix) (b_ub : list bound)
    (infos : list constraint_info) (primary : lp_result) (xs : list Q) :
  build_objective_function self = ret c ->
  build_inequality_constraints self = ret (A_ub, b_ub, infos) ->
  linprog c A_ub b_ub (Some (fst (build_equality_constraints self)))
          (Some (snd (build_equality_constraints self))) = inr primary ->
  lp_success primary = true -> lp_x primary = Some xs ->
  lp_optimum c A_ub b_ub (Some (fst (build_equality_constraints self)))
             (Some (snd (build_equality_constraints self))) xs ->
  solve linprog self = ret (format_success_output self xs)
  /\ primary_feasible self xs
  /\ forall ys, primary_feasible self ys ->
       total_machines self xs <= total_machines self ys.
Proof.
  intros Hc Hb Hk Hs Hx [Hfeas Hopt].
  split.
  { rewrite (solve_with_builders linprog self c A_ub b_ub infos Hc Hb).
    unfold call_linprog. rewrite Hk. cbn [bind ret]. now rewrite Hs, Hx. }
  pose proof (proj1 (primary_lp_feasible self c A_ub b_ub infos xs Hc Hb)
                    Hfeas) as Hxs.
  split; [exact Hxs|]. intros ys Hys.
  pose proof (proj2 (primary_lp_feasible self c A_ub b_ub infos ys Hc Hb)
                    Hys) as Hys'.
  apply Hopt in Hys'.
  rewrite (objective_value self c xs Hc (proj1 (proj1 Hxs))) in Hys'.
  rewrite (objective_value self c ys Hc (proj1 (proj1 Hys))) in Hys'.
  exact Hys'.
Qed.

(** ** The statements above at sample problems *)

Lemma materials_are_partitioned_witness :
  exists self,
    init slag_plant = ret self
    /\ raw_materials self = ["ore"]
    /\ intermediate_materials self = []
    /\ all_materials self = ["gear"; "ore"; "slag"]
    /\ (Sorted string_order (raw_materials self)
        /\ NoDup (raw_materials self))
    /\ (Sorted string_order (intermediate_materials self)
        /\ NoDup (intermediate_materials self))
    /\ (Sorted string_order (all_materials self)
        /\ NoDup (all_materials self))
    /\ (forall m, ~ (In m (raw_materials self)
                     /\ In m (intermediate_materials self)))
    /\ forall m, In m (all_materials self) <->
         In m (raw_materials self) \/ In m (intermediate_materials self)
         \/ (In m (all_output_materials slag_plant)
             /\ ~ In m (all_input_materials slag_plant)).
Proof.
  eexists. split; [vm_compute; reflexivity|].
  split; [reflexivity|]. split; [reflexivity|]. split; [reflexivity|].
  eapply (materials_are_partitioned slag_plant). vm_compute. reflexivity.
Defined.

Lemma lp_arrays_have_declared_shape_witness :
  exists self c A_ub b_ub infos,
    init gears = ret self
    /\ build_objective_function self = ret c
    /\ build_inequality_constraints self = ret (A_ub, b_ub, infos)
    /\ List.length c = List.length (recipe_list self)
    /\ List.length A_ub
       = (List.length (machine_type_list self)
          + 2 * List.length (raw_materials self))%nat
    /\ List.length b_ub
       = (List.length (machine_type_list self)
          + 2 * List.length (raw_materials self))%nat
    /\ List.length infos
       = (List.length (machine_type_list self)
          + 2 * List.length (raw_materials self))%nat
    /\ (forall row, In row A_ub ->
          List.length row = List.length (recipe_list self))
    /\ List.length (fst (build_equality_constraints self))
       = List.length (materials_to_balance self)
    /\ List.length (snd (build_equality_constraints self))
       = List.length (materials_to_balance self)
    /\ forall row, In row (fst (build_equality_constraints self)) ->
         List.length row = List.length (recipe_list self).
Proof.
  eexists. eexists. eexists. eexists. eexists.
  split; [vm_compute; reflexivity|].
  split; [vm_compute; reflexivity|].
  split; [vm_compute; reflexivity|].
  eapply (lp_arrays_have_declared_shape _ _ _ _ _);
    vm_compute; reflexivity.
Defined.

Lemma ok_plan_balances_materials_witness :
  lp_kernel_sound (checked_lp (const_lp gears_answer))
  /\ exists pr pm rc,
       main (checked_lp (const_lp gears_answer)) gears = FOk pr pm rc
       /\ exists self xs,
            init gears = ret self
            /\ pr = combine (recipe_list self) xs
            /\ activities self xs
            /\ net_production self (target_item gears) xs
               == target_rate_per_min gears
            /\ forall m, In m (intermediate_materials self) ->
                 m <> target_item gears -> net_production self m xs == 0.
Proof.
  split; [apply checked_lp_sound|].
  eexists. eexists. eexists. split.
  - vm_compute. reflexivity.
  - eapply (ok_plan_balances_materials
              (checked_lp (const_lp gears_answer)) gears).
    + apply checked_lp_sound.
    + vm_compute. reflexivity.
Defined.

Lemma unproducible_target_is_never_ok_witness :
  lp_kernel_sound (checked_lp (const_lp gears_answer))
  /\ exists self,
       init no_copper = ret self
       /\ (forall r, In r (recipe_list self) ->
             net_out self r (target_item no_copper) == 0)
       /\ ~ target_rate_per_min no_copper == 0
       /\ main (checked_lp (const_lp gears_answer)) no_copper
          <> FOk [("iron_gear", 10)] [("assembler", 10 # 7200)]
                 [("iron_plate", 20)].
Proof.
  split; [apply checked_lp_sound|].
  eexists. split; [vm_compute; reflexivity|].
  match goal with
  | |- ?A /\ ?B /\ _ =>
      assert (Hz : A) by (intros r [<-|[]]; vm_compute; reflexivity);
      assert (Hr : B) by (intro Hc; discriminate Hc)
  end.
  split; [exact Hz|]. split; [exact Hr|].
  refine (unproducible_target_is_never_ok
            (checked_lp (const_lp gears_answer)) no_copper _ _ _ _
            (checked_lp_sound _) _ Hz Hr).
  reflexivity.
Defined.


Lemma solver_tables_follow_recipes_witness :
  NoDup (map fst (recipes gears))
  /\ In ("iron_gear", iron_gear) (recipes gears)
  /\ exists self,
       init gears = ret self
       /\ In "iron_gear" (recipe_list self)
       /\ recipe_of self "iron_gear" = iron_gear
       /\ sget (effective_crafts_per_min self) "iron_gear"
          = Some (crafts_per_min_of gears iron_gear)
       /\ sget (productivity_multipliers self) "iron_gear"
          = Some (1 + prod_of gears (r_machine iron_gear))
       /\ (modules gears = None ->
           speed_of gears (r_machine iron_gear) = 0
           /\ prod_of gears (r_machine iron_gear) = 0).
Proof.
  assert (Hnd : NoDup (map fst (recipes gears))).
  { simpl. constructor; [intros []|constructor]. }
  assert (Hin : In ("iron_gear", iron_gear) (recipes gears)) by now left.
  split; [exact Hnd|]. split; [exact Hin|].
  eexists. split; [vm_compute; reflexivity|].
  refine (solver_tables_follow_recipes gears _ "iron_gear" iron_gear
            _ Hnd Hin).
  reflexivity.
Defined.

Lemma zero_effective_crafts_is_error_witness :
  recipes_runnable stalled
  /\ NoDup (map fst (recipes stalled))
  /\ In ("iron_gear", iron_gear) (recipes stalled)
  /\ crafts_per_min_of stalled iron_gear == 0
  /\ (exists self,
        init stalled = ret self
        /\ build_objective_function self = raise ZeroDivisionError)
  /\ main (const_lp gears_answer) stalled
     = FError "float division by zero".
Proof.
  assert (Hrun : recipes_runnable stalled).
  { intros nr [<-|[]]. split; [reflexivity | intro Hc; discriminate Hc]. }
  assert (Hnd : NoDup (map fst (recipes stalled))).
  { simpl. constructor; [intros []|constructor]. }
  assert (Hin : In ("iron_gear", iron_gear) (recipes stalled)) by now left.
  assert (Hz : crafts_per_min_of stalled iron_gear == 0) by reflexivity.
  split; [exact Hrun|]. split; [exact Hnd|]. split; [exact Hin|].
  split; [exact Hz|].
  exact (zero_effective_crafts_is_error (const_lp gears_answer) stalled
           "iron_gear" iron_gear Hrun Hnd Hin Hz).
Defined.

Lemma lp_exception_is_error_witness :
  exists self c A_ub b_ub infos,
    init gears = ret self
    /\ build_objective_function self = ret c
    /\ build_inequality_constraints self = ret (A_ub, b_ub, infos)
    /\ failing_lp "HiGHS failed" c A_ub b_ub
         (Some (fst (build_equality_constraints self)))
         (Some (snd (build_equality_constraints self)))
       = inl "HiGHS failed"
    /\ solve (failing_lp "HiGHS failed") self
       = raise (KernelError "HiGHS failed")
    /\ main (failing_lp "HiGHS failed") gears = FError "HiGHS failed".
Proof.
  eexists. eexists. eexists. eexists. eexists.
  split; [vm_compute; reflexivity|].
  split; [vm_compute; reflexivity|].
  split; [vm_compute; reflexivity|].
  split; [reflexivity|].
  eapply (lp_exception_is_error (failing_lp "HiGHS failed") gears).
  - vm_compute. reflexivity.
  - vm_compute. reflexivity.
  - vm_compute. reflexivity.
  - left. reflexivity.
Defined.

Lemma failed_fallback_reports_zero_witness :
  exists self c A_ub b_ub infos,
    init capped = ret self
    /\ build_objective_function self = ret c
    /\ build_inequality_constraints self = ret (A_ub, b_ub, infos)
    /\ const_lp lp_failure c A_ub b_ub
         (Some (fst (build_equality_constraints self)))
         (Some (snd (build_equality_constraints self)))
       = inr lp_failure
    /\ lp_success lp_failure = false
    /\ const_lp lp_failure (fallback_objective self) A_ub b_ub
         (nonempty (fallback_equality_rows self))
         (nonempty (fallback_equality_rhs self))
       = inr lp_failure
    /\ main (const_lp lp_failure) capped = FInfeasible 0 [].
Proof.
  eexists. eexists. eexists. eexists. eexists.
  split; [vm_compute; reflexivity|].
  split; [vm_compute; reflexivity|].
  split; [vm_compute; reflexivity|].
  split; [reflexivity|]. split; [reflexivity|]. split; [reflexivity|].
  eapply (failed_fallback_reports_zero (const_lp lp_failure) capped
            _ _ _ _ _ lp_failure).
  - vm_compute. reflexivity.
  - vm_compute. reflexivity.
  - vm_compute. reflexivity.
  - reflexivity.
  - reflexivity.
  - right. exists lp_failure. split; reflexivity.
Defined.

Lemma hints_are_distinct_and_declared_witness :
  main (two_answers lp_failure idle_answer) idle
  = FInfeasible 0 ["assembler cap"; "iron_plate supply"]
  /\ exists self,
       init idle = ret self
       /\ NoDup ["assembler cap"; "iron_plate supply"]
       /\ forall h, In h ["assembler cap"; "iron_plate supply"] ->
                    declared_hint self h.
Proof.
  split; [vm_compute; reflexivity|].
  eapply (hints_are_distinct_and_declared
            (two_answers lp_failure idle_answer) idle 0).
  vm_compute. reflexivity.
Defined.

Lemma computed_slack_marks_binding_rows_witness :
  exists self A_ub b_ub infos,
    init idle = ret self
    /\ build_inequality_constraints self = ret (A_ub, b_ub, infos)
    /\ lp_x idle_answer_no_slack = Some [0]
    /\ lp_slack idle_answer_no_slack = None
    /\ (In "assembler cap"
           (get_bottleneck_hints self idle_answer_no_slack infos A_ub b_ub)
        <-> exists r, In r (inequality_rows self)
                      /\ "assembler cap" = hint_of (snd r)
                      /\ exists b, snd (fst r) = Fin b
                                   /\ b - dot (fst (fst r)) [0]
                                      <= 1 # 1000000).
Proof.
  eexists. eexists. eexists. eexists.
  split; [vm_compute; reflexivity|].
  split; [vm_compute; reflexivity|].
  split; [reflexivity|]. split; [reflexivity|].
  eapply (computed_slack_marks_binding_rows idle _ _ _ _
            idle_answer_no_slack [0] "assembler cap").
  - vm_compute. reflexivity.
  - vm_compute. reflexivity.
  - reflexivity.
  - reflexivity.
Defined.

Lemma gears_optimum :
  lp_optimum [1 # 7200] [[1 # 7200]; [2]; [-2]] [Fin 10; Fin 200; Fin 0]
             (Some [[1]]) (Some [10]) [10].
Proof.
  split; [vm_compute; reflexivity|].
  intros ys H. one_activity H ys y. lra.
Qed.

Lemma ok_plan_minimises_machines_witness :
  exists self,
    init gears = ret self
    /\ solve (const_lp gears_answer) self
       = ret (format_success_output self [10])
    /\ primary_feasible self [10]
    /\ forall ys, primary_feasible self ys ->
         total_machines self [10] <= total_machines self ys.
Proof.
  eexists. split; [vm_compute; reflexivity|].
  eapply (ok_plan_minimises_machines (const_lp gears_answer)
            _ [1 # 7200] [[1 # 7200]; [2]; [-2]] [Fin 10; Fin 200; Fin 0]
            _ gears_answer [10]).
  - vm_compute. reflexivity.
  - vm_compute. reflexivity.
  - reflexivity.
  - reflexivity.
  - reflexivity.
  - exact gears_optimum.
Defined.

End FactoryMore.
